(** * A 2x2 cube solver: the cube engine, the frontier queue and the state table

    Shallow embedding of [cube.c], [queue.c], [state_table.c] and
    [solver.c].

    Conventions.
    - A C [int] is a [Z]; [/] and [%] are [Z.quot] and [Z.rem] (truncation
      toward zero).  Values are kept inside 32 bits by the code paths modelled
      here, except where a wrap-around is written out.
    - An [unsigned char] buffer is a function from byte offsets to [Z]; every
      store goes through [to_uchar].
    - Undefined behaviour (an out-of-bounds access, leaving a value-returning
      function without [return]) is the result [None]. *)

From Stdlib Require Import ZArith List Bool Lia Sorted Ascii Permutation.
Import ListNotations.
Local Open Scope Z_scope.

(** A small error monad for the partial operations. *)
Definition obind {A B : Type} (o : option A) (f : A -> option B) : option B :=
  match o with
  | Some a => f a
  | None => None
  end.

Notation "x <- e ;; k" := (obind e (fun x => k))
  (at level 61, e at next level, right associativity).

(** A [char] that holds a character is the code of the character; [char]
    is signed. *)
Definition chr (c : ascii) : Z := Z.of_N (N_of_ascii c).

(* ===================================================================== *)
(** ** cube.c *)
(* ===================================================================== *)

Module Cube.

(** Powers of 21. *)
Definition c21_6 : Z := 85766121.
Definition c21_5 : Z := 4084101.
Definition c21_4 : Z := 194481.
Definition c21_3 : Z := 9261.
Definition c21_2 : Z := 441.
Definition c21_1 : Z := 21.
Definition c21_0 : Z := 1.

(** Rows are the turns, columns the piece states. *)
Definition turn_table : list (list Z) :=
  [ [4;5;3;11;9;10;1;2;0;8;6;7;12;13;14;15;16;17;18;19;20];   (* front CC *)
    [8;6;7;2;0;1;10;11;9;4;5;3;12;13;14;15;16;17;18;19;20];   (* front C *)
    [13;14;12;1;2;0;6;7;8;9;10;11;17;15;16;5;3;4;18;19;20];   (* left CC *)
    [5;3;4;16;17;15;6;7;8;9;10;11;2;0;1;13;14;12;18;19;20];   (* left C *)
    [7;8;6;3;4;5;20;18;19;9;10;11;1;2;0;15;16;17;14;12;13];   (* top CC *)
    [14;12;13;3;4;5;2;0;1;9;10;11;19;20;18;15;16;17;7;8;6] ]. (* top C *)

(** [turn_table[turn][state]]; an index outside the 6 x 21 table is an
    out-of-bounds read. *)
Definition turn_table_get (turn state : Z) : option Z :=
  if (0 <=? turn) && (turn <? 6) && (0 <=? state) && (state <? 21)
  then nth_error (nth (Z.to_nat turn) turn_table []) (Z.to_nat state)
  else None.

Definition rotate (cube turn : Z) : option Z :=
  (* obtain original states *)
  let state6 := Z.quot cube c21_6 in
  let state5 := Z.quot (Z.rem cube c21_6) c21_5 in
  let state4 := Z.quot (Z.rem cube c21_5) c21_4 in
  let state3 := Z.quot (Z.rem cube c21_4) c21_3 in
  let state2 := Z.quot (Z.rem cube c21_3) c21_2 in
  let state1 := Z.quot (Z.rem cube c21_2) c21_1 in
  let state0 := Z.rem cube c21_1 in
  (* convert states *)
  state6 <- turn_table_get turn state6 ;;
  state5 <- turn_table_get turn state5 ;;
  state4 <- turn_table_get turn state4 ;;
  state3 <- turn_table_get turn state3 ;;
  state2 <- turn_table_get turn state2 ;;
  state1 <- turn_table_get turn state1 ;;
  state0 <- turn_table_get turn state0 ;;
  (* rebuild cube and return *)
  Some (state0 + (state1 * c21_1) + (state2 * c21_2) + (state3 * c21_3) +
        (state4 * c21_4) + (state5 * c21_5) + (state6 * c21_6)).

Definition frontCC (cube : Z) : option Z := rotate cube 0.
Definition frontC (cube : Z) : option Z := rotate cube 1.
Definition leftCC (cube : Z) : option Z := rotate cube 2.
Definition leftC (cube : Z) : option Z := rotate cube 3.
Definition topCC (cube : Z) : option Z := rotate cube 4.
Definition topC (cube : Z) : option Z := rotate cube 5.

(** The solved cube, [0x5FD3097E]. *)
Definition SOLVED_CUBE : Z := 1607666046.

(** The partner of a turn: front CC with front C, left CC with left C,
    top CC with top C. *)
Definition inverse_turn (turn : Z) : Z :=
  if Z.even turn then turn + 1 else turn - 1.

(** The configuration space: the integers below [21^7]. *)
Definition in_space (cube : Z) : Prop := 0 <= cube < 21 * c21_6.

(** Configurations obtained from the solved cube by turns. *)
Inductive reachable : Z -> Prop :=
| reach_solved : reachable SOLVED_CUBE
| reach_turn (cube turn cube' : Z) :
    reachable cube -> 0 <= turn < 6 -> rotate cube turn = Some cube' ->
    reachable cube'.

End Cube.

(** Arrays are functions from offsets to cell contents; [store] is an
    assignment to one cell. *)
Definition store (m : Z -> Z) (i v : Z) : Z -> Z :=
  fun j => if j =? i then v else m j.

(* ===================================================================== *)
(** ** queue.c *)
(* ===================================================================== *)

Module Queue.

(** [head] and [tail] are kept as offsets from [base], in cells. *)
Record Queue : Type := mkQueue {
  base : Z -> Z;       (* the entries *)
  head : Z;            (* the last occupied cell *)
  tail : Z;            (* the next free cell *)
  max_cells : Z;       (* maximum number of entries *)
  cells_used : Z       (* number of cells that are currently full *)
}.

(** Both allocations are taken to succeed; [calloc] zeroes the entries. *)
Definition createQueue (max_cells : Z) : Queue :=
  {| base := fun _ => 0; head := 0; tail := 0;
     max_cells := max_cells; cells_used := 0 |}.

(** Returns the queue and the result: [0] if successful, [-1] if not. *)
Definition enqueue (queue : Queue) (element : Z) : Queue * Z :=
  if cells_used queue >=? max_cells queue then
    ({| base := base queue; head := head queue; tail := tail queue;
        max_cells := max_cells queue; cells_used := max_cells queue |}, -1)
  else
    let base' := store (base queue) (tail queue) element in
    let tail' := tail queue + 1 in
    let tail' := if tail' =? max_cells queue then 0 else tail' in
    ({| base := base'; head := head queue; tail := tail';
        max_cells := max_cells queue; cells_used := cells_used queue + 1 |}, 0).

(** Returns the queue and the head entry, [-1] if the queue is empty. *)
Definition dequeue (queue : Queue) : Queue * Z :=
  if cells_used queue <=? 0 then
    ({| base := base queue; head := head queue; tail := tail queue;
        max_cells := max_cells queue; cells_used := 0 |}, -1)
  else
    let h := head queue in
    let head' := head queue + 1 in
    let head' := if head' =? max_cells queue then 0 else head' in
    ({| base := base queue; head := head'; tail := tail queue;
        max_cells := max_cells queue; cells_used := cells_used queue - 1 |},
     base queue h).

(** Returns the queue and the head entry, [-1] if the queue is empty. *)
Definition peek (queue : Queue) : Queue * Z :=
  if cells_used queue <=? 0 then
    ({| base := base queue; head := head queue; tail := tail queue;
        max_cells := max_cells queue; cells_used := 0 |}, -1)
  else (queue, base queue (head queue)).

End Queue.

(* ===================================================================== *)
(** ** state_table.c *)
(* ===================================================================== *)

Module StateTable.
Import Cube Queue.

Definition NUMBER_OF_CUBES : Z := 3674160.
Definition SIZE_OF_CUBE : Z := 5.

(** Integer conversions: to [unsigned char], to (signed) [char], and the
    wrap-around of a 32-bit [int]. *)
Definition to_uchar (x : Z) : Z := x mod 256.
Definition to_char (x : Z) : Z :=
  let u := x mod 256 in if u <? 128 then u else u - 256.
Definition to_int (x : Z) : Z :=
  let u := x mod 4294967296 in if u <? 2147483648 then u else u - 4294967296.

(** [calloc(NUMBER_OF_CUBES, SIZE_OF_CUBE)]. *)
Definition make_state_table : Z -> Z := fun _ => 0.

(** [fwrite(state_table, SIZE_OF_CUBE, NUMBER_OF_CUBES, file)]: the bytes
    that reach the file.  When [fopen] fails the function goes on to
    [fclose(NULL)]. *)
Definition write_state_table (file_opened : bool) (state_table : Z -> Z)
  : option (list Z) :=
  if file_opened
  then Some (map (fun i => state_table (Z.of_nat i))
                 (seq 0 (Z.to_nat (SIZE_OF_CUBE * NUMBER_OF_CUBES))))
  else None.

(** The four configuration bytes of record [i], assembled as an [int]. *)
Definition cube_at (state_table : Z -> Z) (i : Z) : Z :=
  let byte3 := state_table (i * 5) in
  let byte2 := state_table ((i * 5) + 1) in
  let byte1 := state_table ((i * 5) + 2) in
  let byte0 := state_table ((i * 5) + 3) in
  to_int (Z.lor (Z.lor (Z.lor (Z.shiftl byte3 24) (Z.shiftl byte2 16))
                       (Z.shiftl byte1 8)) byte0).

(** The [do ... while (max >= min)] loop of [get_turn].  The interval at
    least halves at every iteration; [fuel] bounds the number of iterations
    and [None] means it ran out. *)
Fixpoint get_turn_loop (fuel : nat) (state_table : Z -> Z) (cube min max : Z)
  : option Z :=
  match fuel with
  | O => None
  | S fuel' =>
    let middle := min + Z.quot (max - min) 2 in
    let this_cube := cube_at state_table middle in
    if this_cube <? cube then
      let min := middle + 1 in
      if max >=? min then get_turn_loop fuel' state_table cube min max
      else Some (-1)
    else if this_cube >? cube then
      let max := middle - 1 in
      if max >=? min then get_turn_loop fuel' state_table cube min max
      else Some (-1)
    else Some (to_char (state_table ((middle * 5) + 4)))
  end.

Definition get_turn (state_table : Z -> Z) (cube : Z) : option Z :=
  get_turn_loop 32 state_table cube 0 (NUMBER_OF_CUBES - 1).

(** What [solve_cube] returns: the 15-byte buffer or [NULL]. *)
Inductive solve_result : Type :=
| Sequence (turn_sequence : list Z)
| Null.

(** Assignment to [turn_sequence[count]]. *)
Fixpoint store_turn (turn_sequence : list Z) (count : nat) (turn : Z) : list Z :=
  match turn_sequence, count with
  | [], _ => []
  | _ :: rest, O => turn :: rest
  | t :: rest, S count' => t :: store_turn rest count' turn
  end.

(** The [switch] of [solve_cube]. *)
Definition perform_turn (this_turn cube : Z) : option Z :=
  if this_turn =? 0 then Some cube
  else if this_turn =? 1 then frontCC cube
  else if this_turn =? 2 then frontC cube
  else if this_turn =? 3 then leftCC cube
  else if this_turn =? 4 then leftC cube
  else if this_turn =? 5 then topCC cube
  else if this_turn =? 6 then topC cube
  else Some cube.

(** The [do ... while (this_turn != 0)] loop of [solve_cube].  [free] is the
    number of cells left in the buffer, [15 - count]: with none left the
    store to [turn_sequence[count]] is out of bounds. *)
Fixpoint solve_loop (free : nat) (state_table : Z -> Z) (cube : Z)
    (turn_sequence : list Z) (count : nat) : option solve_result :=
  match free with
  | O =>
    this_turn <- get_turn state_table cube ;;
    if this_turn =? -1 then Some Null else None
  | S free' =>
    this_turn <- get_turn state_table cube ;;
    if this_turn =? -1 then Some Null
    else
      let turn_sequence := store_turn turn_sequence count this_turn in
      cube <- perform_turn this_turn cube ;;
      if negb (this_turn =? 0)
      then solve_loop free' state_table cube turn_sequence (S count)
      else Some (Sequence turn_sequence)
  end.

Definition solve_cube (cube : Z) (state_table : Z -> Z) : option solve_result :=
  solve_loop 15 state_table cube (repeat 0 15) 0.

(** The turns held by a returned buffer, up to the terminator. *)
Fixpoint turns_of (turn_sequence : list Z) : list Z :=
  match turn_sequence with
  | [] => []
  | t :: rest => if t =? 0 then [] else t :: turns_of rest
  end.

(** The [for] loop of [find_index], entered with [n] iterations left at
    index [i].  Leaving the loop reaches the end of the function without a
    [return]. *)
Fixpoint find_index_loop (n : nat) (state_table : Z -> Z)
    (byte3 byte2 byte1 byte0 : Z) (i : Z) : option Z :=
  match n with
  | O => None
  | S n' =>
    let byte_index := i * 5 in
    if (state_table byte_index =? 0) &&
       (state_table (byte_index + 1) =? 0) &&
       (state_table (byte_index + 2) =? 0) &&
       (state_table (byte_index + 3) =? 0)
    then Some i
    else if state_table byte_index <? byte3
    then find_index_loop n' state_table byte3 byte2 byte1 byte0 (i + 1)
    else if state_table byte_index >? byte3 then Some i
    else if state_table (byte_index + 1) <? byte2
    then find_index_loop n' state_table byte3 byte2 byte1 byte0 (i + 1)
    else if state_table (byte_index + 1) >? byte2 then Some i
    else if state_table (byte_index + 2) <? byte1
    then find_index_loop n' state_table byte3 byte2 byte1 byte0 (i + 1)
    else if state_table (byte_index + 2) >? byte1 then Some i
    else if state_table (byte_index + 3) <? byte0
    then find_index_loop n' state_table byte3 byte2 byte1 byte0 (i + 1)
    else if state_table (byte_index + 3) >? byte0 then Some i
    else Some (-1)
  end.

Definition find_index (state_table : Z -> Z) (cube : Z) : option Z :=
  let byte0 := to_uchar cube in
  let byte1 := to_uchar (Z.shiftr cube 8) in
  let byte2 := to_uchar (Z.shiftr cube 16) in
  let byte3 := to_uchar (Z.shiftr cube 24) in
  find_index_loop (Z.to_nat NUMBER_OF_CUBES) state_table
                  byte3 byte2 byte1 byte0 0.

(** The inner loop of [shift_data_up]: record [i] is copied over record
    [i + 1], byte by byte. *)
Fixpoint shift_cell (j : nat) (state_table : Z -> Z) (this_index : Z)
  : Z -> Z :=
  match j with
  | O => state_table
  | S j' =>
    shift_cell j' (store state_table (this_index + 5) (state_table this_index))
               (this_index + 1)
  end.

(** The outer loop of [shift_data_up], with [n] iterations left at [i]. *)
Fixpoint shift_loop (n : nat) (state_table : Z -> Z) (i : Z) : Z -> Z :=
  match n with
  | O => state_table
  | S n' => shift_loop n' (shift_cell 5 state_table (i * 5)) (i - 1)
  end.

(** [for (i = NUMBER_OF_CUBES - 2; i >= index; i--)]. *)
Definition shift_data_up (state_table : Z -> Z) (index : Z) : Z -> Z :=
  shift_loop (Z.to_nat (NUMBER_OF_CUBES - 1 - index)) state_table
             (NUMBER_OF_CUBES - 2).

(** Returns the table and the result: [0] when the cube was already in the
    table, [1] when it was added. *)
Definition add_state (state_table : Z -> Z) (cube turn : Z)
  : option ((Z -> Z) * Z) :=
  cube_index <- find_index state_table cube ;;
  if cube_index =? -1 then Some (state_table, 0)
  else
    let state_table := shift_data_up state_table cube_index in
    let byte0 := to_uchar cube in
    let byte1 := to_uchar (Z.shiftr cube 8) in
    let byte2 := to_uchar (Z.shiftr cube 16) in
    let byte3 := to_uchar (Z.shiftr cube 24) in
    let insert_index := cube_index * 5 in
    let state_table := store state_table insert_index byte3 in
    let state_table := store state_table (insert_index + 1) byte2 in
    let state_table := store state_table (insert_index + 2) byte1 in
    let state_table := store state_table (insert_index + 3) byte0 in
    let state_table := store state_table (insert_index + 4) (to_uchar turn) in
    Some (state_table, 1).

(** The variables of [fill_state_table] that live across iterations. *)
Record fill_state : Type := mkFill {
  table : Z -> Z;
  queue : Queue;
  count : Z
}.

(** One [if (add_state(...)) { enqueue(...); count++; ... }] statement; the
    result of [enqueue] is dropped. *)
Definition discover (s : fill_state) (cube turn : Z) : option fill_state :=
  r <- add_state (table s) cube turn ;;
  if negb (snd r =? 0)
  then Some {| table := fst r;
               queue := fst (enqueue (queue s) cube);
               count := count s + 1 |}
  else Some {| table := fst r; queue := queue s; count := count s |}.

(** The body of the [while] loop. *)
Definition fill_body (s : fill_state) : option fill_state :=
  let (q, this_cube) := dequeue (queue s) in
  let s := {| table := table s; queue := q; count := count s |} in
  front_C <- frontC this_cube ;;
  front_CC <- frontCC this_cube ;;
  left_C <- leftC this_cube ;;
  left_CC <- leftCC this_cube ;;
  top_C <- topC this_cube ;;
  top_CC <- topCC this_cube ;;
  s <- discover s front_C 1 ;;
  s <- discover s front_CC 2 ;;
  s <- discover s left_C 3 ;;
  s <- discover s left_CC 4 ;;
  s <- discover s top_C 5 ;;
  discover s top_CC 6.

(** The loop test, [peek(queue) != 0]; [peek] may reset [cells_used]. *)
Definition fill_guard (s : fill_state) : fill_state * bool :=
  let (q, p) := peek (queue s) in
  ({| table := table s; queue := q; count := count s |}, negb (p =? 0)).

(** Where the loop stands: still running, or left through its test. *)
Inductive fill_run : Type :=
| Running (s : fill_state)
| Exited (s : fill_state).

(** The state on entry to the loop. *)
Definition fill_init (state_table : Z -> Z) : fill_state :=
  {| table := state_table;
     queue := fst (enqueue (createQueue NUMBER_OF_CUBES) SOLVED_CUBE);
     count := 0 |}.

(** One evaluation of the test followed, if it holds, by the body. *)
Definition fill_step (s : fill_state) : option fill_run :=
  let (s, go) := fill_guard s in
  if go then s <- fill_body s ;; Some (Running s) else Some (Exited s).

(** [fill_state_table] cut off after [n] iterations. *)
Fixpoint fill_iter (n : nat) (s : fill_state) : option fill_run :=
  match n with
  | O => Some (Running s)
  | S n' =>
    r <- fill_iter n' s ;;
    match r with
    | Running s' => fill_step s'
    | Exited s' => Some (Exited s')
    end
  end.

Definition fill_state_table (n : nat) (state_table : Z -> Z) : option fill_run :=
  fill_iter n (fill_init state_table).

(** [fread(state_table, SIZE_OF_CUBE, NUMBER_OF_CUBES, file)]: the bytes of
    the file, as far as they go, are copied over the first
    [SIZE_OF_CUBE * NUMBER_OF_CUBES] bytes of the table.  [file] is [None]
    when [fopen] fails; the function then goes on to [fclose(NULL)]. *)
Definition read_state_table (file : option (list Z)) (state_table : Z -> Z)
  : option (Z -> Z) :=
  match file with
  | Some bytes =>
    Some (fun b =>
            if (0 <=? b) && (b <? SIZE_OF_CUBE * NUMBER_OF_CUBES)
            then match nth_error bytes (Z.to_nat b) with
                 | Some v => v
                 | None => state_table b
                 end
            else state_table b)
  | None => None
  end.

Definition get_last_element (state_table : Z -> Z) : Z :=
  let byte3 := state_table ((NUMBER_OF_CUBES - 1) * SIZE_OF_CUBE) in
  let byte2 := state_table ((NUMBER_OF_CUBES - 1) * SIZE_OF_CUBE + 1) in
  let byte1 := state_table ((NUMBER_OF_CUBES - 1) * SIZE_OF_CUBE + 2) in
  let byte0 := state_table ((NUMBER_OF_CUBES - 1) * SIZE_OF_CUBE + 3) in
  let last_element :=
    to_int (Z.lor (Z.lor (Z.lor (Z.shiftl byte3 24) (Z.shiftl byte2 16))
                         (Z.shiftl byte1 8)) byte0) in
  last_element.

(** The loop of [test_state_table], with [n] records left from record [i]:
    the configurations reported as INVALID, in the order they are printed. *)
Fixpoint test_loop (n : nat) (state_table : Z -> Z) (i : Z)
  : option (list Z) :=
  match n with
  | O => Some []
  | S n' =>
    let this_cube := cube_at state_table i in
    r <- solve_cube this_cube state_table ;;
    rest <- test_loop n' state_table (i + 1) ;;
    Some (match r with
          | Null => this_cube :: rest
          | Sequence _ => rest
          end)
  end.

Definition test_state_table (file : option (list Z)) : option (list Z) :=
  let state_table := make_state_table in
  state_table <- read_state_table file state_table ;;
  test_loop (Z.to_nat NUMBER_OF_CUBES) state_table 0.

End StateTable.

(* ===================================================================== *)
(** ** cube.c, the Cube struct *)
(* ===================================================================== *)

Module CubeStruct.
Import Cube.

(** The colours of each piece. *)
Definition zero : list Z := [chr "o"; chr "w"; chr "g"].
Definition one : list Z := [chr "r"; chr "w"; chr "g"].
Definition two : list Z := [chr "o"; chr "w"; chr "b"].
Definition three : list Z := [chr "r"; chr "w"; chr "b"].
Definition four : list Z := [chr "o"; chr "y"; chr "g"].
Definition five : list Z := [chr "r"; chr "y"; chr "g"].
Definition six : list Z := [chr "o"; chr "y"; chr "b"].

(** The maps between orientation and three-colour sequence: 21 rows,
    indexed by piece state, of three indices into the colours of a piece.
    Table for pieces 0, 3, 5 and 6: *)
Definition state_table0356 : list (list Z) :=
  [ [0;1;2]; [2;0;1]; [1;2;0];
    [0;2;1]; [2;1;0]; [1;0;2];
    [1;0;2]; [0;2;1]; [2;1;0];
    [0;1;2]; [2;0;1]; [1;2;0];
    [2;1;0]; [1;0;2]; [0;2;1];
    [0;1;2]; [2;0;1]; [1;2;0];
    [0;1;2]; [2;0;1]; [1;2;0] ].

(** Table for pieces 1, 2, 4 and '7': *)
Definition state_table1247 : list (list Z) :=
  [ [1;0;2]; [2;1;0]; [0;2;1];
    [1;2;0]; [2;0;1]; [0;1;2];
    [0;1;2]; [1;2;0]; [2;0;1];
    [1;0;2]; [2;1;0]; [0;2;1];
    [2;1;0]; [0;1;2]; [1;0;2];
    [1;0;2]; [2;1;0]; [0;2;1];
    [2;1;0]; [1;0;2]; [0;2;1] ].

(** A row of one of the two tables; a state outside the 21 rows is an
    out-of-bounds read. *)
Definition state_table_row (tbl : list (list Z)) (state : Z)
  : option (list Z) :=
  if (0 <=? state) && (state <? 21)
  then nth_error tbl (Z.to_nat state)
  else None.

(** [struct Cube]: the array [cube[6][8]], the cell [cube[i][j]] at offset
    [i * 8 + j]. *)
Definition Cube : Type := Z -> Z.

Definition cell (i j : Z) : Z := i * 8 + j.

(** Inserts a piece into a cube data structure. *)
Definition insert (cube_S : Cube) (piece_colors : list Z) (piece state : Z)
  : option Cube :=
  let tbl :=
    if (piece =? 0) || (piece =? 3) || (piece =? 5) || (piece =? 6)
    then state_table0356 else state_table1247 in
  row <- state_table_row tbl state ;;
  colorTB <- nth_error row 0 ;;
  colorFB <- nth_error row 1 ;;
  colorRL <- nth_error row 2 ;;
  (* retrieve the character at the specific index *)
  colorTB <- nth_error piece_colors (Z.to_nat colorTB) ;;
  colorFB <- nth_error piece_colors (Z.to_nat colorFB) ;;
  colorRL <- nth_error piece_colors (Z.to_nat colorRL) ;;
  let pos := Z.quot state 3 in
  let put (tb fb rl : Z) : Cube :=
    store (store (store cube_S tb colorTB) fb colorFB) rl colorRL in
  Some (if pos =? 6 then put (cell 0 3) (cell 2 6) (cell 2 5)  (* top_back_right *)
        else if pos =? 5 then put (cell 5 2) (cell 3 7) (cell 3 0) (* bottom_back_left *)
        else if pos =? 4 then put (cell 0 2) (cell 2 7) (cell 2 0) (* top_back_left *)
        else if pos =? 3 then put (cell 4 3) (cell 3 3) (cell 3 4) (* bottom_front_right *)
        else if pos =? 2 then put (cell 1 3) (cell 2 3) (cell 2 4) (* top_front_right *)
        else if pos =? 1 then put (cell 4 2) (cell 3 2) (cell 3 1) (* bottom_front_left *)
        else if pos =? 0 then put (cell 1 2) (cell 2 2) (cell 2 1) (* top_front_left *)
        else cube_S).

(** Every cell is initialised to ['-']; then the stationary piece is
    added. *)
Definition make_cube : Cube :=
  let cube : Cube := fun _ => chr "-" in
  let cube := store cube (cell 5 3) (chr "r") in
  let cube := store cube (cell 3 5) (chr "b") in
  let cube := store cube (cell 3 6) (chr "y") in
  cube.

Definition decompress (cube : Z) : option Cube :=
  (* determine the states of each piece *)
  let state6 := Z.quot cube c21_6 in
  let cube := Z.rem cube c21_6 in
  let state5 := Z.quot cube c21_5 in
  let cube := Z.rem cube c21_5 in
  let state4 := Z.quot cube c21_4 in
  let cube := Z.rem cube c21_4 in
  let state3 := Z.quot cube c21_3 in
  let cube := Z.rem cube c21_3 in
  let state2 := Z.quot cube c21_2 in
  let cube := Z.rem cube c21_2 in
  let state1 := Z.quot cube c21_1 in
  let state0 := Z.rem cube c21_1 in
  let my_cube := make_cube in
  (* place the pieces in the cube struct *)
  my_cube <- insert my_cube six 6 state6 ;;
  my_cube <- insert my_cube five 5 state5 ;;
  my_cube <- insert my_cube four 4 state4 ;;
  my_cube <- insert my_cube three 3 state3 ;;
  my_cube <- insert my_cube two 2 state2 ;;
  my_cube <- insert my_cube one 1 state1 ;;
  my_cube <- insert my_cube zero 0 state0 ;;
  Some my_cube.

End CubeStruct.

(* ===================================================================== *)
(** ** solver.c *)
(* ===================================================================== *)

Module Solver.
Import Cube CubeStruct StateTable.

Definition BUFF_SIZE : Z := 24.

(** Is a character in a character array of length 3? *)
Definition contains (character : Z) (piece : list Z) : Z :=
  if nth 0 piece 0 =? character then 1
  else if nth 1 piece 0 =? character then 1
  else if nth 2 piece 0 =? character then 1
  else 0.

(** Which piece it is, based on the colours; -1 if the piece is invalid. *)
Definition which_piece (piece : list Z) : Z :=
  let has (character : Z) : bool := negb (contains character piece =? 0) in
  if has (chr "o") && has (chr "w") && has (chr "g") then 0
  else if has (chr "r") && has (chr "w") && has (chr "g") then 1
  else if has (chr "o") && has (chr "w") && has (chr "b") then 2
  else if has (chr "r") && has (chr "w") && has (chr "b") then 3
  else if has (chr "o") && has (chr "y") && has (chr "g") then 4
  else if has (chr "r") && has (chr "y") && has (chr "g") then 5
  else if has (chr "o") && has (chr "y") && has (chr "b") then 6
  else -1.

(** Are two pieces the same?  A cell of [piece1] that was never assigned is
    [None]; reading it is not defined. *)
Definition compare_pieces (piece1 : list (option Z)) (piece2 : list Z)
  : option Z :=
  a <- nth 0 piece1 None ;;
  if negb (a =? nth 0 piece2 0) then Some 0
  else
    a <- nth 1 piece1 None ;;
    if negb (a =? nth 1 piece2 0) then Some 0
    else
      a <- nth 2 piece1 None ;;
      if negb (a =? nth 2 piece2 0) then Some 0
      else Some 1.

(** The [switch] that fills [number_orientation]: a character that is no
    colour leaves the cell as it was, not initialised. *)
Definition number_of (color : Z) : option Z :=
  if (color =? chr "r") || (color =? chr "o") then Some 0
  else if (color =? chr "y") || (color =? chr "w") then Some 1
  else if (color =? chr "g") || (color =? chr "b") then Some 2
  else None.

(** The state of a piece (position and orientation); -1 if the piece is not
    in a valid state. *)
Definition get_piece_state (piece pos : Z) (piece_orientation : list Z)
  : option Z :=
  let number_orientation :=
    [number_of (nth 0 piece_orientation 0);
     number_of (nth 1 piece_orientation 0);
     number_of (nth 2 piece_orientation 0)] in
  let offset := pos * 3 in
  let tbl :=
    if (piece =? 0) || (piece =? 3) || (piece =? 5) || (piece =? 6)
    then state_table0356 else state_table1247 in
  row <- state_table_row tbl offset ;;
  same <- compare_pieces number_orientation row ;;
  if negb (same =? 0) then Some offset
  else
    row <- state_table_row tbl (offset + 1) ;;
    same <- compare_pieces number_orientation row ;;
    if negb (same =? 0) then Some (offset + 1)
    else
      row <- state_table_row tbl (offset + 2) ;;
      same <- compare_pieces number_orientation row ;;
      if negb (same =? 0) then Some (offset + 2)
      else Some (-1).

(** The first loop of [compress]: it returns -1 at an invalid piece, or
    runs to its end and leaves [piece_to_pos_map], whose cells are [None]
    until they are assigned. *)
Inductive pieces_scan : Type :=
| Returned (r : Z)
| Mapped (piece_to_pos_map : Z -> option Z).

Fixpoint scan_pieces (positions : list (list Z)) (i : Z)
    (piece_to_pos_map : Z -> option Z) : pieces_scan :=
  match positions with
  | [] => Mapped piece_to_pos_map
  | position :: rest =>
    let piece := which_piece position in
    if piece =? -1 then Returned (-1)
    else scan_pieces rest (i + 1)
           (fun p => if p =? piece then Some i else piece_to_pos_map p)
  end.

(** The integer interpretation of the cube in [buffer]; -1 if the cube is
    not valid; -2 if it appears valid but does not exist in the table. *)
Definition compress (state_table : Z -> Z) (buffer : Z -> Z) : option Z :=
  let positions :=
    [ [buffer 2; buffer 8; buffer 5];      (* Pos0 *)
      [buffer 20; buffer 10; buffer 7];    (* Pos1 *)
      [buffer 3; buffer 9; buffer 12];     (* Pos2 *)
      [buffer 21; buffer 11; buffer 14];   (* Pos3 *)
      [buffer 0; buffer 17; buffer 4];     (* Pos4 *)
      [buffer 22; buffer 19; buffer 6];    (* Pos5 *)
      [buffer 1; buffer 16; buffer 13] ]   (* Pos6 *) in
  (* determine which piece is in which position *)
  match scan_pieces positions 0 (fun _ => None) with
  | Returned r => Some r
  | Mapped piece_to_pos_map =>
    (* determine orientation of each cube *)
    let state (piece : Z) : option Z :=
      pos <- piece_to_pos_map piece ;;
      position <- nth_error positions (Z.to_nat pos) ;;
      get_piece_state piece pos position in
    state0 <- state 0 ;;
    state1 <- state 1 ;;
    state2 <- state 2 ;;
    state3 <- state 3 ;;
    state4 <- state 4 ;;
    state5 <- state 5 ;;
    state6 <- state 6 ;;
    (* check for invalid states *)
    if existsb (Z.eqb (-1))
         [state0; state1; state2; state3; state4; state5; state6]
    then Some (-1)
    else
      let cube := state0 + (c21_1 * state1) + (c21_2 * state2) +
                  (c21_3 * state3) + (c21_4 * state4) + (c21_5 * state5) +
                  (c21_6 * state6) in
      (* make sure that it is in the table *)
      this_turn <- get_turn state_table cube ;;
      if this_turn =? -1 then Some (-2) else Some cube
  end.

(** [while (getchar() != '\n') {}] on the rest of the input: what is left
    after the end of the line, or [None] when the input ends before a line
    does and the loop goes on for ever. *)
Fixpoint empty_input (input : list Z) : option (list Z) :=
  match input with
  | [] => None
  | c :: rest => if c =? chr "010" then Some rest else empty_input rest
  end.

(** How a call of [fill_buffer] ends: it returns, with the buffer and the
    input that is left; it goes on reading for ever; or [compress] is not
    defined. *)
Inductive fill_outcome : Type :=
| Returns (result : Z) (buffer : Z -> Z) (input : list Z)
| Reads_forever
| Not_defined.

(** [buffer[0 .. BUFF_SIZE - 1]]. *)
Definition buffer_cells (buffer : Z -> Z) : list Z :=
  map (fun i => buffer (Z.of_nat i)) (seq 0 (Z.to_nat BUFF_SIZE)).

(** The colour counters after the counting loop. *)
Definition count_color (color : ascii) (buffer : Z -> Z) : Z :=
  Z.of_nat (length (filter (Z.eqb (chr color)) (buffer_cells buffer))).

(** [fill_buffer] from the end of the reading loop on: the colours are
    counted, the orientation and the state are checked. *)
Definition check_buffer (state_table : Z -> Z) (buffer : Z -> Z)
    (input : list Z) : fill_outcome :=
  let color_count :=
    [count_color "o" buffer; count_color "r" buffer; count_color "y" buffer;
     count_color "w" buffer; count_color "g" buffer; count_color "b" buffer] in
  (* check color count *)
  if existsb (fun n => negb (n =? 4)) color_count
  then Returns 1 buffer input
  (* check proper orientation (red-yellow-blue in bottom-back-right) *)
  else if negb (buffer 15 =? chr "b") || negb (buffer 18 =? chr "y") ||
          negb (buffer 23 =? chr "r")
  then Returns 1 buffer input
  else
    (* the cube has all the valid colors, check if it is a real state *)
    match compress state_table buffer with
    | None => Not_defined
    | Some cube =>
      if cube =? -1 then Returns 1 buffer input
      else Returns 0 buffer input
    end.

(** The [do ... while (next_char != '\n')] loop of [fill_buffer], entered
    with [next_char] read and [input] left to read; at the end of the input
    [getchar] returns [EOF], -1. *)
Fixpoint fill_loop (state_table : Z -> Z) (input : list Z)
    (buffer : Z -> Z) (next_char : Z) (count : Z) : fill_outcome :=
  let this_char := next_char in
  let go_on (buffer : Z -> Z) (count : Z) : fill_outcome :=
    (* get next character *)
    match input with
    | [] =>
      (* EOF is read again and again: it is no colour *)
      Reads_forever
    | c :: rest =>
      let next_char := to_char c in
      if (next_char =? chr "010") && (count <? BUFF_SIZE)
      then Returns 1 buffer rest  (* they entered too few colors *)
      else if negb (next_char =? chr "010")
      then fill_loop state_table rest buffer next_char count
      else check_buffer state_table buffer rest
    end in
  let reject : fill_outcome :=
    (* empty input buffer *)
    match empty_input input with
    | Some rest => Returns 1 buffer rest
    | None => Reads_forever
    end in
  if count <? BUFF_SIZE then  (* protect from buffer overflow *)
    if this_char =? chr " " then go_on buffer count
    else if (this_char =? chr "o") || (this_char =? chr "r") ||
            (this_char =? chr "w") || (this_char =? chr "y") ||
            (this_char =? chr "g") || (this_char =? chr "b")
    then go_on (store buffer count this_char) (count + 1)
    else reject
  else reject.

Definition fill_buffer (state_table : Z -> Z) (input : list Z)
    (buffer : Z -> Z) : fill_outcome :=
  match input with
  | [] => Reads_forever
  | c :: rest => fill_loop state_table rest buffer (to_char c) 0
  end.




End Solver.

(* ===================================================================== *)
(** ** Definitions used to state and prove the properties *)
(* ===================================================================== *)

Import Cube Queue StateTable CubeStruct Solver.

(** The integers [0 .. n-1]. *)
Definition zrange (n : nat) : list Z := map Z.of_nat (seq 0 n).

(** The state of piece [i] in a configuration. *)
Definition digit (cube i : Z) : Z := (cube / 21 ^ i) mod 21.

(** Every row of [turn_table] stays inside [0, 21) and is undone by the row
    of the partner turn. *)
Definition row_inverse_check : bool :=
  forallb (fun turn =>
    forallb (fun s =>
      match turn_table_get turn s with
      | Some s' =>
        (0 <=? s') && (s' <? 21) &&
        match turn_table_get (inverse_turn turn) s' with
        | Some s'' => s'' =? s
        | None => false
        end
      | None => false
      end) (zrange 21)) (zrange 6).

(** The circular buffer seen as a FIFO: the entries from [head] on, oldest
    first. *)
Definition contents (q : Queue) : list Z :=
  map (fun k => base q ((head q + k) mod max_cells q))
      (zrange (Z.to_nat (cells_used q))).

Definition queue_wf (q : Queue) : Prop :=
  0 < max_cells q /\ 0 <= head q < max_cells q /\
  0 <= cells_used q <= max_cells q /\
  tail q = (head q + cells_used q) mod max_cells q.

(** Tables as the code keeps them: every cell an [unsigned char]. *)
Definition uchar_table (t : Z -> Z) : Prop := forall b, 0 <= t b < 256.

(** The four configuration bytes of record [i] read as an unsigned number,
    and the fifth byte of the record. *)
Definition slot_value (t : Z -> Z) (i : Z) : Z :=
  t (i * 5) * 16777216 + t (i * 5 + 1) * 65536 + t (i * 5 + 2) * 256 +
  t (i * 5 + 3).

Definition turn_at (t : Z -> Z) (i : Z) : Z := t (i * 5 + 4).

(** A record of the table: a configuration and the turn stored with it. *)
Abbreviation record := (Z * Z)%type (only parsing).

Definition cubes (l : list record) : list Z := map fst l.

(** Record [i] of the table holds [r], configuration first, high byte
    first. *)
Definition slot_is (t : Z -> Z) (i : Z) (r : record) : Prop :=
  t (i * 5) = to_uchar (Z.shiftr (fst r) 24) /\
  t (i * 5 + 1) = to_uchar (Z.shiftr (fst r) 16) /\
  t (i * 5 + 2) = to_uchar (Z.shiftr (fst r) 8) /\
  t (i * 5 + 3) = to_uchar (fst r) /\
  t (i * 5 + 4) = snd r.

(** Record [i] is as [calloc] left it. *)
Definition slot_empty (t : Z -> Z) (i : Z) : Prop :=
  t (i * 5) = 0 /\ t (i * 5 + 1) = 0 /\ t (i * 5 + 2) = 0 /\
  t (i * 5 + 3) = 0 /\ t (i * 5 + 4) = 0.

(** The table holds the records [l], in this order, from its first record
    on, and nothing else. *)
Definition represents (t : Z -> Z) (l : list record) : Prop :=
  Z.of_nat (length l) <= NUMBER_OF_CUBES /\
  (forall k r, nth_error l k = Some r -> slot_is t (Z.of_nat k) r) /\
  (forall i, Z.of_nat (length l) <= i < NUMBER_OF_CUBES -> slot_empty t i).

(** A configuration that fits a positive [int], with a turn that fits a
    byte. *)
Definition record_ok (r : record) : Prop :=
  0 < fst r < 2147483648 /\ 0 <= snd r < 256.

(** Records in strictly ascending order of configuration. *)
Definition ascending (l : list record) : Prop :=
  StronglySorted Z.lt (cubes l).

(** The number of leading records below [cube]. *)
Fixpoint insert_position (cube : Z) (l : list record) : nat :=
  match l with
  | [] => O
  | r :: rest => if fst r <? cube then S (insert_position cube rest) else O
  end.

(** Insertion before the first record that is not below the new one. *)
Fixpoint insert_record (r : record) (l : list record) : list record :=
  match l with
  | [] => [r]
  | r' :: rest =>
    if fst r' <? fst r then r' :: insert_record r rest else r :: r' :: rest
  end.

(** What the scan of [find_index] yields on stored records [l], started at
    record [i]; [room] tells whether a record is left after them. *)
Fixpoint find_index_spec (l : list record) (cube i : Z) (room : bool)
  : option Z :=
  match l with
  | [] => if room then Some i else None
  | r :: rest =>
    if fst r <? cube then find_index_spec rest cube (i + 1) room
    else if cube <? fst r then Some i
    else Some (-1)
  end.

(** The table [add_state] leaves when it inserts at record [index]: the
    records from [index] on moved up by one, the new record written. *)
Definition write_record (t : Z -> Z) (index cube turn : Z) : Z -> Z :=
  let t := shift_data_up t index in
  let t := store t (index * 5) (to_uchar (Z.shiftr cube 24)) in
  let t := store t (index * 5 + 1) (to_uchar (Z.shiftr cube 16)) in
  let t := store t (index * 5 + 2) (to_uchar (Z.shiftr cube 8)) in
  let t := store t (index * 5 + 3) (to_uchar cube) in
  store t (index * 5 + 4) (to_uchar turn).

(** *** Configurations of the puzzle

    The position of piece [i] is [digit cube i / 3], its orientation
    [digit cube i mod 3].  In a configuration of the puzzle the seven pieces
    sit in different positions and the orientations add up to a multiple of
    three. *)
Definition positions (cube : Z) : list Z :=
  [digit cube 0 / 3; digit cube 1 / 3; digit cube 2 / 3; digit cube 3 / 3;
   digit cube 4 / 3; digit cube 5 / 3; digit cube 6 / 3].

Fixpoint distinctb (l : list Z) : bool :=
  match l with
  | [] => true
  | x :: rest => negb (existsb (Z.eqb x) rest) && distinctb rest
  end.

Definition twist (cube : Z) : Z :=
  (digit cube 0 + digit cube 1 + digit cube 2 + digit cube 3 +
   digit cube 4 + digit cube 5 + digit cube 6) mod 3.

Definition valid (cube : Z) : Prop :=
  in_space cube /\ distinctb (positions cube) = true /\ twist cube = 0.

(** What a turn does to a position, and by how much it twists the piece
    there. *)
Definition turn_position (turn p : Z) : Z :=
  match turn_table_get turn (3 * p) with Some s => s / 3 | None => 0 end.

Definition turn_twist (turn p : Z) : Z :=
  match turn_table_get turn (3 * p) with Some s => s - 3 * p | None => 0 end.

(** Every entry of [turn_table] moves its piece as [turn_position] says and
    twists it as [turn_twist] says. *)
Definition turn_shape_check : bool :=
  forallb (fun turn =>
    forallb (fun s =>
      match turn_table_get turn s with
      | Some s' =>
        (s' / 3 =? turn_position turn (s / 3)) &&
        ((s' - s - turn_twist turn (s / 3)) mod 3 =? 0)
      | None => false
      end) (zrange 21)) (zrange 6).

(** A test on all seven-tuples of positions. *)
Definition forall_positions (f : Z -> Z -> Z -> Z -> Z -> Z -> Z -> bool)
  : bool :=
  forallb (fun p0 => forallb (fun p1 => forallb (fun p2 => forallb (fun p3 =>
  forallb (fun p4 => forallb (fun p5 => forallb (fun p6 =>
    f p0 p1 p2 p3 p4 p5 p6)
  (zrange 7)) (zrange 7)) (zrange 7)) (zrange 7)) (zrange 7)) (zrange 7))
  (zrange 7).

(** On seven different positions a turn yields seven different positions and
    twists that cancel out. *)
Definition turn_tuple_ok (p0 p1 p2 p3 p4 p5 p6 : Z) : bool :=
  if distinctb [p0; p1; p2; p3; p4; p5; p6]
  then forallb (fun turn =>
         distinctb [turn_position turn p0; turn_position turn p1;
                    turn_position turn p2; turn_position turn p3;
                    turn_position turn p4; turn_position turn p5;
                    turn_position turn p6] &&
         ((turn_twist turn p0 + turn_twist turn p1 + turn_twist turn p2 +
           turn_twist turn p3 + turn_twist turn p4 + turn_twist turn p5 +
           turn_twist turn p6) mod 3 =? 0)) (zrange 6)
  else true.

(** *** Counting the configurations of the puzzle *)

(** All lists of [n] positions. *)
Fixpoint tuples (n : nat) : list (list Z) :=
  match n with
  | O => [[]]
  | S n' => flat_map (fun p => map (cons p) (tuples n')) (zrange 7)
  end.

(** The ways of placing the seven pieces. *)
Definition arrangements : list (list Z) := filter distinctb (tuples 7).

Fixpoint index_of (x : list Z) (l : list (list Z)) : nat :=
  match l with
  | [] => O
  | y :: rest => if list_eq_dec Z.eq_dec x y then O else S (index_of x rest)
  end.

(** The orientations of the first six pieces, in base three. *)
Definition orientation_code (cube : Z) : Z :=
  digit cube 0 mod 3 + (digit cube 1 mod 3) * 3 + (digit cube 2 mod 3) * 9 +
  (digit cube 3 mod 3) * 27 + (digit cube 4 mod 3) * 81 +
  (digit cube 5 mod 3) * 243.

(** A number below [NUMBER_OF_CUBES] for each configuration of the puzzle. *)
Definition rank (cube : Z) : Z :=
  Z.of_nat (index_of (positions cube) arrangements) * 729 +
  orientation_code cube.

(** *** The build seen on records and a FIFO

    [fill_state_table] read on the records of the table, in ascending order,
    and on the contents of the queue, oldest first. *)

(** One [if (add_state ...) { enqueue ... }]: a configuration met for the
    first time is recorded with the turn that led to it and joins the
    frontier. *)
Definition record_cube (st : list record * list Z) (ct : Z * Z)
  : list record * list Z :=
  if existsb (Z.eqb (fst ct)) (cubes (fst st)) then st
  else (insert_record ct (fst st), snd st ++ [fst ct]).

(** The six configurations next to [this_cube], each with the code stored
    for it. *)
Definition neighbours (this_cube : Z) : option (list (Z * Z)) :=
  front_C <- frontC this_cube ;;
  front_CC <- frontCC this_cube ;;
  left_C <- leftC this_cube ;;
  left_CC <- leftCC this_cube ;;
  top_C <- topC this_cube ;;
  top_CC <- topCC this_cube ;;
  Some [(front_C, 1); (front_CC, 2); (left_C, 3); (left_CC, 4);
        (top_C, 5); (top_CC, 6)].

(** One iteration of the loop; with nothing in the queue the iteration is
    not defined. *)
Definition build_step (st : list record * list Z)
  : option (list record * list Z) :=
  match snd st with
  | [] => None
  | this_cube :: rest =>
    cts <- neighbours this_cube ;;
    Some (fold_left record_cube cts (fst st, rest))
  end.

Fixpoint build (n : nat) : option (list record * list Z) :=
  match n with
  | O => Some ([], [SOLVED_CUBE])
  | S n' => st <- build n' ;; build_step st
  end.

(** A loop state stands for records [l] and a frontier [q]. *)
Definition refines (s : fill_state) (l : list record) (q : list Z) : Prop :=
  uchar_table (table s) /\ represents (table s) l /\
  queue_wf (queue s) /\ max_cells (queue s) = NUMBER_OF_CUBES /\
  contents (queue s) = q /\ count s = Z.of_nat (length l).

(** The six statements after the turns of the loop body. *)
Fixpoint discover_all (s : fill_state) (cts : list (Z * Z))
  : option fill_state :=
  match cts with
  | [] => Some s
  | ct :: rest => s' <- discover s (fst ct) (snd ct) ;; discover_all s' rest
  end.

(** A record of the build: a reachable configuration with one of the six
    codes. *)
Definition entry_ok (r : record) : Prop :=
  reachable (fst r) /\ 1 <= snd r <= 6.

(** What holds of the records and the frontier inside an iteration. *)
Definition frontier_ok (st : list record * list Z) : Prop :=
  ascending (fst st) /\
  Forall entry_ok (fst st) /\
  NoDup (snd st) /\
  (forall x, In x (snd st) -> In x (cubes (fst st))).

(** What holds between iterations. *)
Definition build_inv (st : list record * list Z) : Prop :=
  ascending (fst st) /\
  Forall entry_ok (fst st) /\
  NoDup (snd st) /\
  ((fst st = [] /\ snd st = [SOLVED_CUBE]) \/
   ((forall x, In x (snd st) -> In x (cubes (fst st))) /\
    (forall turn c, 0 <= turn < 6 -> rotate SOLVED_CUBE turn = Some c ->
                    In c (cubes (fst st))))) /\
  (forall c, In c (cubes (fst st)) -> ~ In c (snd st) ->
     forall turn c', 0 <= turn < 6 -> rotate c turn = Some c' ->
                     In c' (cubes (fst st))).

(** *** Particular tables *)

(** The table with the single record [(SOLVED_CUBE, 1)], written as
    [add_state] writes it. *)
Definition single_record_table : Z -> Z :=
  store (store (store (store (store make_state_table 0 95) 1 211) 2 9) 3 126)
        4 1.

(** A table filled to the last record: record [i] holds the configuration
    value [i + 1] and the turn 1. *)
Definition ascending_table : Z -> Z :=
  fun b =>
    let i := b / 5 in
    let j := b mod 5 in
    if j =? 0 then to_uchar (Z.shiftr (i + 1) 24)
    else if j =? 1 then to_uchar (Z.shiftr (i + 1) 16)
    else if j =? 2 then to_uchar (Z.shiftr (i + 1) 8)
    else if j =? 3 then to_uchar (i + 1)
    else 1.

(** A table in which [get_turn] finds two configurations: the solved cube
    after a clockwise front turn, 1607621429, in the record 1837079 that is
    probed first, with the code 1, and the solved cube in the record 2755619
    that is probed next for it, with the code 0. *)
Definition one_turn_table : Z -> Z :=
  let t := make_state_table in
  let t := store (store (store (store (store t 9185395 95) 9185396 210)
                               9185397 91) 9185398 53) 9185399 1 in
  store (store (store (store (store t 13778095 95) 13778096 211)
                      13778097 9) 13778098 126) 13778099 0.

(** *** The lookups of [solve_cube]

    [lookups state_table cube turns] is the configuration at which
    [solve_cube], started on [cube], stands after looking up the codes
    [turns] one after the other, none of them 0 or -1, and performing each. *)
Fixpoint lookups (state_table : Z -> Z) (cube : Z) (turns : list Z)
  : option Z :=
  match turns with
  | [] => Some cube
  | turn :: rest =>
    this_turn <- get_turn state_table cube ;;
    if (this_turn =? turn) && negb (turn =? 0) && negb (turn =? -1)
    then cube <- perform_turn turn cube ;; lookups state_table cube rest
    else None
  end.

(** *** The loop of [fill_state_table] with the result of [enqueue] tested

    The specification asks that every result of [enqueue] be tested and
    that the construction be aborted when one reports overflow.
    [checked_discover] is the statement of the loop body with that test;
    the statement of [fill_state_table] is [discover], which drops the
    result.  The rest of the loop is the same. *)
Inductive checked (A : Type) : Type :=
| Continues (a : A)
| Aborts.

Arguments Continues {A} a.
Arguments Aborts {A}.


Definition checked_discover (s : fill_state) (cube turn : Z)
  : option (checked fill_state) :=
  r <- add_state (table s) cube turn ;;
  if negb (snd r =? 0)
  then
    if snd (enqueue (queue s) cube) =? -1
    then Some Aborts  (* queue overflow *)
    else Some (Continues {| table := fst r;
                            queue := fst (enqueue (queue s) cube);
                            count := count s + 1 |})
  else Some (Continues {| table := fst r; queue := queue s;
                          count := count s |}).






(** *** Every configuration of the puzzle can be solved

    The pieces are put in place one after the other, piece 0 first. *)

(** A sequence of turns applied to a configuration, and to the state of one
    piece. *)
Fixpoint apply_turns (turns : list Z) (cube : Z) : option Z :=
  match turns with
  | [] => Some cube
  | turn :: rest => c <- rotate cube turn ;; apply_turns rest c
  end.

Definition turns_ok (turns : list Z) : Prop :=
  Forall (fun turn => 0 <= turn < 6) turns.

Fixpoint turn_states (turns : list Z) (s : Z) : option Z :=
  match turns with
  | [] => Some s
  | turn :: rest => s' <- turn_table_get turn s ;; turn_states rest s'
  end.

(** The state of piece [i] in the solved cube. *)
Definition solved_state (i : Z) : Z := digit SOLVED_CUBE i.

(** [nth b (nth k placing_turns)]: turns that take piece [k] from state [b]
    to its solved state and leave the pieces before it solved. *)
Definition placing_turns : list (list (list Z)) :=
  [
    [[]; [4; 0]; [3; 1]; [2; 4; 0]; [1]; [2]; [0; 4; 0]; [5]; [0]; [0; 0];
     [1; 2]; [0; 5]; [4; 4; 0]; [3]; [4]; [2; 2]; [3; 4]; [2; 1]; [4; 4];
     [5; 0]; [4; 3]];
    [[]; []; []; [5; 0; 4; 1; 2; 0]; [1; 2; 2; 5; 0; 2]; []; [2; 1; 4; 3; 1];
     [2; 1; 3; 1; 2; 0]; [2; 0; 3]; [2; 0; 0; 3]; [5; 1; 4]; [1; 2; 0];
     [0; 0; 3; 4; 0; 0]; [1; 2; 5; 0; 2]; [1; 3; 0]; [4; 2; 5]; [1; 2; 2; 0];
     [2; 1; 3]; [3; 1; 4; 3; 0]; [3; 4; 1; 4; 0]; [5; 0; 0; 4]];
    [[]; []; []; []; []; []; []; [0; 4; 4; 2; 1; 5]; [4; 0; 3; 4; 4; 1];
     [0; 5; 1]; [5; 3; 0; 2]; [0; 0; 2; 1; 4; 1]; [0; 4; 1]; [5; 3; 0; 5; 2];
     [0; 3; 4; 2; 5; 1]; [3; 4; 4; 2]; [2; 2; 1; 2; 2]; [4; 0; 3; 4; 1];
     [4; 0; 3; 1]; [0; 4; 4; 1]; [3; 5; 2]];
    [[]; []; []; []; []; []; []; []; []; []; [0; 3; 4; 2; 4; 0; 3; 0; 0];
     [1; 4; 3; 5; 3; 1; 4; 0; 0]; [2; 4; 1; 5; 1; 2; 0]; [1; 4; 3; 5; 0];
     [0; 3; 4; 2; 1]; [3; 4; 3; 0; 2; 5; 2]; [1; 3; 1; 4; 0; 0];
     [1; 4; 2; 5; 0]; [4; 3; 4; 1; 5; 2; 5]; [0; 3; 5; 2; 1];
     [0; 4; 0; 3; 0; 0]];
    [[]; []; []; []; []; []; []; []; []; []; []; []; [5; 3; 5; 2; 0; 2; 1];
     []; [3; 1; 3; 4; 2; 4; 0]; [4; 1; 3; 5; 1; 2; 4; 0];
     [3; 1; 4; 0; 4; 2; 5]; [4; 3; 5; 1; 5; 0; 2]; [3; 4; 2; 0; 2; 1; 5];
     [4; 0; 3; 1; 3; 5; 2]; [4; 1; 3; 0; 5; 1; 2; 0]];
    [[]; []; []; []; []; []; []; []; []; []; []; []; []; []; []; [];
     [2; 2; 4; 2; 5; 0; 3; 1; 4; 1; 4; 0];
     [3; 4; 1; 2; 1; 5; 2; 1; 4; 3; 4; 0];
     [4; 3; 4; 4; 3; 5; 1; 4; 0; 0; 2; 1; 2];
     [4; 0; 3; 0; 3; 1; 3; 4; 2; 0; 2; 0; 0];
     [4; 2; 5; 0; 5; 0; 4; 0; 3; 1; 2; 0; 0]] ].

Definition placing (k b : Z) : list Z :=
  nth (Z.to_nat b) (nth (Z.to_nat k) placing_turns []) [].

Definition state_is (o : option Z) (s : Z) : bool :=
  match o with
  | Some s' => s' =? s
  | None => false
  end.

Definition placing_check : bool :=
  forallb (fun k =>
    forallb (fun b =>
      if b / 3 <? k then true
      else
        forallb (fun turn => (0 <=? turn) && (turn <? 6)) (placing k b) &&
        state_is (turn_states (placing k b) b) (solved_state k) &&
        forallb (fun j =>
                   if j <? k
                   then state_is (turn_states (placing k b) (solved_state j))
                                 (solved_state j)
                   else true) (zrange 6))
      (zrange 21)) (zrange 6).

(** The configuration with the pieces at the positions [p] and the
    orientations of the first six read from [code] in base three; the
    orientation of the last piece is set by the others. *)
Definition place (p : list Z) (code : Z) : Z :=
  match p with
  | [p0; p1; p2; p3; p4; p5; p6] =>
    let o0 := code mod 3 in
    let o1 := (code / 3) mod 3 in
    let o2 := (code / 3 / 3) mod 3 in
    let o3 := (code / 3 / 3 / 3) mod 3 in
    let o4 := (code / 3 / 3 / 3 / 3) mod 3 in
    let o5 := (code / 3 / 3 / 3 / 3 / 3) mod 3 in
    let o6 := (- (o0 + o1 + o2 + o3 + o4 + o5)) mod 3 in
    (3 * p0 + o0) + (3 * p1 + o1) * c21_1 + (3 * p2 + o2) * c21_2 +
    (3 * p3 + o3) * c21_3 + (3 * p4 + o4) * c21_4 + (3 * p5 + o5) * c21_5 +
    (3 * p6 + o6) * c21_6
  | _ => 0
  end.

(** The configuration of a given [rank]. *)
Definition unrank (r : Z) : Z :=
  place (nth (Z.to_nat (r / 729)) arrangements []) (r mod 729).

(** *** The queue seen by its caller *)

(** The calls a caller makes on a queue. *)
Inductive queue_call : Type :=
| Enqueue (element : Z)
| Dequeue
| Peek.

Definition call (q : Queue) (c : queue_call) : Queue * Z :=
  match c with
  | Enqueue element => enqueue q element
  | Dequeue => dequeue q
  | Peek => peek q
  end.

(** A sequence of calls: the queue they leave and their results, in order. *)
Fixpoint calls (q : Queue) (cs : list queue_call) : Queue * list Z :=
  match cs with
  | [] => (q, [])
  | c :: rest =>
    let (q', r) := call q c in
    let (q'', rs) := calls q' rest in
    (q'', r :: rs)
  end.

(** The same calls on a list of at most [n] entries, oldest first. *)
Definition fifo_call (n : Z) (l : list Z) (c : queue_call) : list Z * Z :=
  match c with
  | Enqueue element =>
    if Z.of_nat (length l) >=? n then (l, -1) else (l ++ [element], 0)
  | Dequeue =>
    match l with
    | [] => ([], -1)
    | x :: rest => (rest, x)
    end
  | Peek =>
    match l with
    | [] => ([], -1)
    | x :: _ => (l, x)
    end
  end.

Fixpoint fifo_calls (n : Z) (l : list Z) (cs : list queue_call)
  : list Z * list Z :=
  match cs with
  | [] => (l, [])
  | c :: rest =>
    let (l', r) := fifo_call n l c in
    let (l'', rs) := fifo_calls n l' rest in
    (l'', r :: rs)
  end.

(** *** Shortest routes

    The turns stored in the records lead back to the solved cube. *)

(** [turns_away n cube]: [n] turns take the solved cube to [cube]. *)
Inductive turns_away : nat -> Z -> Prop :=
| away_solved : turns_away 0 SOLVED_CUBE
| away_turn (n : nat) (cube turn cube' : Z) :
    turns_away n cube -> 0 <= turn < 6 -> rotate cube turn = Some cube' ->
    turns_away (S n) cube'.

(** [stored_path l d cube]: from [cube], [d] turns taken from the records
    [l], each performed as [solve_cube] performs it, lead to the solved
    cube, which is not met before. *)
Inductive stored_path (l : list record) : nat -> Z -> Prop :=
| stored_solved : stored_path l 0 SOLVED_CUBE
| stored_step (d : nat) (cube turn cube' : Z) :
    cube <> SOLVED_CUBE -> In (cube, turn) l ->
    perform_turn turn cube = Some cube' -> stored_path l d cube' ->
    stored_path l (S d) cube.

(** The stored path of [cube] has [d] turns and no sequence of turns from
    the solved cube to [cube] is shorter. *)
Definition depth (l : list record) (d : nat) (cube : Z) : Prop :=
  stored_path l d cube /\ forall k, turns_away k cube -> (d <= k)%nat.

(** All the configurations next to [cube] are recorded. *)
Definition settled (l : list record) (cube : Z) : Prop :=
  forall turn cube', 0 <= turn < 6 -> rotate cube turn = Some cube' ->
                     In cube' (cubes l).

Definition known (l : list record) (cube : Z) : Prop :=
  cube = SOLVED_CUBE \/ In cube (cubes l).

(** The frontier [q] is made of configurations [d0] turns away followed by
    configurations [d0 + 1] turns away, and everything up to [d0] turns away
    is known and, unless it waits in the frontier, settled. *)
Definition layered (l : list record) (q : list Z) (d0 : nat)
    (q0 q1 : list Z) : Prop :=
  q = q0 ++ q1 /\
  (forall c, In c q0 -> depth l d0 c \/ settled l c) /\
  (forall c, In c q1 -> depth l (S d0) c \/ settled l c) /\
  (forall c k, turns_away k c -> (k <= d0)%nat -> known l c) /\
  (forall c k, turns_away k c -> (k <= d0)%nat -> settled l c \/ In c q0).

Definition bfs_inv (st : list record * list Z) : Prop :=
  (forall c, In c (cubes (fst st)) -> exists d, depth (fst st) d c) /\
  exists d0 q0 q1, layered (fst st) (snd st) d0 q0 q1.

(** What holds of the records and the frontier while the configurations
    next to a configuration [d0] turns away are looked at: [l0] are the
    records and [q0] the first part of the frontier when the iteration
    begins. *)
Definition iteration_inv (d0 : nat) (l0 : list record) (q0 : list Z)
    (st : list record * list Z) : Prop :=
  incl l0 (fst st) /\
  (forall c, In c (cubes (fst st)) -> exists d, depth (fst st) d c) /\
  exists q1, snd st = q0 ++ q1 /\
    forall c, In c q1 -> depth (fst st) (S d0) c \/ settled (fst st) c.

(** The first [n] iterations of the loop of [solve_cube], without the
    buffer: a lookup and the turn it yields. *)
Fixpoint follow (n : nat) (state_table : Z -> Z) (cube : Z) : option Z :=
  match n with
  | O => Some cube
  | S n' =>
    this_turn <- get_turn state_table cube ;;
    cube <- perform_turn this_turn cube ;;
    follow n' state_table cube
  end.

(** *** The cube struct of a configuration *)

(** The colours of piece [piece]. *)
Definition piece_colors_of (piece : Z) : list Z :=
  nth (Z.to_nat piece) [zero; one; two; three; four; five; six] [].

(** The three characters that [insert] writes for [piece] in [state]:
    top or bottom, front or back, left or right. *)
Definition sticker_colors (piece state : Z) : option (list Z) :=
  let tbl :=
    if (piece =? 0) || (piece =? 3) || (piece =? 5) || (piece =? 6)
    then state_table0356 else state_table1247 in
  let piece_colors := piece_colors_of piece in
  row <- state_table_row tbl state ;;
  colorTB <- nth_error row 0 ;;
  colorFB <- nth_error row 1 ;;
  colorRL <- nth_error row 2 ;;
  colorTB <- nth_error piece_colors (Z.to_nat colorTB) ;;
  colorFB <- nth_error piece_colors (Z.to_nat colorFB) ;;
  colorRL <- nth_error piece_colors (Z.to_nat colorRL) ;;
  Some [colorTB; colorFB; colorRL].

Definition stickers (piece state : Z) : list Z :=
  match sticker_colors piece state with
  | Some l => l
  | None => []
  end.

(** The three cells that [insert] writes for a piece at position [pos], in
    the same order. *)
Definition piece_cells (pos : Z) : list Z :=
  if pos =? 6 then [cell 0 3; cell 2 6; cell 2 5]
  else if pos =? 5 then [cell 5 2; cell 3 7; cell 3 0]
  else if pos =? 4 then [cell 0 2; cell 2 7; cell 2 0]
  else if pos =? 3 then [cell 4 3; cell 3 3; cell 3 4]
  else if pos =? 2 then [cell 1 3; cell 2 3; cell 2 4]
  else if pos =? 1 then [cell 4 2; cell 3 2; cell 3 1]
  else if pos =? 0 then [cell 1 2; cell 2 2; cell 2 1]
  else [].

(** The cells of the stationary piece. *)
Definition fixed_cells : list Z := [cell 5 3; cell 3 5; cell 3 6].

Definition write3 (cube_S : Cube) (cells colors : list Z) : Cube :=
  match cells, colors with
  | [tb; fb; rl], [colorTB; colorFB; colorRL] =>
    store (store (store cube_S tb colorTB) fb colorFB) rl colorRL
  | _, _ => cube_S
  end.

(** Pieces written one after the other, each given as piece and state. *)
Fixpoint write_pieces (cube_S : Cube) (pieces : list (Z * Z)) : Cube :=
  match pieces with
  | [] => cube_S
  | ps :: rest =>
    write_pieces
      (write3 cube_S (piece_cells (Z.quot (snd ps) 3))
              (stickers (fst ps) (snd ps)))
      rest
  end.

(** The pieces of a configuration in the order in which [decompress]
    inserts them. *)
Definition pieces_of (cube : Z) : list (Z * Z) :=
  [(6, digit cube 6); (5, digit cube 5); (4, digit cube 4);
   (3, digit cube 3); (2, digit cube 2); (1, digit cube 1);
   (0, digit cube 0)].

(** The cell of the cube struct at each of the 24 places of the entry
    order: [print_intro] numbers the places at which [print_cube] displays
    the cells, face after face. *)
Definition entry_cells : list Z :=
  [cell 0 2; cell 0 3; cell 1 2; cell 1 3;
   cell 2 0; cell 2 1; cell 3 0; cell 3 1;
   cell 2 2; cell 2 3; cell 3 2; cell 3 3;
   cell 2 4; cell 2 5; cell 3 4; cell 3 5;
   cell 2 6; cell 2 7; cell 3 6; cell 3 7;
   cell 4 2; cell 4 3; cell 5 2; cell 5 3].

(** The buffer of a user who enters a cube struct as it is displayed, and
    the line typed for it. *)
Definition entered (cube_S : Cube) : Z -> Z :=
  fun n => cube_S (nth (Z.to_nat n) entry_cells 0).

Definition entered_line (cube_S : Cube) : list Z :=
  map cube_S entry_cells ++ [chr "010"].

(** The places of the entry order that [compress] reads for each
    position. *)
Definition position_entries : list (list Z) :=
  [[2; 8; 5]; [20; 10; 7]; [3; 9; 12]; [21; 11; 14]; [0; 17; 4];
   [22; 19; 6]; [1; 16; 13]].

(** How often [c] occurs in [l]. *)
Definition count_in (c : Z) (l : list Z) : nat :=
  length (filter (Z.eqb c) l).

Definition is_color (c : Z) : bool :=
  (c =? chr "o") || (c =? chr "r") || (c =? chr "w") || (c =? chr "y") ||
  (c =? chr "g") || (c =? chr "b").

(** Checks over the 7 pieces and the 21 states: the stickers of a piece in
    a state are colours, [which_piece] tells the piece from them,
    [get_piece_state] tells the state, and they are the colours of the
    piece in some order. *)
Definition stickers_check : bool :=
  forallb (fun piece =>
    forallb (fun state =>
      match sticker_colors piece state with
      | Some l =>
        (length l =? 3)%nat && forallb is_color l &&
        (which_piece l =? piece) &&
        match get_piece_state piece (state / 3) l with
        | Some s => s =? state
        | None => false
        end &&
        forallb (fun c =>
                   (count_in c l =? count_in c (piece_colors_of piece))%nat)
                [chr "o"; chr "r"; chr "w"; chr "y"; chr "g"; chr "b"]
      | None => false
      end) (zrange 21)) (zrange 7).

(** The piece at position [i] of a configuration, -1 if there is none. *)
Definition piece_at (cube i : Z) : Z :=
  match find (fun k => digit cube k / 3 =? i) (zrange 7) with
  | Some k => k
  | None => -1
  end.

(** [buffer[count] = c; count++] for each character of [l]. *)
Fixpoint fill_from (buffer : Z -> Z) (count : Z) (l : list Z) : Z -> Z :=
  match l with
  | [] => buffer
  | c :: rest => fill_from (store buffer count c) (count + 1) rest
  end.

(** The sum of [f] over [l]. *)
Definition total (f : Z -> nat) (l : list Z) : nat :=
  fold_right (fun i acc => (f i + acc)%nat) O l.

(** Every cell of the entry order belongs to a position or to the
    stationary piece. *)
Definition entry_cells_check : bool :=
  forallb (fun c =>
             existsb (fun pos => existsb (Z.eqb c) (piece_cells pos))
                     (zrange 7) ||
             existsb (Z.eqb c) fixed_cells) entry_cells.

(** *** Particular lines of input *)



(** *** Turns and the cube struct *)

Definition same_list (a b : list Z) : bool :=
  if list_eq_dec Z.eq_dec a b then true else false.

(** A front turn moves a piece of the four front positions (states below
    12) to a front position, where [insert] writes its colours in the
    reverse order, and leaves the other states alone. *)
Definition front_turn_check : bool :=
  forallb (fun turn =>
    forallb (fun piece =>
      forallb (fun state =>
        match turn_table_get turn state with
        | Some state' =>
          if state <? 12
          then (state' <? 12) &&
               same_list (stickers piece state') (rev (stickers piece state))
          else state' =? state
        | None => false
        end) (zrange 21)) (zrange 7)) [0; 1].

(** The configuration that [turns] make of the solved cube shows at the
    cell [x], after one more [turn], another character than it showed at the
    cell [y] before. *)
Definition differs (turn x y : Z) (turns : list Z) : bool :=
  forallb (fun t => (0 <=? t) && (t <? 6)) turns &&
  match apply_turns turns SOLVED_CUBE with
  | Some cube =>
    match rotate cube turn, decompress cube with
    | Some cube', Some cube_S =>
      match decompress cube' with
      | Some cube_S' => negb (cube_S' x =? cube_S y)
      | None => false
      end
    | _, _ => false
    end
  | None => false
  end.

(** The sequences of at most two turns. *)
Definition short_sequences : list (list Z) :=
  [] :: map (fun t => [t]) (zrange 6) ++
  flat_map (fun t => map (fun u => [t; u]) (zrange 6)) (zrange 6).

(** For every cell [y] of the picture, and for a cell outside it, some
    short sequence of turns leads to a configuration that shows after [turn]
    at [x] another character than it showed at [y]. *)
Definition no_source_check (turn x : Z) : bool :=
  forallb (fun y => existsb (differs turn x y) short_sequences)
          (-1 :: entry_cells).

(* ===================================================================== *)
(** * Properties *)
(* ===================================================================== *)

Lemma In_zrange n x : 0 <= x < Z.of_nat n -> In x (zrange n).
Proof.
  intros H. unfold zrange. apply in_map_iff. exists (Z.to_nat x). split; [lia|].
  apply in_seq. lia.
Qed.



Lemma row_inverse_check_ok : row_inverse_check = true.
Proof. vm_compute. reflexivity. Qed.

Lemma turn_table_inverse turn s :
  0 <= turn < 6 -> 0 <= s < 21 ->
  exists s', turn_table_get turn s = Some s' /\ 0 <= s' < 21 /\
             turn_table_get (inverse_turn turn) s' = Some s.
Proof.
  intros Ht Hs.
  pose proof row_inverse_check_ok as H. unfold row_inverse_check in H.
  rewrite forallb_forall in H. specialize (H turn (In_zrange 6 turn Ht)).
  rewrite forallb_forall in H. specialize (H s (In_zrange 21 s Hs)).
  destruct (turn_table_get turn s) as [s'|]; [|discriminate].
  apply andb_true_iff in H. destruct H as [H1 H2].
  apply andb_true_iff in H1. destruct H1 as [H0 H1].
  exists s'. split; [reflexivity|]. split; [lia|].
  destruct (turn_table_get (inverse_turn turn) s') as [s''|]; [|discriminate].
  apply Z.eqb_eq in H2. subst. reflexivity.
Qed.

Lemma inverse_turn_range turn : 0 <= turn < 6 -> 0 <= inverse_turn turn < 6.
Proof.
  intros H. assert (In turn (zrange 6)) as Hin by (apply In_zrange; lia).
  simpl in Hin. unfold inverse_turn.
  repeat (destruct Hin as [<-|Hin]; [simpl; lia|]). destruct Hin.
Qed.

Lemma inverse_turn_involutive turn : inverse_turn (inverse_turn turn) = turn.
Proof.
  unfold inverse_turn. destruct (Z.even turn) eqn:E.
  - rewrite Z.even_add, E. simpl. lia.
  - rewrite Z.even_sub, E. simpl. lia.
Qed.

Lemma rotate_states cube :
  in_space cube ->
  let s6 := Z.quot cube c21_6 in
  let s5 := Z.quot (Z.rem cube c21_6) c21_5 in
  let s4 := Z.quot (Z.rem cube c21_5) c21_4 in
  let s3 := Z.quot (Z.rem cube c21_4) c21_3 in
  let s2 := Z.quot (Z.rem cube c21_3) c21_2 in
  let s1 := Z.quot (Z.rem cube c21_2) c21_1 in
  let s0 := Z.rem cube c21_1 in
  s6 = digit cube 6 /\ s5 = digit cube 5 /\ s4 = digit cube 4 /\
  s3 = digit cube 3 /\ s2 = digit cube 2 /\ s1 = digit cube 1 /\
  s0 = digit cube 0.
Proof.
  intros H. cbv zeta. unfold digit.
  change (21 ^ 6) with 85766121. change (21 ^ 5) with 4084101.
  change (21 ^ 4) with 194481. change (21 ^ 3) with 9261.
  change (21 ^ 2) with 441. change (21 ^ 1) with 21. change (21 ^ 0) with 1.
  unfold in_space, c21_6, c21_5, c21_4, c21_3, c21_2, c21_1 in *.
  rewrite !Z.rem_mod_nonneg by lia.
  rewrite !Z.quot_div_nonneg by (Z.div_mod_to_equations; lia).
  repeat split; Z.div_mod_to_equations; lia.
Qed.

Lemma digit_range cube i : 0 <= digit cube i < 21.
Proof. unfold digit. apply Z.mod_pos_bound. lia. Qed.

Lemma digits_compose (d0 d1 d2 d3 d4 d5 d6 : Z) :
  0 <= d0 < 21 -> 0 <= d1 < 21 -> 0 <= d2 < 21 -> 0 <= d3 < 21 ->
  0 <= d4 < 21 -> 0 <= d5 < 21 -> 0 <= d6 < 21 ->
  let cube := d0 + d1 * c21_1 + d2 * c21_2 + d3 * c21_3 + d4 * c21_4 +
              d5 * c21_5 + d6 * c21_6 in
  in_space cube /\
  digit cube 0 = d0 /\ digit cube 1 = d1 /\ digit cube 2 = d2 /\
  digit cube 3 = d3 /\ digit cube 4 = d4 /\ digit cube 5 = d5 /\
  digit cube 6 = d6.
Proof.
  intros. subst cube. unfold digit.
  change (21 ^ 6) with 85766121. change (21 ^ 5) with 4084101.
  change (21 ^ 4) with 194481. change (21 ^ 3) with 9261.
  change (21 ^ 2) with 441. change (21 ^ 1) with 21. change (21 ^ 0) with 1.
  unfold in_space, c21_6, c21_5, c21_4, c21_3, c21_2, c21_1 in *.
  repeat split; try lia; Z.div_mod_to_equations; lia.
Qed.

Lemma digits_decompose cube :
  in_space cube ->
  cube = digit cube 0 + digit cube 1 * c21_1 + digit cube 2 * c21_2 +
         digit cube 3 * c21_3 + digit cube 4 * c21_4 + digit cube 5 * c21_5 +
         digit cube 6 * c21_6.
Proof.
  intros H. unfold digit.
  change (21 ^ 6) with 85766121. change (21 ^ 5) with 4084101.
  change (21 ^ 4) with 194481. change (21 ^ 3) with 9261.
  change (21 ^ 2) with 441. change (21 ^ 1) with 21. change (21 ^ 0) with 1.
  unfold in_space, c21_6, c21_5, c21_4, c21_3, c21_2, c21_1 in *.
  Z.div_mod_to_equations; lia.
Qed.

Lemma index_cases_7 (P : Z -> Prop) :
  P 0 -> P 1 -> P 2 -> P 3 -> P 4 -> P 5 -> P 6 ->
  forall i, 0 <= i < 7 -> P i.
Proof.
  intros H0 H1 H2 H3 H4 H5 H6 i Hi.
  assert (i = 0 \/ i = 1 \/ i = 2 \/ i = 3 \/ i = 4 \/ i = 5 \/ i = 6)
    as Hc by lia.
  repeat (destruct Hc as [->|Hc]; [assumption|]). subst. assumption.
Qed.

Lemma rotate_in_space cube turn :
  in_space cube -> 0 <= turn < 6 ->
  exists cube',
    rotate cube turn = Some cube' /\ in_space cube' /\
    forall i, 0 <= i < 7 ->
      turn_table_get turn (digit cube i) = Some (digit cube' i).
Proof.
  intros Hc Ht. unfold rotate.
  destruct (rotate_states cube Hc) as (E6 & E5 & E4 & E3 & E2 & E1 & E0).
  cbv zeta in *. rewrite E6, E5, E4, E3, E2, E1, E0.
  destruct (turn_table_inverse turn _ Ht (digit_range cube 6)) as (s6 & G6 & R6 & _).
  destruct (turn_table_inverse turn _ Ht (digit_range cube 5)) as (s5 & G5 & R5 & _).
  destruct (turn_table_inverse turn _ Ht (digit_range cube 4)) as (s4 & G4 & R4 & _).
  destruct (turn_table_inverse turn _ Ht (digit_range cube 3)) as (s3 & G3 & R3 & _).
  destruct (turn_table_inverse turn _ Ht (digit_range cube 2)) as (s2 & G2 & R2 & _).
  destruct (turn_table_inverse turn _ Ht (digit_range cube 1)) as (s1 & G1 & R1 & _).
  destruct (turn_table_inverse turn _ Ht (digit_range cube 0)) as (s0 & G0 & R0 & _).
  rewrite G6, G5, G4, G3, G2, G1, G0. cbn [obind].
  eexists. split; [reflexivity|].
  destruct (digits_compose s0 s1 s2 s3 s4 s5 s6 R0 R1 R2 R3 R4 R5 R6)
    as (Hs & D0 & D1 & D2 & D3 & D4 & D5 & D6).
  split; [exact Hs|].
  apply index_cases_7; congruence.
Qed.

Lemma digits_eq a b :
  in_space a -> in_space b ->
  (forall i, 0 <= i < 7 -> digit a i = digit b i) -> a = b.
Proof.
  intros Ha Hb H.
  rewrite (digits_decompose a Ha), (digits_decompose b Hb).
  rewrite !H by lia. reflexivity.
Qed.

Lemma rotate_inverse cube turn cube' :
  in_space cube -> 0 <= turn < 6 -> rotate cube turn = Some cube' ->
  in_space cube' /\ rotate cube' (inverse_turn turn) = Some cube.
Proof.
  intros Hc Ht Hr.
  destruct (rotate_in_space cube turn Hc Ht) as (c1 & E1 & S1 & D1).
  rewrite Hr in E1. injection E1 as <-. split; [exact S1|].
  destruct (rotate_in_space cube' (inverse_turn turn) S1 (inverse_turn_range _ Ht))
    as (c2 & E2 & S2 & D2).
  rewrite E2. f_equal. apply digits_eq; trivial.
  intros i Hi. specialize (D1 i Hi). specialize (D2 i Hi).
  destruct (turn_table_inverse turn _ Ht (digit_range cube i)) as (s & G & _ & I).
  rewrite G in D1. injection D1 as ->. rewrite I in D2. congruence.
Qed.

Lemma solved_in_space : in_space SOLVED_CUBE.
Proof. unfold in_space, SOLVED_CUBE, c21_6. lia. Qed.

Lemma reachable_in_space cube : reachable cube -> in_space cube.
Proof.
  induction 1 as [|c t c' _ IH Ht Hr]; [exact solved_in_space|].
  exact (proj1 (rotate_inverse c t c' IH Ht Hr)).
Qed.

Lemma rotate_injective turn a b cube' :
  in_space a -> in_space b -> 0 <= turn < 6 ->
  rotate a turn = Some cube' -> rotate b turn = Some cube' -> a = b.
Proof.
  intros Ha Hb Ht Ra Rb.
  destruct (rotate_inverse a turn cube' Ha Ht Ra) as [_ Ia].
  destruct (rotate_inverse b turn cube' Hb Ht Rb) as [_ Ib].
  congruence.
Qed.

Lemma rotate_surjective turn cube' :
  in_space cube' -> 0 <= turn < 6 ->
  exists cube, in_space cube /\ rotate cube turn = Some cube'.
Proof.
  intros Hc Ht.
  destruct (rotate_in_space cube' (inverse_turn turn) Hc (inverse_turn_range _ Ht))
    as (c & E & S & _).
  exists c. split; [exact S|].
  destruct (rotate_inverse cube' _ c Hc (inverse_turn_range _ Ht) E) as [_ I].
  rewrite inverse_turn_involutive in I. exact I.
Qed.

(** C4: on every reachable configuration each of the six turns is undone by
    its partner (front C by front CC, left C by left CC, top C by top CC, and
    the other way round); the rows of [turn_table] of a turn and of its
    partner are permutations of the 21 piece states inverse to each other;
    and every turn is a bijection of the configuration space. *)
Theorem move_invertibility (cube turn : Z) :
  reachable cube -> 0 <= turn < 6 ->
  (exists cube', rotate cube turn = Some cube' /\
                 rotate cube' (inverse_turn turn) = Some cube) /\
  (c <- frontC cube ;; frontCC c) = Some cube /\
  (c <- frontCC cube ;; frontC c) = Some cube /\
  (c <- leftC cube ;; leftCC c) = Some cube /\
  (c <- leftCC cube ;; leftC c) = Some cube /\
  (c <- topC cube ;; topCC c) = Some cube /\
  (c <- topCC cube ;; topC c) = Some cube /\
  (forall s, 0 <= s < 21 ->
     exists s', turn_table_get turn s = Some s' /\ 0 <= s' < 21 /\
                turn_table_get (inverse_turn turn) s' = Some s) /\
  (forall s', 0 <= s' < 21 ->
     exists s, 0 <= s < 21 /\ turn_table_get turn s = Some s') /\
  (forall c, in_space c -> exists c', rotate c turn = Some c' /\ in_space c') /\
  (forall a b c', in_space a -> in_space b ->
     rotate a turn = Some c' -> rotate b turn = Some c' -> a = b) /\
  (forall c', in_space c' -> exists c, in_space c /\ rotate c turn = Some c').
Proof.
  intros Hr Ht. pose proof (reachable_in_space cube Hr) as Hs.
  assert (forall t, 0 <= t < 6 ->
            (c <- rotate cube t ;; rotate c (inverse_turn t)) = Some cube) as Hpair.
  { intros t Ht'. destruct (rotate_in_space cube t Hs Ht') as (c' & E & _ & _).
    rewrite E. cbn [obind]. exact (proj2 (rotate_inverse cube t c' Hs Ht' E)). }
  split.
  { destruct (rotate_in_space cube turn Hs Ht) as (c' & E & _ & _).
    exists c'. split; [exact E|]. exact (proj2 (rotate_inverse cube turn c' Hs Ht E)). }
  split; [exact (Hpair 1 ltac:(lia))|].
  split; [exact (Hpair 0 ltac:(lia))|].
  split; [exact (Hpair 3 ltac:(lia))|].
  split; [exact (Hpair 2 ltac:(lia))|].
  split; [exact (Hpair 5 ltac:(lia))|].
  split; [exact (Hpair 4 ltac:(lia))|].
  split; [intros s Hs'; exact (turn_table_inverse turn s Ht Hs')|].
  split.
  { intros s' Hs'.
    destruct (turn_table_inverse (inverse_turn turn) s' (inverse_turn_range _ Ht) Hs')
      as (s & G & R & I).
    rewrite inverse_turn_involutive in I. exists s. split; [exact R|exact I]. }
  split.
  { intros c Hc. destruct (rotate_in_space c turn Hc Ht) as (c' & E & S & _).
    exists c'. split; assumption. }
  split.
  { intros a b c' Ha Hb. apply rotate_injective; assumption. }
  intros c' Hc. apply rotate_surjective; assumption.
Qed.

Lemma move_invertibility_witness :
  reachable SOLVED_CUBE /\ 0 <= 1 < 6 /\
  (c <- frontC SOLVED_CUBE ;; frontCC c) = Some SOLVED_CUBE.
Proof.
  split; [exact reach_solved|]. split; [lia|].
  refine (proj1 (proj2 (move_invertibility SOLVED_CUBE 1 reach_solved _))). lia.
Defined.

(** ** The queue as a FIFO *)

Lemma zrange_S n : zrange (S n) = zrange n ++ [Z.of_nat n].
Proof. unfold zrange. rewrite seq_S, map_app. reflexivity. Qed.

Lemma zrange_S_head n : zrange (S n) = 0 :: map (fun k => k + 1) (zrange n).
Proof.
  unfold zrange. cbn [seq map]. f_equal.
  rewrite <- seq_shift, !map_map. apply map_ext. intros a. lia.
Qed.

Lemma in_zrange_iff n x : In x (zrange n) <-> 0 <= x < Z.of_nat n.
Proof.
  split; [|apply In_zrange].
  unfold zrange. rewrite in_map_iff. intros (k & <- & Hk).
  apply in_seq in Hk. lia.
Qed.

Lemma mod_wrap h k m :
  0 <= h < m -> 0 <= k <= m ->
  (h + k) mod m = if h + k <? m then h + k else h + k - m.
Proof.
  intros Hh Hk. destruct (h + k <? m) eqn:E.
  - apply Z.ltb_lt in E. apply Z.mod_small. lia.
  - apply Z.ltb_ge in E. symmetry. apply (Z.mod_unique _ _ 1); lia.
Qed.

Lemma createQueue_spec n :
  0 < n -> queue_wf (createQueue n) /\ contents (createQueue n) = [].
Proof.
  intros Hn. split; [|reflexivity].
  unfold queue_wf; cbn [createQueue max_cells head cells_used tail].
  rewrite Z.add_0_l, Z.mod_0_l by lia. lia.
Qed.

Lemma enqueue_spec q x :
  queue_wf q -> cells_used q < max_cells q ->
  snd (enqueue q x) = 0 /\ queue_wf (fst (enqueue q x)) /\
  contents (fst (enqueue q x)) = contents q ++ [x] /\
  max_cells (fst (enqueue q x)) = max_cells q.
Proof.
  intros (Hm & Hh & Hu & Ht) Hlt. unfold enqueue.
  destruct (cells_used q >=? max_cells q) eqn:E; [lia|]. cbn [fst snd].
  split; [reflexivity|]. split; [|split; [|reflexivity]].
  - unfold queue_wf; cbn [max_cells head cells_used tail base]. split; [lia|]. split; [lia|]. split; [lia|].
    rewrite Ht. rewrite !mod_wrap by lia.
    destruct (head q + cells_used q <? max_cells q) eqn:E1;
      destruct (head q + (cells_used q + 1) <? max_cells q) eqn:E2;
      match goal with |- context [?a =? ?b] => destruct (a =? b) eqn:E3 end;
      lia.
  - unfold contents; cbn [max_cells head cells_used tail base].
    replace (Z.to_nat (cells_used q + 1)) with (S (Z.to_nat (cells_used q))) by lia.
    rewrite zrange_S, map_app. cbn [map]. f_equal.
    + apply map_ext_in. intros k Hk. apply in_zrange_iff in Hk.
      unfold store. rewrite Ht, !mod_wrap by lia.
      destruct (head q + k <? max_cells q) eqn:E1;
        destruct (head q + cells_used q <? max_cells q) eqn:E2;
        match goal with |- context [?a =? ?b] => destruct (a =? b) eqn:E3 end;
        try reflexivity; lia.
    + unfold store. rewrite Z2Nat.id by lia. rewrite Ht, Z.eqb_refl. reflexivity.
Qed.

Lemma enqueue_overflow q x :
  cells_used q >= max_cells q ->
  enqueue q x =
  ({| base := base q; head := head q; tail := tail q;
      max_cells := max_cells q; cells_used := max_cells q |}, -1).
Proof.
  intros H. unfold enqueue.
  destruct (cells_used q >=? max_cells q) eqn:E; [reflexivity|lia].
Qed.

Lemma dequeue_spec q :
  queue_wf q -> 0 < cells_used q ->
  queue_wf (fst (dequeue q)) /\
  contents q = snd (dequeue q) :: contents (fst (dequeue q)) /\
  max_cells (fst (dequeue q)) = max_cells q.
Proof.
  intros (Hm & Hh & Hu & Ht) Hlt. unfold dequeue.
  destruct (cells_used q <=? 0) eqn:E; [lia|]. cbn [fst snd].
  split; [|split; [|reflexivity]].
  - unfold queue_wf; cbn [max_cells head cells_used tail base]. split; [lia|]. split.
    { destruct (head q + 1 =? max_cells q) eqn:E1; lia. }
    split; [lia|]. rewrite Ht. rewrite !mod_wrap.
    2-5: destruct (head q + 1 =? max_cells q) eqn:E1; lia.
    destruct (head q + 1 =? max_cells q) eqn:E1;
      destruct (head q + cells_used q <? max_cells q) eqn:E2;
      match goal with |- context [?a <? ?b] => destruct (a <? b) eqn:E3 end;
      lia.
  - unfold contents; cbn [max_cells head cells_used tail base].
    replace (Z.to_nat (cells_used q)) with (S (Z.to_nat (cells_used q - 1))) by lia.
    rewrite zrange_S_head. cbn [map]. f_equal.
    + f_equal. rewrite Z.add_0_r. apply Z.mod_small. lia.
    + rewrite map_map. apply map_ext_in. intros k Hk. apply in_zrange_iff in Hk.
      f_equal. rewrite !mod_wrap.
      2-5: destruct (head q + 1 =? max_cells q) eqn:E1; lia.
      destruct (head q + 1 =? max_cells q) eqn:E1;
        destruct (head q + (k + 1) <? max_cells q) eqn:E2;
        match goal with |- context [?a <? ?b] => destruct (a <? b) eqn:E3 end;
        lia.
Qed.

Lemma dequeue_empty q :
  cells_used q <= 0 ->
  dequeue q =
  ({| base := base q; head := head q; tail := tail q;
      max_cells := max_cells q; cells_used := 0 |}, -1).
Proof.
  intros H. unfold dequeue. destruct (cells_used q <=? 0) eqn:E; [reflexivity|lia].
Qed.

Lemma peek_spec q :
  queue_wf q -> 0 < cells_used q ->
  fst (peek q) = q /\ contents q = snd (peek q) :: tl (contents q).
Proof.
  intros (Hm & Hh & Hu & Ht) Hlt. unfold peek.
  destruct (cells_used q <=? 0) eqn:E; [lia|]. cbn [fst snd].
  split; [reflexivity|]. unfold contents.
  replace (Z.to_nat (cells_used q)) with (S (Z.to_nat (cells_used q - 1))) by lia.
  rewrite zrange_S_head. cbn [map tl]. f_equal.
  f_equal. rewrite Z.add_0_r. apply Z.mod_small. lia.
Qed.

Lemma peek_empty q :
  cells_used q <= 0 ->
  peek q =
  ({| base := base q; head := head q; tail := tail q;
      max_cells := max_cells q; cells_used := 0 |}, -1).
Proof.
  intros H. unfold peek. destruct (cells_used q <=? 0) eqn:E; [reflexivity|lia].
Qed.

Lemma contents_length q :
  0 <= cells_used q -> Z.of_nat (length (contents q)) = cells_used q.
Proof.
  intros H. unfold contents, zrange. rewrite !length_map, length_seq. lia.
Qed.

(** ** Bytes *)

Lemma to_uchar_range x : 0 <= to_uchar x < 256.
Proof. unfold to_uchar. apply Z.mod_pos_bound. lia. Qed.

Lemma to_uchar_small x : 0 <= x < 256 -> to_uchar x = x.
Proof. intros H. unfold to_uchar. apply Z.mod_small. exact H. Qed.

Lemma shiftr_div x n : 0 <= n -> Z.shiftr x n = x / 2 ^ n.
Proof. intros H. apply Z.shiftr_div_pow2. exact H. Qed.

(** The bytes of a 32-bit value, high byte first. *)
Lemma cube_bytes cube :
  0 <= cube < 4294967296 ->
  to_uchar (Z.shiftr cube 24) * 16777216 + to_uchar (Z.shiftr cube 16) * 65536 +
  to_uchar (Z.shiftr cube 8) * 256 + to_uchar cube = cube.
Proof.
  intros H. unfold to_uchar. rewrite !shiftr_div by lia.
  change (2 ^ 24) with 16777216. change (2 ^ 16) with 65536.
  change (2 ^ 8) with 256.
  Z.div_mod_to_equations. lia.
Qed.

Lemma store_same m i v : store m i v i = v.
Proof. unfold store. rewrite Z.eqb_refl. reflexivity. Qed.

Lemma store_other m i v j : j <> i -> store m i v j = m j.
Proof. unfold store. intros H. destruct (Z.eqb_spec j i); [contradiction|reflexivity]. Qed.

Lemma store_uchar m i v :
  uchar_table m -> 0 <= v < 256 -> uchar_table (store m i v).
Proof.
  intros Hm Hv b. unfold store. destruct (b =? i); [exact Hv|apply Hm].
Qed.

(** ** [shift_data_up] *)

Lemma shift_cell_spec t base b :
  shift_cell 5 t base b =
  if (base + 5 <=? b) && (b <? base + 10) then t (b - 5) else t b.
Proof.
  cbn [shift_cell]. unfold store.
  repeat match goal with
         | |- context [?x =? ?y] => destruct (Z.eqb_spec x y)
         end;
  destruct (Z.leb_spec (base + 5) b); destruct (Z.ltb_spec b (base + 10));
  cbn [andb]; try lia; try (f_equal; lia).
Qed.

Lemma shift_loop_spec n : forall t i b,
  shift_loop n t i b =
  if ((i - Z.of_nat n + 1) * 5 + 5 <=? b) && (b <? i * 5 + 10)
  then t (b - 5) else t b.
Proof.
  induction n as [|n IH]; intros t i b.
  - cbn [shift_loop].
    destruct (Z.leb_spec ((i - Z.of_nat 0 + 1) * 5 + 5) b);
      destruct (Z.ltb_spec b (i * 5 + 10)); cbn [andb]; try reflexivity; lia.
  - cbn [shift_loop]. rewrite IH, !shift_cell_spec.
    destruct (Z.leb_spec ((i - 1 - Z.of_nat n + 1) * 5 + 5) b);
      destruct (Z.ltb_spec b ((i - 1) * 5 + 10));
      destruct (Z.leb_spec ((i - Z.of_nat (S n) + 1) * 5 + 5) b);
      destruct (Z.ltb_spec b (i * 5 + 10));
      destruct (Z.leb_spec (i * 5 + 5) (b - 5));
      destruct (Z.ltb_spec (b - 5) (i * 5 + 10));
      destruct (Z.leb_spec (i * 5 + 5) b);
      cbn [andb]; try reflexivity; try lia.
Qed.

Lemma shift_data_up_spec t index b :
  0 <= index < NUMBER_OF_CUBES ->
  shift_data_up t index b =
  if (index * 5 + 5 <=? b) && (b <? NUMBER_OF_CUBES * 5) then t (b - 5) else t b.
Proof.
  intros H. unfold shift_data_up. rewrite shift_loop_spec.
  rewrite Z2Nat.id by lia.
  replace ((NUMBER_OF_CUBES - 2 - (NUMBER_OF_CUBES - 1 - index) + 1) * 5 + 5)
    with (index * 5 + 5) by lia.
  replace ((NUMBER_OF_CUBES - 2) * 5 + 10) with (NUMBER_OF_CUBES * 5) by lia.
  reflexivity.
Qed.

Lemma shift_data_up_uchar t index :
  0 <= index < NUMBER_OF_CUBES -> uchar_table t ->
  uchar_table (shift_data_up t index).
Proof.
  intros H Ht b. rewrite shift_data_up_spec by exact H.
  destruct (_ && _); apply Ht.
Qed.

(** ** [find_index] *)

Lemma find_index_loop_step n t b3 b2 b1 b0 i :
  uchar_table t ->
  0 <= b3 < 256 -> 0 <= b2 < 256 -> 0 <= b1 < 256 -> 0 <= b0 < 256 ->
  find_index_loop (S n) t b3 b2 b1 b0 i =
  let v := slot_value t i in
  let u := b3 * 16777216 + b2 * 65536 + b1 * 256 + b0 in
  if v =? 0 then Some i
  else if v <? u then find_index_loop n t b3 b2 b1 b0 (i + 1)
  else if v >? u then Some i
  else Some (-1).
Proof.
  intros Ht H3 H2 H1 H0. cbn [find_index_loop]. cbv zeta. unfold slot_value.
  pose proof (Ht (i * 5)) as T0. pose proof (Ht (i * 5 + 1)) as T1.
  pose proof (Ht (i * 5 + 2)) as T2. pose proof (Ht (i * 5 + 3)) as T3.
  set (x0 := t (i * 5)) in *. set (x1 := t (i * 5 + 1)) in *.
  set (x2 := t (i * 5 + 2)) in *. set (x3 := t (i * 5 + 3)) in *.
  set (v := x0 * 16777216 + x1 * 65536 + x2 * 256 + x3).
  set (u := b3 * 16777216 + b2 * 65536 + b1 * 256 + b0).
  rewrite !Z.gtb_ltb.
  destruct (Z.eqb_spec v 0) as [Ev|Ev].
  { assert (x0 = 0 /\ x1 = 0 /\ x2 = 0 /\ x3 = 0) as (-> & -> & -> & ->)
      by (subst v; lia).
    reflexivity. }
  assert ((x0 =? 0) && (x1 =? 0) && (x2 =? 0) && (x3 =? 0) = false) as ->.
  { destruct (Z.eqb_spec x0 0); [|reflexivity].
    destruct (Z.eqb_spec x1 0); [|reflexivity].
    destruct (Z.eqb_spec x2 0); [|reflexivity].
    destruct (Z.eqb_spec x3 0); [|reflexivity].
    subst v; lia. }
  destruct (Z.ltb_spec x0 b3).
  { destruct (Z.ltb_spec v u); [reflexivity|subst v u; lia]. }
  destruct (Z.ltb_spec b3 x0).
  { destruct (Z.ltb_spec v u); [subst v u; lia|].
    destruct (Z.ltb_spec u v); [reflexivity|subst v u; lia]. }
  destruct (Z.ltb_spec x1 b2).
  { destruct (Z.ltb_spec v u); [reflexivity|subst v u; lia]. }
  destruct (Z.ltb_spec b2 x1).
  { destruct (Z.ltb_spec v u); [subst v u; lia|].
    destruct (Z.ltb_spec u v); [reflexivity|subst v u; lia]. }
  destruct (Z.ltb_spec x2 b1).
  { destruct (Z.ltb_spec v u); [reflexivity|subst v u; lia]. }
  destruct (Z.ltb_spec b1 x2).
  { destruct (Z.ltb_spec v u); [subst v u; lia|].
    destruct (Z.ltb_spec u v); [reflexivity|subst v u; lia]. }
  destruct (Z.ltb_spec x3 b0).
  { destruct (Z.ltb_spec v u); [reflexivity|subst v u; lia]. }
  destruct (Z.ltb_spec b0 x3).
  { destruct (Z.ltb_spec v u); [subst v u; lia|].
    destruct (Z.ltb_spec u v); [reflexivity|subst v u; lia]. }
  destruct (Z.ltb_spec v u); [subst v u; lia|].
  destruct (Z.ltb_spec u v); [subst v u; lia|reflexivity].
Qed.

(** ** The table as a list of records *)

Lemma slot_is_value t i r :
  slot_is t i r -> 0 <= fst r < 4294967296 -> slot_value t i = fst r.
Proof.
  intros (E0 & E1 & E2 & E3 & _) H. unfold slot_value.
  rewrite E0, E1, E2, E3. apply cube_bytes. exact H.
Qed.

Lemma slot_empty_value t i : slot_empty t i -> slot_value t i = 0.
Proof.
  intros (E0 & E1 & E2 & E3 & _). unfold slot_value.
  rewrite E0, E1, E2, E3. reflexivity.
Qed.

Section FindIndex.
Variable t : Z -> Z.
Variable cube : Z.
Hypothesis t_uchar : uchar_table t.
Hypothesis cube_range : 0 <= cube < 4294967296.

Lemma find_index_loop_stored l : forall i (n : nat),
  (forall k r, nth_error l k = Some r -> slot_is t (i + Z.of_nat k) r) ->
  Forall record_ok l ->
  ((length l < n)%nat -> slot_empty t (i + Z.of_nat (length l))) ->
  (length l <= n)%nat ->
  find_index_loop n t (to_uchar (Z.shiftr cube 24)) (to_uchar (Z.shiftr cube 16))
                  (to_uchar (Z.shiftr cube 8)) (to_uchar cube) i =
  find_index_spec l cube i (length l <? n)%nat.
Proof.
  induction l as [|r rest IH]; intros i n Hst Hok Hroom Hlen.
  - destruct n as [|n]; [reflexivity|].
    rewrite find_index_loop_step by (try exact t_uchar; apply to_uchar_range).
    cbv zeta. cbn [length] in Hroom. rewrite Z.add_0_r in Hroom.
    rewrite (slot_empty_value t i) by (apply Hroom; lia). reflexivity.
  - destruct n as [|n]; [cbn [length] in Hlen; lia|].
    rewrite find_index_loop_step by (try exact t_uchar; apply to_uchar_range).
    cbv zeta. rewrite (cube_bytes cube cube_range).
    pose proof (Forall_inv Hok) as [Hr _].
    pose proof (Hst O r eq_refl) as Hs. rewrite Z.add_0_r in Hs.
    rewrite (slot_is_value t i r Hs) by lia.
    destruct (Z.eqb_spec (fst r) 0); [lia|].
    cbn [find_index_spec]. destruct (fst r <? cube) eqn:E.
    + rewrite IH.
      * cbn [length]. reflexivity.
      * intros k r' Hk. replace (i + 1 + Z.of_nat k) with (i + Z.of_nat (S k)) by lia.
        apply Hst. exact Hk.
      * exact (Forall_inv_tail Hok).
      * intros Hl. replace (i + 1 + Z.of_nat (length rest))
          with (i + Z.of_nat (length (r :: rest))) by (cbn [length]; lia).
        apply Hroom. cbn [length]. lia.
      * cbn [length] in Hlen. lia.
    + rewrite Z.gtb_ltb. reflexivity.
Qed.

Lemma find_index_represents l :
  represents t l -> Forall record_ok l ->
  find_index t cube =
  find_index_spec l cube 0 (Z.of_nat (length l) <? NUMBER_OF_CUBES).
Proof.
  intros (Hlen & Hst & Hemp) Hok. unfold find_index.
  rewrite (find_index_loop_stored l).
  - f_equal. destruct (Z.ltb_spec (Z.of_nat (length l)) NUMBER_OF_CUBES);
      [apply Nat.ltb_lt|apply Nat.ltb_ge]; lia.
  - intros k r Hk. rewrite Z.add_0_l. apply Hst. exact Hk.
  - exact Hok.
  - intros Hl. rewrite Z.add_0_l. apply Hemp. lia.
  - lia.
Qed.
End FindIndex.

Lemma find_index_spec_position l cube : forall i room,
  find_index_spec l cube i room =
  match nth_error l (insert_position cube l) with
  | Some r => if cube <? fst r then Some (i + Z.of_nat (insert_position cube l))
              else Some (-1)
  | None => if room then Some (i + Z.of_nat (insert_position cube l)) else None
  end.
Proof.
  induction l as [|r rest IH]; intros i room.
  - cbn. rewrite Z.add_0_r. reflexivity.
  - cbn [find_index_spec insert_position]. destruct (fst r <? cube) eqn:E.
    + rewrite IH. cbn [nth_error].
      replace (i + 1 + Z.of_nat (insert_position cube rest))
        with (i + Z.of_nat (S (insert_position cube rest))) by lia.
      reflexivity.
    + cbn [nth_error]. rewrite Z.add_0_r. reflexivity.
Qed.

Lemma insert_position_le cube l : (insert_position cube l <= length l)%nat.
Proof.
  induction l as [|r rest IH]; cbn; [lia|]. destruct (fst r <? cube); lia.
Qed.

Lemma insert_record_split r l :
  insert_record r l =
  firstn (insert_position (fst r) l) l ++ r :: skipn (insert_position (fst r) l) l.
Proof.
  induction l as [|r' rest IH]; [reflexivity|].
  cbn [insert_record insert_position]. destruct (fst r' <? fst r).
  - cbn [firstn skipn app]. rewrite IH. reflexivity.
  - reflexivity.
Qed.

Lemma insert_record_length r l : length (insert_record r l) = S (length l).
Proof.
  induction l as [|r' rest IH]; [reflexivity|].
  cbn [insert_record]. destruct (fst r' <? fst r); cbn [length]; lia.
Qed.

Lemma insert_record_cubes r l c :
  In c (cubes (insert_record r l)) <-> c = fst r \/ In c (cubes l).
Proof.
  induction l as [|r' rest IH]; [cbn; intuition|].
  cbn [insert_record]. destruct (fst r' <? fst r).
  - cbn [cubes map In] in *. rewrite IH. intuition.
  - cbn [cubes map In]. intuition.
Qed.

Lemma insert_record_in r l x :
  In x (insert_record r l) <-> x = r \/ In x l.
Proof.
  induction l as [|r' rest IH]; [cbn; intuition|].
  cbn [insert_record]. destruct (fst r' <? fst r).
  - cbn [In]. rewrite IH. intuition.
  - cbn [In]. intuition.
Qed.

Lemma insert_record_ascending r l :
  ascending l -> ~ In (fst r) (cubes l) -> ascending (insert_record r l).
Proof.
  unfold ascending. induction l as [|r' rest IH]; intros Hs Hn.
  - cbn. constructor; constructor.
  - cbn [cubes map] in Hs. apply StronglySorted_inv in Hs. destruct Hs as [Hs Hall].
    cbn [insert_record]. destruct (Z.ltb_spec (fst r') (fst r)).
    + cbn [cubes map]. constructor.
      * apply IH; [exact Hs|]. intros Hin. apply Hn. right. exact Hin.
      * apply Forall_forall. intros c Hc.
        apply (insert_record_cubes r rest c) in Hc. destruct Hc as [->|Hc]; [lia|].
        rewrite Forall_forall in Hall. apply Hall. exact Hc.
    + assert (fst r < fst r') as Hlt.
      { destruct (Z.eq_dec (fst r) (fst r')) as [E|E]; [|lia].
        exfalso. apply Hn. left. symmetry. exact E. }
      cbn [cubes map]. constructor.
      * constructor; assumption.
      * constructor; [exact Hlt|].
        rewrite Forall_forall in *. intros c Hc. specialize (Hall c Hc). lia.
Qed.

(** On ascending records the scan tells membership. *)
Lemma find_index_spec_present l cube : forall i room,
  ascending l -> In cube (cubes l) -> find_index_spec l cube i room = Some (-1).
Proof.
  unfold ascending. induction l as [|r rest IH]; intros i room Hs Hin; [destruct Hin|].
  cbn [cubes map] in Hs. apply StronglySorted_inv in Hs. destruct Hs as [Hs Hall].
  cbn [find_index_spec]. destruct Hin as [<-|Hin].
  - rewrite Z.ltb_irrefl. reflexivity.
  - rewrite Forall_forall in Hall. specialize (Hall cube Hin).
    destruct (Z.ltb_spec (fst r) cube); [|lia]. apply IH; assumption.
Qed.

Lemma find_index_spec_absent l cube : forall i,
  ~ In cube (cubes l) ->
  find_index_spec l cube i true = Some (i + Z.of_nat (insert_position cube l)).
Proof.
  induction l as [|r rest IH]; intros i Hn.
  - cbn. rewrite Z.add_0_r. reflexivity.
  - cbn [find_index_spec insert_position]. destruct (Z.ltb_spec (fst r) cube).
    + rewrite IH by (intros Hin; apply Hn; right; exact Hin). f_equal. lia.
    + destruct (Z.ltb_spec cube (fst r)).
      * rewrite Z.add_0_r. reflexivity.
      * exfalso. apply Hn. left. lia.
Qed.

(** ** [add_state] *)

Lemma add_state_found t cube turn :
  find_index t cube = Some (-1) -> add_state t cube turn = Some (t, 0).
Proof. intros H. unfold add_state. rewrite H. reflexivity. Qed.

Lemma add_state_insert t cube turn index :
  find_index t cube = Some index -> index <> -1 ->
  add_state t cube turn = Some (write_record t index cube turn, 1).
Proof.
  intros H Hi. unfold add_state. rewrite H. cbn [obind].
  destruct (Z.eqb_spec index (-1)); [contradiction|reflexivity].
Qed.

Lemma add_state_undefined t cube turn :
  find_index t cube = None -> add_state t cube turn = None.
Proof. intros H. unfold add_state. rewrite H. reflexivity. Qed.

Lemma write_record_uchar t index cube turn :
  0 <= index < NUMBER_OF_CUBES -> uchar_table t ->
  uchar_table (write_record t index cube turn).
Proof.
  intros Hi Ht. unfold write_record.
  repeat apply store_uchar; try apply to_uchar_range.
  apply shift_data_up_uchar; assumption.
Qed.

(** Byte [j] of record [i] after the insertion at [index]. *)
Lemma write_record_below t index cube turn i j :
  0 <= index < NUMBER_OF_CUBES -> 0 <= j < 5 -> i < index ->
  write_record t index cube turn (i * 5 + j) = t (i * 5 + j).
Proof.
  intros Hi Hj Hlt. unfold write_record.
  rewrite !store_other by lia. rewrite shift_data_up_spec by exact Hi.
  destruct (Z.leb_spec (index * 5 + 5) (i * 5 + j)); [lia|reflexivity].
Qed.

Lemma write_record_above t index cube turn i j :
  0 <= index < NUMBER_OF_CUBES -> 0 <= j < 5 -> index < i < NUMBER_OF_CUBES ->
  write_record t index cube turn (i * 5 + j) = t ((i - 1) * 5 + j).
Proof.
  intros Hi Hj Hlt. unfold write_record.
  rewrite !store_other by lia. rewrite shift_data_up_spec by exact Hi.
  destruct (Z.leb_spec (index * 5 + 5) (i * 5 + j)); [|lia].
  destruct (Z.ltb_spec (i * 5 + j) (NUMBER_OF_CUBES * 5)); [|lia].
  cbn [andb]. f_equal. lia.
Qed.

Lemma write_record_at t index cube turn :
  slot_is (write_record t index cube turn) index (cube, to_uchar turn).
Proof.
  unfold slot_is, write_record. cbn [fst snd].
  repeat split.
  - rewrite !store_other by lia. apply store_same.
  - rewrite !store_other by lia. apply store_same.
  - rewrite !store_other by lia. apply store_same.
  - rewrite !store_other by lia. apply store_same.
  - apply store_same.
Qed.

Lemma slot_is_ext t t' i i' r :
  (forall j, 0 <= j < 5 -> t' (i' * 5 + j) = t (i * 5 + j)) ->
  slot_is t i r -> slot_is t' i' r.
Proof.
  intros H (E0 & E1 & E2 & E3 & E4). unfold slot_is.
  pose proof (H 0 ltac:(lia)) as H0. rewrite !Z.add_0_r in H0.
  rewrite H0, !H by lia. auto.
Qed.

Lemma slot_empty_ext t t' i i' :
  (forall j, 0 <= j < 5 -> t' (i' * 5 + j) = t (i * 5 + j)) ->
  slot_empty t i -> slot_empty t' i'.
Proof.
  intros H (E0 & E1 & E2 & E3 & E4). unfold slot_empty.
  pose proof (H 0 ltac:(lia)) as H0. rewrite !Z.add_0_r in H0.
  rewrite H0, !H by lia. auto.
Qed.

Lemma write_record_represents t l cube turn :
  represents t l -> Z.of_nat (length l) < NUMBER_OF_CUBES ->
  represents (write_record t (Z.of_nat (insert_position cube l)) cube turn)
             (insert_record (cube, to_uchar turn) l).
Proof.
  intros (Hlen & Hst & Hemp) Hroom.
  pose proof (insert_position_le cube l) as Hp.
  set (p := insert_position cube l) in *.
  assert (0 <= Z.of_nat p < NUMBER_OF_CUBES) as Hidx by lia.
  split; [rewrite insert_record_length; lia|]. split.
  - intros k r Hk. rewrite insert_record_split in Hk. cbn [fst] in Hk. fold p in Hk.
    destruct (Nat.lt_ge_cases k p) as [Hlt|Hge].
    + rewrite nth_error_app1 in Hk by (rewrite length_firstn; lia).
      rewrite nth_error_firstn in Hk.
      destruct (Nat.ltb_spec k p); [|lia].
      apply (slot_is_ext t _ (Z.of_nat k)); [|apply Hst; exact Hk].
      intros j Hj. apply write_record_below; lia.
    + rewrite nth_error_app2 in Hk by (rewrite length_firstn; lia).
      rewrite length_firstn in Hk. replace (Nat.min p (length l)) with p in Hk by lia.
      destruct (k - p)%nat as [|d] eqn:Ed.
      * cbn [nth_error] in Hk. injection Hk as <-.
        replace k with p by lia. apply write_record_at.
      * cbn [nth_error] in Hk. rewrite nth_error_skipn in Hk.
        assert (p + d < length l)%nat as Hd.
        { apply nth_error_Some. rewrite Hk. discriminate. }
        apply (slot_is_ext t _ (Z.of_nat (p + d))); [|apply Hst; exact Hk].
        intros j Hj. rewrite write_record_above by lia. f_equal. lia.
  - intros i Hi. rewrite insert_record_length in Hi.
    apply (slot_empty_ext t _ (i - 1)); [|apply Hemp; lia].
    intros j Hj. apply write_record_above; lia.
Qed.

Section AddState.
Variables (t : Z -> Z) (l : list record) (cube turn : Z).
Hypothesis t_uchar : uchar_table t.
Hypothesis t_repr : represents t l.
Hypothesis l_ok : Forall record_ok l.
Hypothesis cube_range : 0 < cube < 2147483648.

Lemma add_state_present :
  ascending l -> In cube (cubes l) -> add_state t cube turn = Some (t, 0).
Proof.
  intros Hs Hin. apply add_state_found.
  rewrite (find_index_represents t cube t_uchar ltac:(lia) l t_repr l_ok).
  apply find_index_spec_present; assumption.
Qed.

Lemma add_state_absent :
  ~ In cube (cubes l) -> Z.of_nat (length l) < NUMBER_OF_CUBES ->
  exists t',
    add_state t cube turn = Some (t', 1) /\ uchar_table t' /\
    represents t' (insert_record (cube, to_uchar turn) l).
Proof.
  intros Hn Hroom.
  pose proof (insert_position_le cube l) as Hp.
  exists (write_record t (Z.of_nat (insert_position cube l)) cube turn).
  split; [|split].
  - apply add_state_insert; [|lia].
    rewrite (find_index_represents t cube t_uchar ltac:(lia) l t_repr l_ok).
    destruct (Z.ltb_spec (Z.of_nat (length l)) NUMBER_OF_CUBES); [|lia].
    rewrite find_index_spec_absent by exact Hn. f_equal.
  - apply write_record_uchar; [lia|exact t_uchar].
  - apply write_record_represents; assumption.
Qed.
End AddState.

(** ** Configurations of the puzzle *)

Lemma turn_shape_check_ok : turn_shape_check = true.
Proof. vm_compute. reflexivity. Qed.

Lemma turn_tuple_check_ok : forall_positions turn_tuple_ok = true.
Proof. vm_cast_no_check (eq_refl true). Qed.

Lemma turn_shape turn s s' :
  0 <= turn < 6 -> 0 <= s < 21 -> turn_table_get turn s = Some s' ->
  s' / 3 = turn_position turn (s / 3) /\
  (s' - s - turn_twist turn (s / 3)) mod 3 = 0.
Proof.
  intros Ht Hs E. pose proof turn_shape_check_ok as H.
  unfold turn_shape_check in H. rewrite forallb_forall in H.
  specialize (H turn (In_zrange 6 turn Ht)). rewrite forallb_forall in H.
  specialize (H s (In_zrange 21 s Hs)). rewrite E in H.
  apply andb_true_iff in H. destruct H as [H1 H2].
  apply Z.eqb_eq in H1, H2. split; assumption.
Qed.

Lemma forall_positions_spec f :
  forall_positions f = true ->
  forall p0 p1 p2 p3 p4 p5 p6,
    0 <= p0 < 7 -> 0 <= p1 < 7 -> 0 <= p2 < 7 -> 0 <= p3 < 7 ->
    0 <= p4 < 7 -> 0 <= p5 < 7 -> 0 <= p6 < 7 ->
    f p0 p1 p2 p3 p4 p5 p6 = true.
Proof.
  intros H p0 p1 p2 p3 p4 p5 p6 H0 H1 H2 H3 H4 H5 H6.
  unfold forall_positions in H.
  rewrite forallb_forall in H. specialize (H p0 (In_zrange 7 p0 H0)).
  rewrite forallb_forall in H. specialize (H p1 (In_zrange 7 p1 H1)).
  rewrite forallb_forall in H. specialize (H p2 (In_zrange 7 p2 H2)).
  rewrite forallb_forall in H. specialize (H p3 (In_zrange 7 p3 H3)).
  rewrite forallb_forall in H. specialize (H p4 (In_zrange 7 p4 H4)).
  rewrite forallb_forall in H. specialize (H p5 (In_zrange 7 p5 H5)).
  rewrite forallb_forall in H. exact (H p6 (In_zrange 7 p6 H6)).
Qed.

Lemma turn_tuple turn p0 p1 p2 p3 p4 p5 p6 :
  0 <= turn < 6 ->
  0 <= p0 < 7 -> 0 <= p1 < 7 -> 0 <= p2 < 7 -> 0 <= p3 < 7 ->
  0 <= p4 < 7 -> 0 <= p5 < 7 -> 0 <= p6 < 7 ->
  distinctb [p0; p1; p2; p3; p4; p5; p6] = true ->
  distinctb [turn_position turn p0; turn_position turn p1;
             turn_position turn p2; turn_position turn p3;
             turn_position turn p4; turn_position turn p5;
             turn_position turn p6] = true /\
  (turn_twist turn p0 + turn_twist turn p1 + turn_twist turn p2 +
   turn_twist turn p3 + turn_twist turn p4 + turn_twist turn p5 +
   turn_twist turn p6) mod 3 = 0.
Proof.
  intros Ht H0 H1 H2 H3 H4 H5 H6 Hd.
  pose proof (forall_positions_spec turn_tuple_ok turn_tuple_check_ok
                p0 p1 p2 p3 p4 p5 p6 H0 H1 H2 H3 H4 H5 H6) as H.
  unfold turn_tuple_ok in H. rewrite Hd in H.
  rewrite forallb_forall in H. specialize (H turn (In_zrange 6 turn Ht)).
  apply andb_true_iff in H. destruct H as [Ha Hb].
  apply Z.eqb_eq in Hb. split; assumption.
Qed.

Lemma digit_position cube i : 0 <= digit cube i / 3 < 7.
Proof. pose proof (digit_range cube i). Z.div_mod_to_equations. lia. Qed.

Lemma rotate_valid cube turn cube' :
  valid cube -> 0 <= turn < 6 -> rotate cube turn = Some cube' -> valid cube'.
Proof.
  intros (Hs & Hd & Hw) Ht Hr.
  destruct (rotate_in_space cube turn Hs Ht) as (c1 & E1 & S1 & D1).
  rewrite Hr in E1. injection E1 as <-.
  assert (forall i, 0 <= i < 7 ->
            digit cube' i / 3 = turn_position turn (digit cube i / 3) /\
            (digit cube' i - digit cube i - turn_twist turn (digit cube i / 3))
              mod 3 = 0) as Hsh.
  { intros i Hi. apply turn_shape; [exact Ht|apply digit_range|apply D1; exact Hi]. }
  destruct (turn_tuple turn _ _ _ _ _ _ _ Ht
              (digit_position cube 0) (digit_position cube 1)
              (digit_position cube 2) (digit_position cube 3)
              (digit_position cube 4) (digit_position cube 5)
              (digit_position cube 6) Hd) as [Hd' Hw'].
  destruct (Hsh 0 ltac:(lia)) as [P0 W0]. destruct (Hsh 1 ltac:(lia)) as [P1 W1].
  destruct (Hsh 2 ltac:(lia)) as [P2 W2]. destruct (Hsh 3 ltac:(lia)) as [P3 W3].
  destruct (Hsh 4 ltac:(lia)) as [P4 W4]. destruct (Hsh 5 ltac:(lia)) as [P5 W5].
  destruct (Hsh 6 ltac:(lia)) as [P6 W6].
  split; [exact S1|]. split.
  - unfold positions. rewrite P0, P1, P2, P3, P4, P5, P6. exact Hd'.
  - unfold twist in *.
    clear - Hw Hw' W0 W1 W2 W3 W4 W5 W6.
    Z.div_mod_to_equations. lia.
Qed.

Lemma solved_valid : valid SOLVED_CUBE.
Proof. split; [exact solved_in_space|]. split; vm_compute; reflexivity. Qed.

Lemma reachable_valid cube : reachable cube -> valid cube.
Proof.
  induction 1 as [|c t c' _ IH Ht Hr]; [exact solved_valid|].
  exact (rotate_valid c t c' IH Ht Hr).
Qed.

Lemma valid_positive cube : valid cube -> 0 < cube < 2147483648.
Proof.
  intros (Hs & Hd & _). unfold in_space, c21_6 in Hs.
  destruct (Z.eq_dec cube 0) as [->|Hn]; [|lia].
  vm_compute in Hd. discriminate.
Qed.

(** ** There are at most [NUMBER_OF_CUBES] configurations of the puzzle *)

Lemma tuples_complete l :
  Forall (fun p => 0 <= p < 7) l -> In l (tuples (length l)).
Proof.
  induction 1 as [|p l Hp _ IH]; [left; reflexivity|].
  cbn [length tuples]. apply in_flat_map. exists p. split.
  - apply In_zrange. exact Hp.
  - apply in_map. exact IH.
Qed.

Lemma arrangements_length : Z.of_nat (length arrangements) = 5040.
Proof. vm_cast_no_check (eq_refl 5040). Qed.

Lemma positions_arrangement cube :
  distinctb (positions cube) = true -> In (positions cube) arrangements.
Proof.
  intros H. unfold arrangements. apply filter_In. split; [|exact H].
  apply (tuples_complete (positions cube)).
  unfold positions. repeat constructor; apply digit_position.
Qed.

Lemma index_of_lt x l : In x l -> (index_of x l < length l)%nat.
Proof.
  induction l as [|y rest IH]; intros H; [destruct H|].
  cbn [index_of length]. destruct (list_eq_dec Z.eq_dec x y); [lia|].
  destruct H as [->|H]; [contradiction|]. specialize (IH H). lia.
Qed.

Lemma index_of_inj x y l :
  In x l -> In y l -> index_of x l = index_of y l -> x = y.
Proof.
  induction l as [|z rest IH]; intros Hx Hy E; [destruct Hx|].
  cbn [index_of] in E.
  destruct (list_eq_dec Z.eq_dec x z) as [->|Nx];
    destruct (list_eq_dec Z.eq_dec y z) as [->|Ny]; try discriminate.
  - reflexivity.
  - destruct Hx as [->|Hx]; [contradiction|].
    destruct Hy as [->|Hy]; [contradiction|].
    apply IH; [assumption..|]. lia.
Qed.

Lemma orientation_code_range cube : 0 <= orientation_code cube < 729.
Proof.
  unfold orientation_code.
  pose proof (Z.mod_pos_bound (digit cube 0) 3 ltac:(lia)).
  pose proof (Z.mod_pos_bound (digit cube 1) 3 ltac:(lia)).
  pose proof (Z.mod_pos_bound (digit cube 2) 3 ltac:(lia)).
  pose proof (Z.mod_pos_bound (digit cube 3) 3 ltac:(lia)).
  pose proof (Z.mod_pos_bound (digit cube 4) 3 ltac:(lia)).
  pose proof (Z.mod_pos_bound (digit cube 5) 3 ltac:(lia)).
  lia.
Qed.

Lemma rank_range cube : valid cube -> 0 <= rank cube < NUMBER_OF_CUBES.
Proof.
  intros (_ & Hd & _). unfold rank, NUMBER_OF_CUBES.
  pose proof (index_of_lt _ _ (positions_arrangement cube Hd)) as Hi.
  pose proof arrangements_length as Hl.
  pose proof (orientation_code_range cube) as Ho.
  set (i := index_of (positions cube) arrangements) in *.
  set (n := length arrangements) in *. clearbody i n. lia.
Qed.

Lemma base3_eq x0 x1 x2 x3 x4 x5 y0 y1 y2 y3 y4 y5 :
  0 <= x0 < 3 -> 0 <= x1 < 3 -> 0 <= x2 < 3 -> 0 <= x3 < 3 -> 0 <= x4 < 3 ->
  0 <= x5 < 3 ->
  0 <= y0 < 3 -> 0 <= y1 < 3 -> 0 <= y2 < 3 -> 0 <= y3 < 3 -> 0 <= y4 < 3 ->
  0 <= y5 < 3 ->
  x0 + x1 * 3 + x2 * 9 + x3 * 27 + x4 * 81 + x5 * 243 =
  y0 + y1 * 3 + y2 * 9 + y3 * 27 + y4 * 81 + y5 * 243 ->
  x0 = y0 /\ x1 = y1 /\ x2 = y2 /\ x3 = y3 /\ x4 = y4 /\ x5 = y5.
Proof.
  intros. assert (x0 = y0) by lia. assert (x1 = y1) by lia.
  assert (x2 = y2) by lia. assert (x3 = y3) by lia. assert (x4 = y4) by lia.
  repeat split; lia.
Qed.

Lemma digit_split d e :
  d / 3 = e / 3 -> d mod 3 = e mod 3 -> d = e.
Proof.
  intros H1 H2. rewrite (Z.div_mod d 3), (Z.div_mod e 3) by lia. congruence.
Qed.

Lemma rank_injective a b : valid a -> valid b -> rank a = rank b -> a = b.
Proof.
  intros (Sa & Da & Wa) (Sb & Db & Wb) E. unfold rank in E.
  pose proof (index_of_lt _ _ (positions_arrangement a Da)) as Ia.
  pose proof (index_of_lt _ _ (positions_arrangement b Db)) as Ib.
  pose proof (orientation_code_range a) as Oa.
  pose proof (orientation_code_range b) as Ob.
  assert (index_of (positions a) arrangements = index_of (positions b) arrangements
          /\ orientation_code a = orientation_code b) as [Ei Eo].
  { set (ia := index_of (positions a) arrangements) in *.
    set (ib := index_of (positions b) arrangements) in *.
    clearbody ia ib. clear Ia Ib. lia. }
  clear Ia Ib E Oa Ob.
  apply index_of_inj in Ei;
    [|apply positions_arrangement; exact Da|apply positions_arrangement; exact Db].
  unfold positions in Ei.
  injection Ei as P0 P1 P2 P3 P4 P5 P6.
  unfold orientation_code in Eo.
  apply base3_eq in Eo; try (apply Z.mod_pos_bound; lia).
  destruct Eo as (O0 & O1 & O2 & O3 & O4 & O5).
  pose proof (digit_split _ _ P0 O0) as E0. pose proof (digit_split _ _ P1 O1) as E1.
  pose proof (digit_split _ _ P2 O2) as E2. pose proof (digit_split _ _ P3 O3) as E3.
  pose proof (digit_split _ _ P4 O4) as E4. pose proof (digit_split _ _ P5 O5) as E5.
  assert (digit a 6 = digit b 6) as E6.
  { apply digit_split; [exact P6|].
    unfold twist in Wa, Wb. rewrite E0, E1, E2, E3, E4, E5 in Wa.
    clear - Wa Wb. Z.div_mod_to_equations. lia. }
  apply digits_eq; trivial. apply index_cases_7; assumption.
Qed.

Lemma NoDup_map_on {A B : Type} (f : A -> B) (l : list A) :
  (forall x y, In x l -> In y l -> f x = f y -> x = y) ->
  NoDup l -> NoDup (map f l).
Proof.
  intros Hinj Hnd. induction Hnd as [|x l Hx Hnd IH]; [constructor|].
  cbn [map]. constructor.
  - intros Hin. apply in_map_iff in Hin. destruct Hin as (y & E & Hy).
    apply Hx. rewrite (Hinj x y); [exact Hy|left; reflexivity|right; exact Hy|].
    symmetry. exact E.
  - apply IH. intros a b Ha Hb. apply Hinj; right; assumption.
Qed.

Lemma valid_count (l : list Z) :
  NoDup l -> Forall valid l -> Z.of_nat (length l) <= NUMBER_OF_CUBES.
Proof.
  intros Hnd Hv. rewrite Forall_forall in Hv.
  assert (NoDup (map rank l)) as Hr.
  { apply NoDup_map_on; [|exact Hnd].
    intros x y Hx Hy. apply rank_injective; apply Hv; assumption. }
  assert (incl (map rank l) (zrange (Z.to_nat NUMBER_OF_CUBES))) as Hi.
  { intros r Hin. apply in_map_iff in Hin. destruct Hin as (x & <- & Hx).
    apply In_zrange. pose proof (rank_range x (Hv x Hx)) as Hr'.
    unfold NUMBER_OF_CUBES in *. lia. }
  pose proof (NoDup_incl_length Hr Hi) as Hl.
  unfold zrange in Hl. rewrite !length_map, length_seq in Hl.
  unfold NUMBER_OF_CUBES in *. lia.
Qed.

(** ** The build on records and a FIFO *)

Lemma existsb_cubes c l : existsb (Z.eqb c) (cubes l) = true <-> In c (cubes l).
Proof.
  rewrite existsb_exists. split.
  - intros (x & Hx & E). apply Z.eqb_eq in E. subst. exact Hx.
  - intros H. exists c. split; [exact H|apply Z.eqb_refl].
Qed.

Lemma ascending_NoDup l : ascending l -> NoDup (cubes l).
Proof.
  unfold ascending. induction 1 as [|c cs Hs IH Hall]; constructor; [|exact IH].
  intros Hin. rewrite Forall_forall in Hall. specialize (Hall c Hin). lia.
Qed.

Lemma NoDup_snoc {A : Type} (l : list A) (x : A) :
  NoDup l -> ~ In x l -> NoDup (l ++ [x]).
Proof.
  induction 1 as [|y l Hy Hnd IH]; intros Hx; cbn [app].
  - constructor; [intros []|constructor].
  - constructor.
    + rewrite in_app_iff. intros [H|[H|[]]]; [contradiction|].
      apply Hx. left. symmetry. exact H.
    + apply IH. intros H. apply Hx. right. exact H.
Qed.

Lemma entry_record_ok r : entry_ok r -> record_ok r.
Proof.
  intros [Hr Ht]. split; [|lia]. apply valid_positive, reachable_valid, Hr.
Qed.

Lemma entries_record_ok l : Forall entry_ok l -> Forall record_ok l.
Proof. apply Forall_impl. exact entry_record_ok. Qed.

Lemma entries_valid l : Forall entry_ok l -> Forall valid (cubes l).
Proof.
  intros H. unfold cubes. apply Forall_map. revert H. apply Forall_impl.
  intros r [Hr _]. apply reachable_valid, Hr.
Qed.

(** A configuration of the puzzle that is not recorded finds room. *)
Lemma room_for_new l c :
  ascending l -> Forall entry_ok l -> reachable c -> ~ In c (cubes l) ->
  Z.of_nat (length l) < NUMBER_OF_CUBES.
Proof.
  intros Hs Hok Hc Hn.
  assert (Z.of_nat (length (c :: cubes l)) <= NUMBER_OF_CUBES) as H.
  { apply valid_count.
    - constructor; [exact Hn|apply ascending_NoDup; exact Hs].
    - constructor; [apply reachable_valid; exact Hc|apply entries_valid; exact Hok]. }
  cbn [length] in H. unfold cubes in H. rewrite length_map in H. lia.
Qed.

Lemma frontier_ok_record_cube st ct :
  frontier_ok st -> entry_ok ct -> frontier_ok (record_cube st ct).
Proof.
  intros (Hs & Hok & Hnd & Hsub) Hct. unfold record_cube.
  destruct (existsb (Z.eqb (fst ct)) (cubes (fst st))) eqn:E;
    [repeat split; assumption|].
  assert (~ In (fst ct) (cubes (fst st))) as Hn.
  { intros H. apply existsb_cubes in H. congruence. }
  repeat split; cbn [fst snd].
  - apply insert_record_ascending; assumption.
  - apply Forall_forall. intros r Hr. apply insert_record_in in Hr.
    destruct Hr as [->|Hr]; [apply Hct|]. rewrite Forall_forall in Hok.
    apply Hok. exact Hr.
  - apply NoDup_snoc; [exact Hnd|]. intros H. apply Hn, Hsub, H.
  - intros x Hx. apply insert_record_cubes. apply in_app_iff in Hx.
    destruct Hx as [Hx|[<-|[]]]; [right; apply Hsub; exact Hx|left; reflexivity].
Qed.

Lemma record_cube_grows st ct :
  incl (fst st) (fst (record_cube st ct)) /\
  In (fst ct) (cubes (fst (record_cube st ct))) /\
  (forall c, In c (cubes (fst (record_cube st ct))) ->
             In c (cubes (fst st)) \/ In c (snd (record_cube st ct))) /\
  (forall x, In x (snd st) -> In x (snd (record_cube st ct))) /\
  (length (fst (record_cube st ct)) + length (snd st) =
   length (fst st) + length (snd (record_cube st ct)))%nat.
Proof.
  unfold record_cube.
  destruct (existsb (Z.eqb (fst ct)) (cubes (fst st))) eqn:E; cbn [fst snd].
  - split; [apply incl_refl|]. split; [apply existsb_cubes; exact E|].
    split; [intros c Hc; left; exact Hc|]. split; [auto|reflexivity].
  - split; [intros r Hr; apply insert_record_in; right; exact Hr|].
    split; [apply insert_record_cubes; left; reflexivity|]. split.
    { intros c Hc. apply insert_record_cubes in Hc.
      destruct Hc as [->|Hc]; [right|left; exact Hc].
      apply in_app_iff. right. left. reflexivity. }
    split; [intros x Hx; apply in_app_iff; left; exact Hx|].
    rewrite insert_record_length, length_app. cbn [length]. lia.
Qed.

Lemma fold_record_cube cts : forall st,
  frontier_ok st -> Forall entry_ok cts ->
  let st' := fold_left record_cube cts st in
  frontier_ok st' /\ incl (fst st) (fst st') /\
  (forall ct, In ct cts -> In (fst ct) (cubes (fst st'))) /\
  (forall c, In c (cubes (fst st')) -> In c (cubes (fst st)) \/ In c (snd st')) /\
  (forall x, In x (snd st) -> In x (snd st')) /\
  (length (fst st') + length (snd st) = length (fst st) + length (snd st'))%nat.
Proof.
  induction cts as [|ct cts IH]; intros st Hst Hcts; cbn [fold_left]; cbv zeta.
  - split; [exact Hst|]. split; [apply incl_refl|]. split; [intros ct []|].
    split; [intros c Hc; left; exact Hc|]. split; [auto|reflexivity].
  - pose proof (Forall_inv Hcts) as Hct. pose proof (Forall_inv_tail Hcts) as Hcts'.
    pose proof (frontier_ok_record_cube st ct Hst Hct) as Hst1.
    destruct (record_cube_grows st ct) as (G1 & G2 & G3 & G4 & G5).
    destruct (IH (record_cube st ct) Hst1 Hcts') as (F0 & F1 & F2 & F3 & F4 & F5).
    split; [exact F0|]. split; [eapply incl_tran; eassumption|]. split.
    { intros c [<-|Hc]; [|apply F2; exact Hc].
      unfold cubes in *. apply in_map_iff in G2. destruct G2 as (r & Er & Hr).
      apply in_map_iff. exists r. split; [exact Er|]. apply F1. exact Hr. }
    split.
    { intros c Hc. destruct (F3 c Hc) as [H|H]; [|right; exact H].
      destruct (G3 c H) as [H'|H']; [left; exact H'|right; apply F4; exact H']. }
    split; [intros x Hx; apply F4, G4, Hx|]. lia.
Qed.

Lemma neighbours_spec this_cube :
  reachable this_cube ->
  exists cts,
    neighbours this_cube = Some cts /\ Forall entry_ok cts /\
    forall turn c, 0 <= turn < 6 -> rotate this_cube turn = Some c ->
                   In c (map fst cts).
Proof.
  intros Hr. pose proof (reachable_in_space _ Hr) as Hs.
  unfold neighbours, frontC, frontCC, leftC, leftCC, topC, topCC.
  destruct (rotate_in_space this_cube 0 Hs ltac:(lia)) as (c0 & E0 & _).
  destruct (rotate_in_space this_cube 1 Hs ltac:(lia)) as (c1 & E1 & _).
  destruct (rotate_in_space this_cube 2 Hs ltac:(lia)) as (c2 & E2 & _).
  destruct (rotate_in_space this_cube 3 Hs ltac:(lia)) as (c3 & E3 & _).
  destruct (rotate_in_space this_cube 4 Hs ltac:(lia)) as (c4 & E4 & _).
  destruct (rotate_in_space this_cube 5 Hs ltac:(lia)) as (c5 & E5 & _).
  rewrite E0, E1, E2, E3, E4, E5. cbn [obind]. eexists. split; [reflexivity|].
  split.
  - repeat constructor; cbn [fst snd]; try lia;
      eapply reach_turn; try exact Hr; try eassumption; lia.
  - intros turn c Ht Hc. cbn [map fst].
    assert (turn = 0 \/ turn = 1 \/ turn = 2 \/ turn = 3 \/ turn = 4 \/ turn = 5)
      as Hcase by lia.
    destruct Hcase as [->|[->|[->|[->|[->| ->]]]]]; cbn [In]; intuition congruence.
Qed.

(** ** The loop of [fill_state_table] carries out the build *)

Lemma discover_refines s l q ct :
  refines s l q -> frontier_ok (l, q) -> entry_ok ct ->
  exists s',
    discover s (fst ct) (snd ct) = Some s' /\
    refines s' (fst (record_cube (l, q) ct)) (snd (record_cube (l, q) ct)).
Proof.
  intros (Hu & Hr & Hw & Hm & Hq & Hc) (Hs & Hok & Hnd & Hsub) [Hct Hturn].
  cbn [fst snd] in *. unfold record_cube, discover. cbn [fst snd].
  pose proof (valid_positive _ (reachable_valid _ Hct)) as Hpos.
  destruct (existsb (Z.eqb (fst ct)) (cubes l)) eqn:E.
  - apply existsb_cubes in E.
    rewrite (add_state_present (table s) l (fst ct) (snd ct) Hu Hr
               (entries_record_ok l Hok) Hpos Hs E).
    cbn [obind fst snd Z.eqb negb]. eexists. split; [reflexivity|].
    unfold refines. cbn [table queue count]. tauto.
  - assert (~ In (fst ct) (cubes l)) as Hn.
    { intros H. apply existsb_cubes in H. congruence. }
    pose proof (room_for_new l (fst ct) Hs Hok Hct Hn) as Hroom.
    destruct (add_state_absent (table s) l (fst ct) (snd ct) Hu Hr
                (entries_record_ok l Hok) Hpos Hn Hroom) as (t' & Ea & Hu' & Hr').
    rewrite Ea. cbn [obind fst snd Z.eqb negb]. eexists. split; [reflexivity|].
    rewrite to_uchar_small in Hr' by lia.
    assert (cells_used (queue s) < max_cells (queue s)) as Hfree.
    { assert (Z.of_nat (length (fst ct :: q)) <= NUMBER_OF_CUBES) as Hl.
      { apply valid_count.
        - constructor; [|exact Hnd]. intros H. apply Hn, Hsub, H.
        - constructor; [apply reachable_valid; exact Hct|].
          apply Forall_forall. intros x Hx.
          pose proof (entries_valid l Hok) as Hv. rewrite Forall_forall in Hv.
          apply Hv, Hsub, Hx. }
      cbn [length] in Hl. destruct Hw as (_ & _ & Hused & _).
      pose proof (contents_length (queue s) ltac:(lia)) as Hcl.
      rewrite Hq in Hcl. lia. }
    destruct (enqueue_spec (queue s) (fst ct) Hw Hfree) as (_ & Hw' & Hq' & Hm').
    unfold refines. cbn [table queue count].
    split; [exact Hu'|]. split; [destruct ct; exact Hr'|].
    split; [exact Hw'|]. split; [congruence|]. split; [congruence|].
    rewrite insert_record_length. lia.
Qed.

Lemma discover_all_refines cts : forall s l q,
  refines s l q -> frontier_ok (l, q) -> Forall entry_ok cts ->
  exists s',
    discover_all s cts = Some s' /\
    refines s' (fst (fold_left record_cube cts (l, q)))
               (snd (fold_left record_cube cts (l, q))).
Proof.
  induction cts as [|ct cts IH]; intros s l q Hr Hf Hcts; cbn [discover_all fold_left].
  - exists s. split; [reflexivity|exact Hr].
  - pose proof (Forall_inv Hcts) as Hct. pose proof (Forall_inv_tail Hcts) as Hcts'.
    destruct (discover_refines s l q ct Hr Hf Hct) as (s1 & E1 & R1).
    rewrite E1. cbn [obind].
    pose proof (frontier_ok_record_cube (l, q) ct Hf Hct) as Hf1.
    destruct (record_cube (l, q) ct) as [l1 q1]. cbn [fst snd] in *.
    apply IH; assumption.
Qed.

Lemma fill_body_discover_all s :
  fill_body s =
  (cts <- neighbours (snd (dequeue (queue s))) ;;
   discover_all {| table := table s; queue := fst (dequeue (queue s));
                   count := count s |} cts).
Proof.
  unfold fill_body, neighbours. destruct (dequeue (queue s)) as [q this_cube].
  cbn [fst snd].
  destruct (frontC this_cube); [|reflexivity]. cbn [obind].
  destruct (frontCC this_cube); [|reflexivity]. cbn [obind].
  destruct (leftC this_cube); [|reflexivity]. cbn [obind].
  destruct (leftCC this_cube); [|reflexivity]. cbn [obind].
  destruct (topC this_cube); [|reflexivity]. cbn [obind].
  destruct (topCC this_cube); [|reflexivity]. cbn [obind discover_all fst snd].
  destruct (discover _ _ 1); [|reflexivity]. cbn [obind].
  destruct (discover _ _ 2); [|reflexivity]. cbn [obind].
  destruct (discover _ _ 3); [|reflexivity]. cbn [obind].
  destruct (discover _ _ 4); [|reflexivity]. cbn [obind].
  destruct (discover _ _ 5); [|reflexivity]. cbn [obind].
  destruct (discover _ _ 6); reflexivity.
Qed.

Lemma build_inv_head l x rest : build_inv (l, x :: rest) -> reachable x.
Proof.
  intros (_ & Hok & _ & Hphase & _). cbn [fst snd] in *.
  destruct Hphase as [[_ E]|[Hsub _]].
  - injection E as -> _. exact reach_solved.
  - specialize (Hsub x (or_introl eq_refl)). unfold cubes in Hsub.
    apply in_map_iff in Hsub. destruct Hsub as (r & <- & Hr).
    rewrite Forall_forall in Hok. apply Hok. exact Hr.
Qed.

Lemma build_inv_frontier l x rest : build_inv (l, x :: rest) -> frontier_ok (l, rest).
Proof.
  intros (Hs & Hok & Hnd & Hphase & _). cbn [fst snd] in *.
  repeat split; cbn [fst snd]; try assumption.
  - apply NoDup_cons_iff in Hnd. apply Hnd.
  - destruct Hphase as [[_ E]|[Hsub _]].
    + injection E as _ ->. intros y [].
    + intros y Hy. apply Hsub. right. exact Hy.
Qed.

Lemma refines_empty_queue s l :
  refines s l [] -> cells_used (queue s) = 0.
Proof.
  intros (_ & _ & Hw & _ & Hq & _). destruct Hw as (_ & _ & Hused & _).
  pose proof (contents_length (queue s) ltac:(lia)) as H. rewrite Hq in H.
  cbn [length] in H. lia.
Qed.

Lemma refines_head s l x rest :
  refines s l (x :: rest) ->
  peek (queue s) = (queue s, x) /\
  snd (dequeue (queue s)) = x /\
  refines {| table := table s; queue := fst (dequeue (queue s));
             count := count s |} l rest.
Proof.
  intros (Hu & Hr & Hw & Hm & Hq & Hc).
  assert (0 < cells_used (queue s)) as Hpos.
  { pose proof Hw as (_ & _ & Hused & _).
    pose proof (contents_length (queue s) ltac:(lia)) as H. rewrite Hq in H.
    cbn [length] in H. lia. }
  destruct (peek_spec (queue s) Hw Hpos) as [P1 P2].
  pose proof (dequeue_spec (queue s) Hw Hpos) as D1.
  pose proof (proj1 (proj2 D1)) as D2.
  rewrite Hq in P2, D2.
  assert (snd (peek (queue s)) = x) as P2' by congruence.
  assert (snd (dequeue (queue s)) = x) as D2' by congruence.
  assert (contents (fst (dequeue (queue s))) = rest) as D2'' by congruence.
  split; [|split].
  - rewrite (surjective_pairing (peek (queue s))), P1, P2'. reflexivity.
  - exact D2'.
  - unfold refines. cbn [table queue count].
    split; [exact Hu|]. split; [exact Hr|]. split; [exact (proj1 D1)|].
    split; [destruct D1 as (_ & _ & ->); exact Hm|]. split; [exact D2''|exact Hc].
Qed.

Lemma fill_step_refines s l x rest :
  refines s l (x :: rest) -> build_inv (l, x :: rest) ->
  exists s' st',
    build_step (l, x :: rest) = Some st' /\
    fill_step s = Some (Running s') /\
    refines s' (fst st') (snd st').
Proof.
  intros Hr Hinv.
  pose proof (build_inv_head l x rest Hinv) as Hx.
  pose proof (build_inv_frontier l x rest Hinv) as Hf.
  destruct (refines_head s l x rest Hr) as (Hpeek & Hdeq & Hr1).
  destruct (neighbours_spec x Hx) as (cts & En & Hcts & _).
  destruct (discover_all_refines cts _ l rest Hr1 Hf Hcts) as (s' & Ed & Hr').
  exists s', (fold_left record_cube cts (l, rest)).
  split; [|split; [|exact Hr']].
  - unfold build_step. cbn [fst snd]. rewrite En. reflexivity.
  - unfold fill_step, fill_guard. rewrite Hpeek.
    pose proof (valid_positive _ (reachable_valid _ Hx)) as Hpos.
    destruct (Z.eqb_spec x 0); [lia|]. cbn [negb].
    rewrite fill_body_discover_all. cbn [queue table count].
    rewrite Hdeq, En. cbn [obind]. rewrite Ed. reflexivity.
Qed.

(** With nothing left in the queue the test of the loop still holds, and
    the body goes on to turn the value [-1]. *)
Lemma rotate_minus_one : rotate (-1) 1 = None.
Proof. reflexivity. Qed.

Lemma fill_step_empty_queue s :
  cells_used (queue s) <= 0 ->
  snd (fill_guard s) = true /\ fill_step s = None.
Proof.
  intros H. unfold fill_step, fill_guard. rewrite (peek_empty _ H).
  cbn [snd negb Z.eqb]. split; [reflexivity|].
  unfold fill_body. cbn [queue table count].
  rewrite dequeue_empty by (cbn [cells_used]; lia).
  unfold frontC. rewrite rotate_minus_one. reflexivity.
Qed.

(** ** Invariants of the build *)

Lemma incl_cubes l l' : incl l l' -> incl (cubes l) (cubes l').
Proof.
  intros H c Hc. unfold cubes in *. apply in_map_iff in Hc.
  destruct Hc as (r & <- & Hr). apply in_map. apply H. exact Hr.
Qed.

Lemma build_step_inv l x rest st' :
  build_inv (l, x :: rest) -> build_step (l, x :: rest) = Some st' ->
  build_inv st' /\ incl l (fst st') /\
  (length (fst st') + length rest = length l + length (snd st'))%nat.
Proof.
  intros Hinv Hstep.
  pose proof (build_inv_head l x rest Hinv) as Hx.
  pose proof (build_inv_frontier l x rest Hinv) as Hf.
  destruct (neighbours_spec x Hx) as (cts & En & Hcts & Hnb).
  unfold build_step in Hstep. cbn [fst snd] in Hstep. rewrite En in Hstep.
  cbn [obind] in Hstep. injection Hstep as <-.
  destruct (fold_record_cube cts (l, rest) Hf Hcts)
    as ((Hs' & Hok' & Hnd' & Hsub') & F1 & F2 & F3 & F4 & F5).
  cbn [fst snd] in *.
  set (st' := fold_left record_cube cts (l, rest)) in *.
  destruct Hinv as (_ & _ & Hnd & Hphase & Hclosed). cbn [fst snd] in *.
  assert (forall turn c, 0 <= turn < 6 -> rotate x turn = Some c ->
                         In c (cubes (fst st'))) as Hnew.
  { intros turn c Ht Hc. specialize (Hnb turn c Ht Hc).
    apply in_map_iff in Hnb. destruct Hnb as (ct & <- & Hct). apply F2. exact Hct. }
  split; [|split; [exact F1|exact F5]].
  split; [exact Hs'|]. split; [exact Hok'|]. split; [exact Hnd'|]. split.
  - right. split; [exact Hsub'|].
    destruct Hphase as [[_ E]|[_ Hseed]].
    + injection E as -> _. exact Hnew.
    + intros turn c Ht Hc. apply (incl_cubes _ _ F1). apply (Hseed turn c Ht Hc).
  - intros c Hc Hnq turn c' Ht Hr.
    destruct (Z.eq_dec c x) as [->|Hne]; [apply (Hnew turn c' Ht Hr)|].
    destruct (F3 c Hc) as [Hold|Hq]; [|contradiction].
    apply (incl_cubes _ _ F1). apply (Hclosed c Hold) with (turn := turn); [|exact Ht|exact Hr].
    intros [E|Hin]; [congruence|]. apply Hnq, F4, Hin.
Qed.

Lemma build_step_defined l x rest :
  build_inv (l, x :: rest) -> exists st', build_step (l, x :: rest) = Some st'.
Proof.
  intros Hinv. destruct (neighbours_spec x (build_inv_head l x rest Hinv))
    as (cts & En & _).
  unfold build_step. cbn [fst snd]. rewrite En. eexists. reflexivity.
Qed.

Lemma build_inv_init : build_inv ([], [SOLVED_CUBE]).
Proof.
  split; [constructor|]. split; [constructor|]. split.
  { constructor; [intros []|constructor]. }
  split; [left; split; reflexivity|]. intros c [].
Qed.

Lemma make_state_table_represents : represents make_state_table [].
Proof.
  split; [cbn; unfold NUMBER_OF_CUBES; lia|]. split.
  - intros k r Hk. destruct k; discriminate.
  - intros i _. unfold slot_empty, make_state_table. tauto.
Qed.

Lemma fill_init_refines : refines (fill_init make_state_table) [] [SOLVED_CUBE].
Proof.
  unfold fill_init.
  assert (0 < NUMBER_OF_CUBES) as Hpos by (unfold NUMBER_OF_CUBES; lia).
  destruct (createQueue_spec NUMBER_OF_CUBES Hpos) as [Hw Hc].
  destruct (enqueue_spec (createQueue NUMBER_OF_CUBES) SOLVED_CUBE Hw Hpos)
    as (_ & Hw' & Hc' & Hm').
  unfold refines. cbn [table queue count].
  split; [intros b; unfold make_state_table; lia|].
  split; [exact make_state_table_represents|]. split; [exact Hw'|].
  split; [exact Hm'|]. split; [rewrite Hc', Hc; reflexivity|reflexivity].
Qed.

(** Every stage of the build satisfies the invariant, is reached by the
    loop, and has dequeued one configuration per iteration. *)
Lemma build_refines n : forall st,
  build n = Some st ->
  build_inv st /\
  (length (fst st) + 1 = n + length (snd st))%nat /\
  exists s, fill_state_table n make_state_table = Some (Running s) /\
            refines s (fst st) (snd st).
Proof.
  induction n as [|n IH]; intros st Hb.
  - cbn [build] in Hb. injection Hb as <-.
    split; [exact build_inv_init|]. split; [reflexivity|].
    exists (fill_init make_state_table). split; [reflexivity|exact fill_init_refines].
  - cbn [build] in Hb. destruct (build n) as [[l q]|] eqn:En; [|discriminate].
    cbn [obind] in Hb. destruct (IH _ eq_refl) as (Hinv & Hacc & s & Es & Hr).
    cbn [fst snd] in *. destruct q as [|x rest]; [discriminate|].
    destruct (build_step_inv l x rest st Hinv Hb) as (Hinv' & _ & Hacc').
    destruct (fill_step_refines s l x rest Hr Hinv) as (s' & st' & Eb & Ef & Hr').
    rewrite Hb in Eb. injection Eb as <-.
    split; [exact Hinv'|]. split; [cbn [length] in Hacc; lia|].
    exists s'. split; [|exact Hr'].
    unfold fill_state_table in *. cbn [fill_iter]. rewrite Es. cbn [obind]. exact Ef.
Qed.

(** Once the queue is found empty the next iteration is not defined, and
    neither is any later one. *)
Lemma build_undefined n :
  build n = None -> fill_state_table n make_state_table = None.
Proof.
  induction n as [|n IH]; intros Hb; [discriminate|].
  cbn [build] in Hb. unfold fill_state_table in *. cbn [fill_iter].
  destruct (build n) as [[l q]|] eqn:En.
  - destruct (build_refines n _ En) as (Hinv & _ & s & Es & Hr).
    cbn [obind fst snd] in *. unfold fill_state_table in Es. rewrite Es. cbn [obind].
    destruct q as [|x rest].
    + apply fill_step_empty_queue. rewrite (refines_empty_queue s l Hr). lia.
    + destruct (build_step_defined l x rest Hinv) as (st' & E). congruence.
  - rewrite (IH eq_refl). reflexivity.
Qed.

Lemma build_persists n k : forall st st',
  build n = Some st -> build (k + n) = Some st' -> incl (fst st) (fst st').
Proof.
  induction k as [|k IH]; intros st st' Hn Hk.
  - cbn [Nat.add] in Hk. rewrite Hn in Hk. injection Hk as <-. apply incl_refl.
  - cbn [Nat.add build] in Hk.
    destruct (build (k + n)) as [[l q]|] eqn:Ek; [|discriminate].
    cbn [obind] in Hk. destruct q as [|x rest]; [discriminate|].
    destruct (build_refines _ _ Ek) as (Hinv & _).
    destruct (build_step_inv l x rest st' Hinv Hk) as (_ & Hincl & _).
    eapply incl_tran; [|exact Hincl]. exact (IH st (l, x :: rest) Hn eq_refl).
Qed.

Lemma build_records_bound n st :
  build n = Some st -> Z.of_nat (length (fst st)) <= NUMBER_OF_CUBES.
Proof.
  intros Hb. destruct (build_refines n st Hb) as ((Hs & Hok & _) & _).
  pose proof (valid_count (cubes (fst st)) (ascending_NoDup _ Hs)
                (entries_valid _ Hok)) as H.
  unfold cubes in H. rewrite length_map in H. exact H.
Qed.

(** The frontier runs empty. *)
Lemma build_exhausts : exists n l, build n = Some (l, []).
Proof.
  assert (forall m, (exists n l, build n = Some (l, [])) \/
                    (exists l q, build m = Some (l, q) /\ q <> [])) as H.
  { induction m as [|m IH].
    - right. exists [], [SOLVED_CUBE]. split; [reflexivity|discriminate].
    - destruct IH as [IH|(l & q & Hb & Hq)]; [left; exact IH|].
      destruct q as [|x rest]; [contradiction|].
      destruct (build_refines m _ Hb) as (Hinv & _).
      destruct (build_step_defined l x rest Hinv) as ([l' q'] & E).
      assert (build (S m) = Some (l', q')) as Hb'.
      { cbn [build]. rewrite Hb. exact E. }
      destruct q' as [|y q'].
      + left. exists (S m), l'. exact Hb'.
      + right. exists l', (y :: q'). split; [exact Hb'|discriminate]. }
  destruct (H (Z.to_nat (NUMBER_OF_CUBES + 1))) as [Hex|(l & q & Hb & Hq)];
    [exact Hex|].
  exfalso. destruct (build_refines _ _ Hb) as (_ & Hacc & _).
  pose proof (build_records_bound _ _ Hb) as Hbound. cbn [fst snd] in *.
  destruct q as [|x rest]; [contradiction|]. cbn [length] in Hacc.
  unfold NUMBER_OF_CUBES in *. lia.
Qed.

(** When the frontier is empty the records are the reachable
    configurations, the solved one among them. *)
Lemma build_complete n l :
  build n = Some (l, []) -> forall c, In c (cubes l) <-> reachable c.
Proof.
  intros Hb. destruct (build_refines n _ Hb) as ((_ & Hok & _ & Hphase & Hclosed) & _).
  cbn [fst snd] in *.
  destruct Hphase as [[_ E]|[_ Hseed]]; [discriminate|].
  assert (In SOLVED_CUBE (cubes l)) as Hsolved.
  { destruct (rotate_in_space SOLVED_CUBE 1 solved_in_space ltac:(lia))
      as (c & Ec & _ & _).
    destruct (rotate_inverse SOLVED_CUBE 1 c solved_in_space ltac:(lia) Ec) as [_ Ei].
    apply (Hclosed c (Hseed 1 c ltac:(lia) Ec) (fun H => H) (inverse_turn 1));
      [apply inverse_turn_range; lia|exact Ei]. }
  intros c. split.
  - intros Hc. unfold cubes in Hc. apply in_map_iff in Hc.
    destruct Hc as (r & <- & Hr). rewrite Forall_forall in Hok. apply Hok. exact Hr.
  - induction 1 as [|c0 turn c' _ IH Ht Hr]; [exact Hsolved|].
    apply (Hclosed c0 IH (fun H => H) turn c' Ht Hr).
Qed.

(** ** [get_turn] *)

Lemma lor_low a b k :
  0 <= k -> 0 <= b < 2 ^ k -> Z.lor (a * 2 ^ k) b = a * 2 ^ k + b.
Proof.
  intros Hk Hb. rewrite <- Z.add_lor_land.
  assert (Z.land (a * 2 ^ k) b = 0) as ->; [|lia].
  apply Z.bits_inj'. intros n Hn. rewrite Z.land_spec, Z.bits_0.
  destruct (Z.lt_ge_cases n k) as [Hlt|Hge].
  - rewrite Z.mul_pow2_bits_low by lia. reflexivity.
  - destruct (Z.eq_dec b 0) as [->|Hb0]; [rewrite Z.bits_0; apply andb_false_r|].
    rewrite (Z.bits_above_log2 b n), andb_false_r; [reflexivity|lia|].
    assert (Z.log2 b < k) by (apply Z.log2_lt_pow2; lia). lia.
Qed.

Lemma lor_low_const a b m k :
  0 <= k -> m = 2 ^ k -> 0 <= b < m -> Z.lor (a * m) b = a * m + b.
Proof. intros Hk -> Hb. apply lor_low; assumption. Qed.

Lemma cube_at_value t i :
  uchar_table t -> cube_at t i = to_int (slot_value t i).
Proof.
  intros Ht. unfold cube_at, slot_value. f_equal.
  pose proof (Ht (i * 5)) as H3. pose proof (Ht (i * 5 + 1)) as H2.
  pose proof (Ht (i * 5 + 2)) as H1. pose proof (Ht (i * 5 + 3)) as H0.
  set (b3 := t (i * 5)) in *. set (b2 := t (i * 5 + 1)) in *.
  set (b1 := t (i * 5 + 2)) in *. set (b0 := t (i * 5 + 3)) in *.
  rewrite !Z.shiftl_mul_pow2 by lia.
  change (2 ^ 24) with 16777216. change (2 ^ 16) with 65536.
  change (2 ^ 8) with 256.
  rewrite (lor_low_const b3 (b2 * 65536) 16777216 24) by (reflexivity || lia).
  replace (b3 * 16777216 + b2 * 65536) with ((b3 * 256 + b2) * 65536) by lia.
  rewrite (lor_low_const _ (b1 * 256) 65536 16) by (reflexivity || lia).
  replace ((b3 * 256 + b2) * 65536 + b1 * 256)
    with ((b3 * 65536 + b2 * 256 + b1) * 256) by lia.
  rewrite (lor_low_const _ b0 256 8) by (reflexivity || lia). lia.
Qed.

Lemma to_int_small x : 0 <= x < 2147483648 -> to_int x = x.
Proof.
  intros H. unfold to_int. rewrite Z.mod_small by lia.
  destruct (Z.ltb_spec x 2147483648); lia.
Qed.

Lemma to_char_small x : 0 <= x < 128 -> to_char x = x.
Proof.
  intros H. unfold to_char. rewrite Z.mod_small by lia.
  destruct (Z.ltb_spec x 128); lia.
Qed.

(** What the records of a table look like to [get_turn]. *)
Lemma represents_cube_at t l k :
  uchar_table t -> represents t l -> Forall record_ok l ->
  0 <= k < NUMBER_OF_CUBES ->
  match nth_error l (Z.to_nat k) with
  | Some r => cube_at t k = fst r /\ t (k * 5 + 4) = snd r
  | None => cube_at t k = 0
  end.
Proof.
  intros Hu (Hlen & Hst & Hemp) Hok Hk. rewrite cube_at_value by exact Hu.
  destruct (nth_error l (Z.to_nat k)) as [r|] eqn:E.
  - pose proof (Hst _ _ E) as Hs. rewrite Z2Nat.id in Hs by lia.
    rewrite Forall_forall in Hok. destruct (Hok r (nth_error_In _ _ E)) as [Hr _].
    rewrite (slot_is_value t k r Hs) by lia. split; [apply to_int_small; lia|].
    apply Hs.
  - apply nth_error_None in E.
    rewrite (slot_empty_value t k) by (apply Hemp; lia). reflexivity.
Qed.

Lemma get_turn_loop_found fuel : forall t cube min max r,
  get_turn_loop fuel t cube min max = Some r -> min <= max ->
  r = -1 \/
  exists middle, min <= middle <= max /\ cube_at t middle = cube /\
                 r = to_char (t (middle * 5 + 4)).
Proof.
  induction fuel as [|fuel IH]; intros t cube min max r H Hle; [discriminate|].
  cbn [get_turn_loop] in H. cbv zeta in H.
  rewrite Z.quot_div_nonneg in H by lia.
  assert (min <= min + (max - min) / 2 <= max) as Hmid
    by (Z.div_mod_to_equations; lia).
  set (middle := min + (max - min) / 2) in *.
  destruct (Z.ltb_spec (cube_at t middle) cube) as [Hlt|Hge].
  - destruct (Z.geb_spec max (middle + 1)) as [Hg|Hg].
    + apply IH in H; [|lia]. destruct H as [H|(m & Hm & Hc & Hr)]; [left; exact H|].
      right. exists m. repeat split; try assumption; lia.
    + left. congruence.
  - rewrite Z.gtb_ltb in H.
    destruct (Z.ltb_spec cube (cube_at t middle)) as [Hgt|Hle'].
    + destruct (Z.geb_spec (middle - 1) min) as [Hg|Hg].
      * apply IH in H; [|lia]. destruct H as [H|(m & Hm & Hc & Hr)]; [left; exact H|].
        right. exists m. repeat split; try assumption; lia.
      * left. congruence.
    + right. exists middle. repeat split; try lia. congruence.
Qed.

Lemma get_turn_loop_total fuel : forall t cube min max,
  min <= max -> max - min + 1 < 2 ^ Z.of_nat fuel ->
  exists r, get_turn_loop fuel t cube min max = Some r.
Proof.
  induction fuel as [|fuel IH]; intros t cube min max Hle Hw.
  - cbn in Hw. lia.
  - cbn [get_turn_loop]. cbv zeta. rewrite Z.quot_div_nonneg by lia.
    rewrite Nat2Z.inj_succ, Z.pow_succ_r in Hw by lia.
    assert (min <= min + (max - min) / 2 <= max) as Hmid
      by (Z.div_mod_to_equations; lia).
    destruct (cube_at t (min + (max - min) / 2) <? cube).
    + destruct (Z.geb_spec max (min + (max - min) / 2 + 1)); [|eexists; reflexivity].
      apply IH; [lia|]. Z.div_mod_to_equations. lia.
    + destruct (cube_at t (min + (max - min) / 2) >? cube); [|eexists; reflexivity].
      destruct (Z.geb_spec (min + (max - min) / 2 - 1) min); [|eexists; reflexivity].
      apply IH; [lia|]. Z.div_mod_to_equations. lia.
Qed.

Lemma get_turn_unfold t cube :
  get_turn t cube = get_turn_loop 32 t cube 0 (NUMBER_OF_CUBES - 1).
Proof. reflexivity. Qed.

Lemma get_turn_total t cube : exists r, get_turn t cube = Some r.
Proof.
  rewrite get_turn_unfold.
  apply (get_turn_loop_total 32 t cube 0 (NUMBER_OF_CUBES - 1));
    unfold NUMBER_OF_CUBES; cbn; lia.
Qed.

Lemma get_turn_found t cube r :
  get_turn t cube = Some r ->
  r = -1 \/
  exists middle, 0 <= middle < NUMBER_OF_CUBES /\ cube_at t middle = cube /\
                 r = to_char (t (middle * 5 + 4)).
Proof.
  intros H. rewrite get_turn_unfold in H.
  destruct (get_turn_loop_found 32 t cube 0 (NUMBER_OF_CUBES - 1) r H)
    as [Hn|(m & Hm & Hc & Hr)].
  - unfold NUMBER_OF_CUBES. lia.
  - left. exact Hn.
  - right. exists m. split; [lia|]. split; assumption.
Qed.

(** Binary search on a table whose records all ascend. *)
Section FullTable.
Variable t : Z -> Z.
Hypothesis t_sorted :
  forall i j, 0 <= i < j -> j < NUMBER_OF_CUBES -> cube_at t i < cube_at t j.

Lemma get_turn_loop_present fuel : forall k min max,
  0 <= min -> max < NUMBER_OF_CUBES -> min <= k <= max ->
  max - min + 1 < 2 ^ Z.of_nat fuel ->
  get_turn_loop fuel t (cube_at t k) min max = Some (to_char (t (k * 5 + 4))).
Proof.
  induction fuel as [|fuel IH]; intros k min max Hmin Hmax Hk Hw.
  - cbn in Hw. lia.
  - cbn [get_turn_loop]. cbv zeta. rewrite Z.quot_div_nonneg by lia.
    rewrite Nat2Z.inj_succ, Z.pow_succ_r in Hw by lia.
    assert (min <= min + (max - min) / 2 <= max) as Hmid
      by (Z.div_mod_to_equations; lia).
    set (middle := min + (max - min) / 2) in *.
    destruct (Z.ltb_spec (cube_at t middle) (cube_at t k)) as [Hlt|Hge].
    + assert (middle < k) as Hmk.
      { destruct (Z.lt_ge_cases middle k) as [H|H]; [exact H|].
        destruct (Z.eq_dec middle k) as [E|E]; [rewrite E in Hlt; lia|].
        pose proof (t_sorted k middle ltac:(lia) ltac:(lia)). lia. }
      destruct (Z.geb_spec max (middle + 1)); [|lia].
      apply IH; try lia. subst middle. Z.div_mod_to_equations. lia.
    + rewrite Z.gtb_ltb.
      destruct (Z.ltb_spec (cube_at t k) (cube_at t middle)) as [Hgt|Hle].
      * assert (k < middle) as Hmk.
        { destruct (Z.lt_ge_cases k middle) as [H|H]; [exact H|].
          destruct (Z.eq_dec middle k) as [E|E]; [rewrite E in Hgt; lia|].
          pose proof (t_sorted middle k ltac:(lia) ltac:(lia)). lia. }
        destruct (Z.geb_spec (middle - 1) min); [|lia].
        apply IH; try lia. subst middle. Z.div_mod_to_equations. lia.
      * assert (middle = k) as ->; [|reflexivity].
        destruct (Z.lt_total middle k) as [H|[H|H]]; [|exact H|].
        -- pose proof (t_sorted middle k ltac:(lia) ltac:(lia)). lia.
        -- pose proof (t_sorted k middle ltac:(lia) ltac:(lia)). lia.
Qed.

Lemma get_turn_present k :
  0 <= k < NUMBER_OF_CUBES ->
  get_turn t (cube_at t k) = Some (to_char (t (k * 5 + 4))).
Proof.
  intros Hk. rewrite get_turn_unfold.
  apply (get_turn_loop_present 32 k 0 (NUMBER_OF_CUBES - 1)); try lia.
  unfold NUMBER_OF_CUBES. cbn. lia.
Qed.

Lemma get_turn_absent cube :
  (forall k, 0 <= k < NUMBER_OF_CUBES -> cube_at t k <> cube) ->
  get_turn t cube = Some (-1).
Proof.
  intros Habs. destruct (get_turn_total t cube) as (r & Hr).
  destruct (get_turn_found t cube r Hr) as [->|(m & Hm & Hc & _)]; [exact Hr|].
  exfalso. exact (Habs m Hm Hc).
Qed.
End FullTable.

Lemma get_turn_loop_ext fuel : forall t t' cube min max,
  (forall b, t b = t' b) ->
  get_turn_loop fuel t cube min max = get_turn_loop fuel t' cube min max.
Proof.
  induction fuel as [|fuel IH]; intros t t' cube min max H; [reflexivity|].
  cbn [get_turn_loop]. cbv zeta. unfold cube_at. rewrite !H.
  rewrite !(IH t t') by exact H. reflexivity.
Qed.

(** ** [solve_cube] *)

Lemma solve_loop_not_found free t cube turn_sequence count :
  get_turn t cube = Some (-1) ->
  solve_loop free t cube turn_sequence count = Some Null.
Proof. intros H. destruct free; cbn [solve_loop]; rewrite H; reflexivity. Qed.

Lemma solve_loop_final free t cube turn_sequence count :
  get_turn t cube = Some 0 ->
  solve_loop (S free) t cube turn_sequence count =
  Some (Sequence (store_turn turn_sequence count 0)).
Proof. intros H. cbn [solve_loop]. rewrite H. reflexivity. Qed.

(** Every stage of the build that the loop reaches. *)
Lemma fill_stage n s :
  fill_state_table n make_state_table = Some (Running s) ->
  exists l q, build n = Some (l, q) /\ build_inv (l, q) /\ refines s l q.
Proof.
  intros H. destruct (build n) as [[l q]|] eqn:E.
  - destruct (build_refines n _ E) as (Hinv & _ & s' & Es & Hr).
    rewrite H in Es. injection Es as <-. exists l, q. auto.
  - rewrite (build_undefined n E) in H. discriminate.
Qed.

Lemma fill_never_exited n s :
  fill_state_table n make_state_table <> Some (Exited s).
Proof.
  intros H. destruct (build n) as [[l q]|] eqn:E.
  - destruct (build_refines n _ E) as (_ & _ & s' & Es & _). congruence.
  - rewrite (build_undefined n E) in H. discriminate.
Qed.

Lemma fill_exhausts :
  exists n s l,
    build n = Some (l, []) /\
    fill_state_table n make_state_table = Some (Running s) /\
    refines s l [].
Proof.
  destruct build_exhausts as (n & l & Hb).
  destruct (build_refines n _ Hb) as (_ & _ & s & Es & Hr).
  exists n, s, l. auto.
Qed.

(** On the records of the build a lookup yields [-1] or a code from 1 to 6,
    never the code 0 that ends a solution. *)
Lemma get_turn_built t l cube r :
  uchar_table t -> represents t l -> Forall entry_ok l ->
  0 < cube -> get_turn t cube = Some r -> r = -1 \/ 1 <= r <= 6.
Proof.
  intros Hu Hr Hok Hc Hg.
  destruct (get_turn_found t cube r Hg) as [->|(m & Hm & Hcm & ->)]; [left; reflexivity|].
  right. pose proof (represents_cube_at t l m Hu Hr (entries_record_ok l Hok) Hm) as H.
  destruct (nth_error l (Z.to_nat m)) as [rec|] eqn:E; [|lia].
  destruct H as [_ Ht]. rewrite Ht. rewrite Forall_forall in Hok.
  destruct (Hok rec (nth_error_In _ _ E)) as [_ Hturn].
  rewrite to_char_small by lia. exact Hturn.
Qed.

Lemma perform_turn_reachable this_turn cube :
  reachable cube -> 1 <= this_turn <= 6 ->
  exists cube', perform_turn this_turn cube = Some cube' /\ reachable cube'.
Proof.
  intros Hr Ht. pose proof (reachable_in_space _ Hr) as Hs.
  assert (exists turn, 0 <= turn < 6 /\ perform_turn this_turn cube = rotate cube turn)
    as (turn & Hturn & ->).
  { unfold perform_turn, frontCC, frontC, leftCC, leftC, topCC, topC.
    assert (this_turn = 1 \/ this_turn = 2 \/ this_turn = 3 \/ this_turn = 4 \/
            this_turn = 5 \/ this_turn = 6) as Hc by lia.
    destruct Hc as [->|[->|[->|[->|[->| ->]]]]]; cbn;
      eexists; (split; [|reflexivity]); lia. }
  destruct (rotate_in_space cube turn Hs Hturn) as (c' & E & _).
  exists c'. split; [exact E|]. eapply reach_turn; eassumption.
Qed.

Lemma solve_loop_built t l :
  uchar_table t -> represents t l -> Forall entry_ok l ->
  forall free cube turn_sequence count,
    reachable cube ->
    solve_loop free t cube turn_sequence count = Some Null \/
    solve_loop free t cube turn_sequence count = None.
Proof.
  intros Hu Hr Hok. induction free as [|free IH]; intros cube buf count Hc;
    cbn [solve_loop]; destruct (get_turn_total t cube) as (r & Hg); rewrite Hg;
    cbn [obind];
    pose proof (valid_positive _ (reachable_valid _ Hc)) as Hpos;
    destruct (get_turn_built t l cube r Hu Hr Hok ltac:(lia) Hg) as [->|Hr6].
  - left. reflexivity.
  - destruct (Z.eqb_spec r (-1)); [lia|]. right. reflexivity.
  - left. reflexivity.
  - destruct (Z.eqb_spec r (-1)); [lia|].
    destruct (perform_turn_reachable r cube Hc Hr6) as (c' & Ep & Hc').
    rewrite Ep. cbn [obind]. destruct (Z.eqb_spec r 0); [lia|]. cbn [negb].
    apply IH. exact Hc'.
Qed.

(** ** The table left by the build *)

Lemma represents_holds t l cube :
  uchar_table t -> represents t l -> Forall record_ok l -> In cube (cubes l) ->
  exists k, 0 <= k < NUMBER_OF_CUBES /\ cube_at t k = cube.
Proof.
  intros Hu Hr Hok Hin. unfold cubes in Hin. apply in_map_iff in Hin.
  destruct Hin as (r & <- & Hin). apply In_nth_error in Hin.
  destruct Hin as (k & Hk).
  assert (k < length l)%nat as Hlt by (apply nth_error_Some; congruence).
  pose proof Hr as (Hlen & _).
  exists (Z.of_nat k). split; [lia|].
  pose proof (represents_cube_at t l (Z.of_nat k) Hu Hr Hok ltac:(lia)) as H.
  rewrite Nat2Z.id, Hk in H. apply H.
Qed.

Lemma build_stage_two :
  exists l q, build 2 = Some (l, q) /\ In SOLVED_CUBE (cubes l).
Proof.
  eexists. eexists. split; [vm_compute; reflexivity|].
  vm_compute. tauto.
Qed.

Lemma build_stage_one :
  exists l q, build 1 = Some (l, q) /\ ~ In SOLVED_CUBE (cubes l) /\ q <> [].
Proof.
  eexists. eexists. split; [vm_compute; reflexivity|]. split; [|discriminate].
  vm_compute. intuition discriminate.
Qed.

Lemma build_solved_recorded n l q :
  (2 <= n)%nat -> build n = Some (l, q) -> In SOLVED_CUBE (cubes l).
Proof.
  intros Hn Hb. destruct build_stage_two as (l2 & q2 & E2 & Hin).
  replace n with ((n - 2) + 2)%nat in Hb by lia.
  pose proof (build_persists 2 (n - 2) _ _ E2 Hb) as Hincl.
  apply (incl_cubes _ _ Hincl). exact Hin.
Qed.

Lemma exhausted_after_two n l :
  build n = Some (l, []) -> (2 <= n)%nat.
Proof.
  intros Hb. destruct n as [|[|n]]; [| |lia].
  - cbn in Hb. discriminate.
  - destruct build_stage_one as (l1 & q1 & E1 & _ & Hq). congruence.
Qed.

(** C1: on the table that [fill_state_table] leaves when its frontier is
    exhausted, and on the table of every stage before, [solve_cube] returns
    no sequence of turns for any reachable configuration: it returns NULL or
    runs past its 15-byte buffer.  In particular it does not return the empty
    sequence for the solved configuration, nor a shortest solution for any
    other. *)
Theorem solve_cube_returns_no_solution :
  (exists n s,
     fill_state_table n make_state_table = Some (Running s) /\
     contents (queue s) = [] /\
     (solve_cube SOLVED_CUBE (table s) = Some Null \/
      solve_cube SOLVED_CUBE (table s) = None)) /\
  (forall n s cube,
     fill_state_table n make_state_table = Some (Running s) ->
     reachable cube ->
     solve_cube cube (table s) = Some Null \/ solve_cube cube (table s) = None).
Proof.
  assert (forall n s cube,
            fill_state_table n make_state_table = Some (Running s) ->
            reachable cube ->
            solve_cube cube (table s) = Some Null \/
            solve_cube cube (table s) = None) as Hall.
  { intros n s cube Hf Hc.
    destruct (fill_stage n s Hf) as (l & q & _ & (_ & Hok & _) & (Hu & Hr & _)).
    unfold solve_cube. apply (solve_loop_built (table s) l); assumption. }
  split; [|exact Hall].
  destruct fill_exhausts as (n & s & l & _ & Hf & (_ & _ & _ & _ & Hq & _)).
  exists n, s. split; [exact Hf|]. split; [exact Hq|].
  apply (Hall n s SOLVED_CUBE Hf reach_solved).
Qed.

(** C2, as stated, fails: when the frontier is exhausted the records of the
    table are not the reachable configurations other than the solved one;
    the solved configuration has a record too. *)
Lemma built_table_holds_solved_cube :
  exists n s l,
    fill_state_table n make_state_table = Some (Running s) /\
    contents (queue s) = [] /\
    represents (table s) l /\ ascending l /\
    In SOLVED_CUBE (cubes l) /\
    ~ (forall cube, In cube (cubes l) <-> reachable cube /\ cube <> SOLVED_CUBE).
Proof.
  destruct fill_exhausts as (n & s & l & Hb & Hf & Hr).
  pose proof Hr as (_ & Hrep & _ & _ & Hq & _).
  destruct (build_refines n _ Hb) as ((Hs & _) & _). cbn [fst] in Hs.
  pose proof (build_solved_recorded n l [] (exhausted_after_two n l Hb) Hb) as Hin.
  exists n, s, l. split; [exact Hf|]. split; [exact Hq|]. split; [exact Hrep|].
  split; [exact Hs|]. split; [exact Hin|].
  intros Hrec. apply Hrec in Hin. destruct Hin as [_ Hne]. apply Hne. reflexivity.
Qed.

(** C2, amended: the frontier of [fill_state_table], started on the empty
    table, runs empty; the table then holds exactly one record per reachable
    configuration, the solved one included, in strictly ascending order of
    configuration value and with no value twice; there are as many records
    as the loop has counted, at most [NUMBER_OF_CUBES]. *)
Theorem fill_state_table_complete :
  (exists n s,
     fill_state_table n make_state_table = Some (Running s) /\
     contents (queue s) = []) /\
  (forall n s,
     fill_state_table n make_state_table = Some (Running s) ->
     contents (queue s) = [] ->
     exists l,
       represents (table s) l /\ ascending l /\ NoDup (cubes l) /\
       (forall cube, In cube (cubes l) <-> reachable cube) /\
       In SOLVED_CUBE (cubes l) /\
       count s = Z.of_nat (length l) /\
       Z.of_nat (length l) <= NUMBER_OF_CUBES).
Proof.
  split.
  - destruct fill_exhausts as (n & s & l & _ & Hf & (_ & _ & _ & _ & Hq & _)).
    exists n, s. split; assumption.
  - intros n s Hf Hq.
    destruct (fill_stage n s Hf) as (l & q & Hb & (Hs & _) & Hr).
    pose proof Hr as (_ & Hrep & _ & _ & Hq' & Hc). cbn [fst] in Hs.
    rewrite Hq in Hq'. subst q.
    pose proof (build_complete n l Hb) as Hall.
    exists l. split; [exact Hrep|]. split; [exact Hs|].
    split; [apply ascending_NoDup; exact Hs|]. split; [exact Hall|].
    split; [apply Hall; exact reach_solved|]. split; [exact Hc|].
    apply (build_records_bound n _ Hb).
Qed.

(** C3, as stated, fails: when the frontier is exhausted the table holds a
    record whose configuration is the solved one. *)
Lemma solved_cube_is_recorded :
  exists n s k,
    fill_state_table n make_state_table = Some (Running s) /\
    contents (queue s) = [] /\
    0 <= k < NUMBER_OF_CUBES /\ cube_at (table s) k = SOLVED_CUBE.
Proof.
  destruct fill_exhausts as (n & s & l & Hb & Hf & Hr).
  pose proof Hr as (Hu & Hrep & _ & _ & Hq & _).
  destruct (build_refines n _ Hb) as ((_ & Hok & _) & _). cbn [fst] in Hok.
  pose proof (build_solved_recorded n l [] (exhausted_after_two n l Hb) Hb) as Hin.
  destruct (represents_holds (table s) l SOLVED_CUBE Hu Hrep
              (entries_record_ok l Hok) Hin) as (k & Hk & Hc).
  exists n, s, k. auto.
Qed.

(** C3, amended: the solved configuration is enqueued as the seed without
    being recorded, and the first iteration leaves it unrecorded; the second
    iteration, which meets it again as a neighbour of its first neighbour,
    records it, and from then on, up to and including the exhaustion of the
    frontier, the table holds a record for it. *)
Theorem solved_cube_recorded_when_rediscovered :
  contents (queue (fill_init make_state_table)) = [SOLVED_CUBE] /\
  (forall k, cube_at (table (fill_init make_state_table)) k <> SOLVED_CUBE) /\
  (exists s l,
     fill_state_table 1 make_state_table = Some (Running s) /\
     represents (table s) l /\ ~ In SOLVED_CUBE (cubes l)) /\
  (forall n s,
     (2 <= n)%nat ->
     fill_state_table n make_state_table = Some (Running s) ->
     exists l k,
       represents (table s) l /\ In SOLVED_CUBE (cubes l) /\
       0 <= k < NUMBER_OF_CUBES /\ cube_at (table s) k = SOLVED_CUBE) /\
  (exists n s,
     (2 <= n)%nat /\
     fill_state_table n make_state_table = Some (Running s) /\
     contents (queue s) = []).
Proof.
  split; [exact (proj1 (proj2 (proj2 (proj2 (proj2 fill_init_refines)))))|].
  split; [intros k; vm_compute; discriminate|]. split.
  { destruct build_stage_one as (l & q & Hb & Hn & _).
    destruct (build_refines 1 _ Hb) as (_ & _ & s & Hf & (_ & Hrep & _)).
    exists s, l. auto. }
  split.
  { intros n s Hn Hf.
    destruct (fill_stage n s Hf) as (l & q & Hb & (_ & Hok & _) & (Hu & Hrep & _)).
    cbn [fst] in Hok.
    pose proof (build_solved_recorded n l q Hn Hb) as Hin.
    destruct (represents_holds (table s) l SOLVED_CUBE Hu Hrep
                (entries_record_ok l Hok) Hin) as (k & Hk & Hc).
    exists l, k. auto. }
  destruct fill_exhausts as (n & s & l & Hb & Hf & (_ & _ & _ & _ & Hq & _)).
  exists n, s. split; [exact (exhausted_after_two n l Hb)|]. split; assumption.
Qed.

(** C5: the loop of [fill_state_table] never leaves through its test.  When
    the frontier is exhausted [peek] reports the empty queue as [-1], the
    test [peek(queue) != 0] holds, and the body dequeues [-1] and turns it,
    reading [turn_table] out of bounds. *)
Theorem fill_state_table_never_exits :
  (forall n s, fill_state_table n make_state_table <> Some (Exited s)) /\
  (exists n s,
     fill_state_table n make_state_table = Some (Running s) /\
     contents (queue s) = [] /\
     snd (peek (queue s)) = -1 /\
     snd (fill_guard s) = true /\
     snd (dequeue (queue s)) = -1 /\
     frontC (-1) = None /\
     fill_state_table (S n) make_state_table = None).
Proof.
  split; [exact fill_never_exited|].
  destruct fill_exhausts as (n & s & l & Hb & Hf & Hr).
  pose proof (refines_empty_queue s l Hr) as Hu.
  pose proof Hr as (_ & _ & _ & _ & Hq & _).
  exists n, s. split; [exact Hf|]. split; [exact Hq|].
  split; [rewrite peek_empty by lia; reflexivity|].
  split; [apply fill_step_empty_queue; lia|].
  split; [rewrite dequeue_empty by lia; reflexivity|].
  split; [reflexivity|].
  apply build_undefined. cbn [build]. rewrite Hb. reflexivity.
Qed.

(** C8, as stated, fails: on the empty table the solved configuration is
    not found and [solve_cube] returns NULL for it, not the empty
    sequence. *)
Lemma solve_cube_solved_not_found :
  get_turn make_state_table SOLVED_CUBE = Some (-1) /\
  solve_cube SOLVED_CUBE make_state_table = Some Null.
Proof. split; vm_compute; reflexivity. Qed.

(** *** What [solve_cube] returns, lookup by lookup *)

Lemma store_turn_app done turn rest x :
  store_turn (done ++ x :: rest) (length done) turn = done ++ turn :: rest.
Proof.
  induction done as [|d done IH]; cbn [app length store_turn]; [reflexivity|].
  rewrite IH. reflexivity.
Qed.

Lemma lookups_nil state_table cube : lookups state_table cube [] = Some cube.
Proof. reflexivity. Qed.

Lemma lookups_cons state_table cube turn rest :
  lookups state_table cube (turn :: rest) =
  (this_turn <- get_turn state_table cube ;;
   if (this_turn =? turn) && negb (turn =? 0) && negb (turn =? -1)
   then cube <- perform_turn turn cube ;; lookups state_table cube rest
   else None).
Proof. reflexivity. Qed.

Lemma solve_loop_O state_table cube turn_sequence count :
  solve_loop O state_table cube turn_sequence count =
  (this_turn <- get_turn state_table cube ;;
   if this_turn =? -1 then Some Null else None).
Proof. reflexivity. Qed.

Lemma solve_loop_S free state_table cube turn_sequence count :
  solve_loop (S free) state_table cube turn_sequence count =
  (this_turn <- get_turn state_table cube ;;
   if this_turn =? -1 then Some Null
   else
     cube <- perform_turn this_turn cube ;;
     if negb (this_turn =? 0)
     then solve_loop free state_table cube
                     (store_turn turn_sequence count this_turn) (S count)
     else Some (Sequence (store_turn turn_sequence count this_turn))).
Proof. reflexivity. Qed.

Lemma lookups_head state_table cube t turns last :
  lookups state_table cube (t :: turns) = Some last ->
  get_turn state_table cube = Some t /\ t <> 0 /\ t <> -1 /\
  exists c, perform_turn t cube = Some c /\
            lookups state_table c turns = Some last.
Proof.
  rewrite lookups_cons. intros H.
  destruct (get_turn state_table cube) as [r|]; [|discriminate H].
  cbn [obind] in H.
  destruct (Z.eqb_spec r t) as [Ert|]; [subst r|discriminate H].
  destruct (Z.eqb_spec t 0); [discriminate H|].
  destruct (Z.eqb_spec t (-1)); [discriminate H|]. cbn [andb negb] in H.
  destruct (perform_turn t cube) as [c|]; [|discriminate H].
  cbn [obind] in H.
  split; [reflexivity|]. split; [assumption|]. split; [assumption|].
  exists c. split; [reflexivity|exact H].
Qed.

Lemma lookups_codes state_table turns : forall cube last,
  lookups state_table cube turns = Some last ->
  Forall (fun turn => turn <> 0 /\ turn <> -1) turns.
Proof.
  induction turns as [|t turns IH]; intros cube last H; [constructor|].
  destruct (lookups_head _ _ _ _ _ H) as (_ & H0 & H1 & c & _ & Hl).
  constructor; [split; assumption|exact (IH c last Hl)].
Qed.

Lemma turns_of_codes turns k :
  Forall (fun turn => turn <> 0 /\ turn <> -1) turns ->
  turns_of (turns ++ repeat 0 k) = turns.
Proof.
  induction 1 as [|t turns [Ht _] _ IH]; cbn [app turns_of].
  - destruct k; reflexivity.
  - destruct (Z.eqb_spec t 0); [contradiction|]. rewrite IH. reflexivity.
Qed.

Lemma lookups_step state_table cube t c :
  get_turn state_table cube = Some t -> t <> 0 -> t <> -1 ->
  perform_turn t cube = Some c ->
  forall turns, lookups state_table cube (t :: turns) =
                lookups state_table c turns.
Proof.
  intros Hg H0 H1 Hp turns. rewrite lookups_cons, Hg. cbn [obind].
  rewrite Z.eqb_refl.
  destruct (Z.eqb_spec t 0); [contradiction|].
  destruct (Z.eqb_spec t (-1)); [contradiction|]. cbn [andb negb].
  rewrite Hp. reflexivity.
Qed.

Lemma lookups_none state_table cube last :
  lookups state_table cube [] = Some last -> last = cube.
Proof. rewrite lookups_nil. intros H. injection H as <-. reflexivity. Qed.

(** The loop returns NULL exactly when one of its lookups, the first or a
    later one, does not find the configuration it has arrived at. *)
Lemma solve_loop_null state_table : forall free cube turn_sequence count,
  solve_loop free state_table cube turn_sequence count = Some Null <->
  exists turns last,
    (length turns <= free)%nat /\
    lookups state_table cube turns = Some last /\
    get_turn state_table last = Some (-1).
Proof.
  induction free as [|free IH]; intros cube turn_sequence count.
  - rewrite solve_loop_O.
    destruct (get_turn state_table cube) as [t|] eqn:Hg; cbn [obind].
    + split.
      * destruct (Z.eqb_spec t (-1)) as [->|]; [|discriminate]. intros _.
        exists [], cube. split; [cbn; lia|].
        split; [apply lookups_nil|exact Hg].
      * intros ([|t' turns] & last & Hlen & Hl & Hlast);
          [|cbn [length] in Hlen; lia].
        apply lookups_none in Hl. subst last.
        assert (t = -1) as -> by congruence. reflexivity.
    + split; [discriminate|].
      intros ([|t' turns] & last & Hlen & Hl & Hlast);
        [|cbn [length] in Hlen; lia].
      apply lookups_none in Hl. subst last. congruence.
  - rewrite solve_loop_S.
    destruct (get_turn state_table cube) as [t|] eqn:Hg; cbn [obind].
    + destruct (Z.eqb_spec t (-1)) as [->|Hne].
      * split; [|reflexivity]. intros _.
        exists [], cube. split; [cbn; lia|].
        split; [apply lookups_nil|exact Hg].
      * destruct (perform_turn t cube) as [c|] eqn:Hp; cbn [obind].
        -- destruct (Z.eqb_spec t 0) as [->|H0]; cbn [negb].
           ++ split; [discriminate|].
              intros ([|t' turns] & last & _ & Hl & Hlast).
              ** apply lookups_none in Hl. subst last. congruence.
              ** destruct (lookups_head _ _ _ _ _ Hl) as (Hg' & H0' & _).
                 congruence.
           ++ rewrite IH. split.
              ** intros (turns & last & Hlen & Hl & Hlast).
                 exists (t :: turns), last.
                 split; [cbn [length]; lia|]. split; [|exact Hlast].
                 rewrite (lookups_step _ _ _ _ Hg H0 Hne Hp). exact Hl.
              ** intros ([|t' turns] & last & Hlen & Hl & Hlast).
                 --- apply lookups_none in Hl. subst last. congruence.
                 --- destruct (lookups_head _ _ _ _ _ Hl)
                       as (Hg' & _ & _ & c' & Hp' & Hl').
                     assert (t' = t) as -> by congruence.
                     assert (c' = c) as -> by congruence.
                     exists turns, last.
                     split; [cbn [length] in Hlen; lia|].
                     split; assumption.
        -- split; [discriminate|].
           intros ([|t' turns] & last & _ & Hl & Hlast).
           ++ apply lookups_none in Hl. subst last. congruence.
           ++ destruct (lookups_head _ _ _ _ _ Hl)
                as (Hg' & _ & _ & c' & Hp' & _).
              congruence.
    + split; [discriminate|].
      intros ([|t' turns] & last & _ & Hl & Hlast).
      * apply lookups_none in Hl. subst last. congruence.
      * destruct (lookups_head _ _ _ _ _ Hl) as (Hg' & _). congruence.
Qed.

(** The loop returns its buffer exactly when a lookup yields the code 0
    while a cell of the buffer is free; the buffer then holds the codes
    looked up before, in order, followed by zeros. *)
Lemma solve_loop_sequence state_table : forall free cube done result,
  solve_loop free state_table cube (done ++ repeat 0 free) (length done) =
  Some (Sequence result) <->
  exists turns last,
    (length turns < free)%nat /\
    lookups state_table cube turns = Some last /\
    get_turn state_table last = Some 0 /\
    result = done ++ turns ++ repeat 0 (free - length turns).
Proof.
  induction free as [|free IH]; intros cube done result.
  - rewrite solve_loop_O. split.
    + destruct (get_turn state_table cube) as [t|]; cbn [obind];
        [destruct (t =? -1)|]; discriminate.
    + intros (turns & last & Hlen & _). lia.
  - rewrite solve_loop_S.
    destruct (get_turn state_table cube) as [t|] eqn:Hg; cbn [obind].
    + destruct (Z.eqb_spec t (-1)) as [->|Hne].
      * split; [discriminate|].
        intros ([|t' turns] & last & _ & Hl & Hlast & _).
        -- apply lookups_none in Hl. subst last. congruence.
        -- destruct (lookups_head _ _ _ _ _ Hl) as (Hg' & _ & H1 & _).
           congruence.
      * cbn [repeat]. rewrite store_turn_app.
        destruct (perform_turn t cube) as [c|] eqn:Hp; cbn [obind].
        -- destruct (Z.eqb_spec t 0) as [->|H0]; cbn [negb].
           ++ split.
              ** intros H. injection H as <-. exists [], cube.
                 split; [cbn; lia|]. split; [apply lookups_nil|].
                 split; [exact Hg|]. cbn [length app]. rewrite Nat.sub_0_r.
                 reflexivity.
              ** intros ([|t' turns] & last & _ & Hl & Hlast & ->).
                 --- cbn [length app]. rewrite Nat.sub_0_r. reflexivity.
                 --- destruct (lookups_head _ _ _ _ _ Hl) as (Hg' & H0' & _).
                     congruence.
           ++ replace (done ++ t :: repeat 0 free)
                with ((done ++ [t]) ++ repeat 0 free)
                by (rewrite <- app_assoc; reflexivity).
              replace (S (length done)) with (length (done ++ [t]))
                by (rewrite length_app; cbn [length]; lia).
              rewrite IH. split.
              ** intros (turns & last & Hlen & Hl & Hlast & ->).
                 exists (t :: turns), last.
                 split; [cbn [length]; lia|].
                 split; [rewrite (lookups_step _ _ _ _ Hg H0 Hne Hp); exact Hl|].
                 split; [exact Hlast|].
                 rewrite <- app_assoc. reflexivity.
              ** intros ([|t' turns] & last & Hlen & Hl & Hlast & ->).
                 --- apply lookups_none in Hl. subst last. congruence.
                 --- destruct (lookups_head _ _ _ _ _ Hl)
                       as (Hg' & _ & _ & c' & Hp' & Hl').
                     assert (t' = t) as -> by congruence.
                     assert (c' = c) as -> by congruence.
                     exists turns, last.
                     split; [cbn [length] in Hlen; lia|].
                     split; [exact Hl'|]. split; [exact Hlast|].
                     rewrite <- app_assoc. reflexivity.
        -- split; [discriminate|].
           intros ([|t' turns] & last & _ & Hl & Hlast & _).
           ++ apply lookups_none in Hl. subst last.
              assert (t = 0) as -> by congruence. discriminate.
           ++ destruct (lookups_head _ _ _ _ _ Hl)
                as (Hg' & _ & _ & c' & Hp' & _).
              congruence.
    + split; [discriminate|].
      intros ([|t' turns] & last & _ & Hl & Hlast & _).
      * apply lookups_none in Hl. subst last. congruence.
      * destruct (lookups_head _ _ _ _ _ Hl) as (Hg' & _). congruence.
Qed.

(** C8, amended: when a lookup of [solve_cube] does not find the
    configuration, [solve_cube] returns NULL, whether the configuration is
    the solved one or not: it returns NULL exactly when one of its lookups,
    the first or a later one, yields -1.  [solve_cube] ends with a sequence
    only on a lookup that yields the code 0, and then returns the buffer
    filled so far: the codes looked up before, in order, followed by zeros;
    this is the empty sequence if the first lookup yields 0. *)
Theorem solve_cube_not_found (state_table : Z -> Z) :
  (forall cube,
     get_turn state_table cube = Some (-1) ->
     solve_cube cube state_table = Some Null /\
     forall free turn_sequence count,
       solve_loop free state_table cube turn_sequence count = Some Null) /\
  (forall cube,
     solve_cube cube state_table = Some Null <->
     exists turns last,
       (length turns <= 15)%nat /\
       lookups state_table cube turns = Some last /\
       get_turn state_table last = Some (-1)) /\
  (forall cube turn_sequence,
     solve_cube cube state_table = Some (Sequence turn_sequence) <->
     exists turns last,
       (length turns < 15)%nat /\
       lookups state_table cube turns = Some last /\
       get_turn state_table last = Some 0 /\
       turn_sequence = turns ++ repeat 0 (15 - length turns) /\
       turns_of turn_sequence = turns) /\
  (forall cube, get_turn state_table cube = Some 0 ->
     solve_cube cube state_table = Some (Sequence (repeat 0 15)) /\
     turns_of (repeat 0 15) = []).
Proof.
  split; [|split; [|split]].
  - intros cube H. split; [apply solve_loop_not_found; exact H|].
    intros. apply solve_loop_not_found. exact H.
  - intros cube. apply solve_loop_null.
  - intros cube turn_sequence. unfold solve_cube.
    rewrite (solve_loop_sequence state_table 15 cube [] turn_sequence).
    cbn [app]. split.
    + intros (turns & last & Hlen & Hl & Hlast & ->).
      exists turns, last. split; [exact Hlen|]. split; [exact Hl|].
      split; [exact Hlast|]. split; [reflexivity|].
      apply turns_of_codes. exact (lookups_codes _ _ _ _ Hl).
    + intros (turns & last & Hlen & Hl & Hlast & -> & _).
      exists turns, last. auto.
  - intros cube H0. split; [|reflexivity].
    unfold solve_cube. rewrite solve_loop_final by exact H0. reflexivity.
Qed.

Lemma solve_cube_not_found_witness :
  get_turn make_state_table SOLVED_CUBE = Some (-1) /\
  solve_cube SOLVED_CUBE make_state_table = Some Null /\
  lookups one_turn_table 1607621429 [1] = Some SOLVED_CUBE /\
  get_turn one_turn_table SOLVED_CUBE = Some 0 /\
  solve_cube 1607621429 one_turn_table =
  Some (Sequence (1 :: repeat 0 14)).
Proof.
  assert (get_turn make_state_table SOLVED_CUBE = Some (-1)) as H
    by (vm_compute; reflexivity).
  assert (lookups one_turn_table 1607621429 [1] = Some SOLVED_CUBE) as Hl
    by (vm_compute; reflexivity).
  assert (get_turn one_turn_table SOLVED_CUBE = Some 0) as H0
    by (vm_compute; reflexivity).
  split; [exact H|].
  split; [exact (proj1 (proj1 (solve_cube_not_found make_state_table)
                          SOLVED_CUBE H))|].
  split; [exact Hl|]. split; [exact H0|].
  apply (proj2 (proj1 (proj2 (proj2 (solve_cube_not_found one_turn_table)))
                  1607621429 (1 :: repeat 0 14))).
  exists [1], SOLVED_CUBE.
  split; [cbn; lia|]. split; [exact Hl|]. split; [exact H0|].
  split; reflexivity.
Defined.

(** ** The configuration value 0 *)

Lemma find_index_loop_empty_slot n t b3 b2 b1 b0 i :
  t (i * 5) = 0 -> t (i * 5 + 1) = 0 -> t (i * 5 + 2) = 0 -> t (i * 5 + 3) = 0 ->
  find_index_loop (S n) t b3 b2 b1 b0 i = Some i.
Proof.
  intros E0 E1 E2 E3. cbn [find_index_loop]. cbv zeta.
  rewrite E0, E1, E2, E3. reflexivity.
Qed.

Lemma number_of_cubes_succ :
  Z.to_nat NUMBER_OF_CUBES = S (Z.to_nat (NUMBER_OF_CUBES - 1)).
Proof. unfold NUMBER_OF_CUBES. lia. Qed.

Lemma find_index_zero t : uchar_table t -> find_index t 0 = Some 0.
Proof.
  intros Ht. unfold find_index. rewrite number_of_cubes_succ.
  change (to_uchar (Z.shiftr 0 24)) with 0. change (to_uchar (Z.shiftr 0 16)) with 0.
  change (to_uchar (Z.shiftr 0 8)) with 0. change (to_uchar 0) with 0.
  rewrite find_index_loop_step by (try exact Ht; lia). cbv zeta.
  assert (0 <= slot_value t 0) as Hv.
  { unfold slot_value. pose proof (Ht (0 * 5)). pose proof (Ht (0 * 5 + 1)).
    pose proof (Ht (0 * 5 + 2)). pose proof (Ht (0 * 5 + 3)). lia. }
  change (0 * 16777216 + 0 * 65536 + 0 * 256 + 0) with 0.
  destruct (Z.eqb_spec (slot_value t 0) 0); [reflexivity|].
  destruct (Z.ltb_spec (slot_value t 0) 0); [lia|].
  rewrite Z.gtb_ltb. destruct (Z.ltb_spec 0 (slot_value t 0)); [reflexivity|lia].
Qed.

(** C10: [find_index] stops at any record whose four configuration bytes
    are zero and returns its index; for the configuration value 0 it returns
    index 0 on every table, never [-1], so [add_state] returns 1 for it on
    every call, also right after a call that has written a record with the
    value 0 at index 0. *)
Theorem add_state_zero_cube (state_table : Z -> Z) (turn : Z) :
  uchar_table state_table ->
  (forall n byte3 byte2 byte1 byte0 i,
     state_table (i * 5) = 0 -> state_table (i * 5 + 1) = 0 ->
     state_table (i * 5 + 2) = 0 -> state_table (i * 5 + 3) = 0 ->
     find_index_loop (S n) state_table byte3 byte2 byte1 byte0 i = Some i) /\
  find_index state_table 0 = Some 0 /\
  exists t',
    add_state state_table 0 turn = Some (t', 1) /\
    cube_at t' 0 = 0 /\ t' 4 = to_uchar turn /\
    forall turn', exists t'', add_state t' 0 turn' = Some (t'', 1).
Proof.
  intros Ht.
  split; [intros; apply find_index_loop_empty_slot; assumption|].
  split; [apply find_index_zero; exact Ht|].
  assert (uchar_table (write_record state_table 0 0 turn)) as Ht'
    by (apply write_record_uchar; [unfold NUMBER_OF_CUBES; lia|exact Ht]).
  exists (write_record state_table 0 0 turn).
  split; [apply add_state_insert; [apply find_index_zero; exact Ht|lia]|].
  split.
  { rewrite cube_at_value by exact Ht'.
    rewrite (slot_is_value _ 0 (0, to_uchar turn)); [reflexivity| |cbn; lia].
    apply write_record_at. }
  split; [exact (proj2 (proj2 (proj2 (proj2
                   (write_record_at state_table 0 0 turn)))))|].
  intros turn'. eexists.
  apply add_state_insert; [apply find_index_zero; exact Ht'|lia].
Qed.

Lemma add_state_zero_cube_witness :
  uchar_table make_state_table /\
  find_index make_state_table 0 = Some 0.
Proof.
  assert (uchar_table make_state_table) as H
    by (intros b; unfold make_state_table; lia).
  split; [exact H|].
  exact (proj1 (proj2 (add_state_zero_cube make_state_table 1 H))).
Defined.

(** ** The persisted table *)

Lemma nth_error_seq_0 n k : (k < n)%nat -> nth_error (seq 0 n) k = Some k.
Proof.
  intros H. rewrite (nth_error_nth' _ 0%nat) by (rewrite length_seq; exact H).
  rewrite seq_nth by exact H. reflexivity.
Qed.

Lemma write_state_table_spec t :
  exists bytes,
    write_state_table true t = Some bytes /\
    Z.of_nat (length bytes) = SIZE_OF_CUBE * NUMBER_OF_CUBES /\
    forall b, 0 <= b < SIZE_OF_CUBE * NUMBER_OF_CUBES ->
              nth_error bytes (Z.to_nat b) = Some (t b).
Proof.
  eexists. split; [reflexivity|]. split.
  - rewrite length_map, length_seq. unfold SIZE_OF_CUBE, NUMBER_OF_CUBES. lia.
  - intros b Hb. rewrite nth_error_map, nth_error_seq_0 by lia.
    cbn [option_map]. rewrite Z2Nat.id by lia. reflexivity.
Qed.

(** C7, as stated, fails: the table persisted after the build is
    18,370,800 bytes long, not 3,674,159 x 5 = 18,370,795. *)
Lemma persisted_table_size :
  exists n s bytes,
    fill_state_table n make_state_table = Some (Running s) /\
    contents (queue s) = [] /\
    write_state_table true (table s) = Some bytes /\
    Z.of_nat (length bytes) = 18370800 /\
    Z.of_nat (length bytes) <> 3674159 * 5.
Proof.
  destruct fill_exhausts as (n & s & l & _ & Hf & (_ & _ & _ & _ & Hq & _)).
  destruct (write_state_table_spec (table s)) as (bytes & Hw & Hlen & _).
  exists n, s, bytes. unfold SIZE_OF_CUBE, NUMBER_OF_CUBES in Hlen.
  repeat split; try assumption; lia.
Qed.

(** C7, amended: the table persisted after the build is the whole array,
    [NUMBER_OF_CUBES] records of 5 bytes, 18,370,800 bytes: first the records
    of the reachable configurations in ascending order of configuration
    value, each the configuration value in 4 bytes, high byte first, followed
    by a turn code from 1 to 6; then zero bytes up to the end of the array. *)
Theorem persisted_table_layout :
  (exists n s,
     fill_state_table n make_state_table = Some (Running s) /\
     contents (queue s) = []) /\
  (forall n s,
     fill_state_table n make_state_table = Some (Running s) ->
     contents (queue s) = [] ->
     exists bytes l,
       write_state_table true (table s) = Some bytes /\
       Z.of_nat (length bytes) = SIZE_OF_CUBE * NUMBER_OF_CUBES /\
       SIZE_OF_CUBE * NUMBER_OF_CUBES = 18370800 /\
       ascending l /\
       (forall cube, In cube (cubes l) <-> reachable cube) /\
       (forall k r, nth_error l k = Some r ->
          exists b3 b2 b1 b0,
            nth_error bytes (k * 5) = Some b3 /\
            nth_error bytes (k * 5 + 1) = Some b2 /\
            nth_error bytes (k * 5 + 2) = Some b1 /\
            nth_error bytes (k * 5 + 3) = Some b0 /\
            nth_error bytes (k * 5 + 4) = Some (snd r) /\
            0 <= b3 < 256 /\ 0 <= b2 < 256 /\ 0 <= b1 < 256 /\ 0 <= b0 < 256 /\
            fst r = b3 * 16777216 + b2 * 65536 + b1 * 256 + b0 /\
            1 <= snd r <= 6) /\
       (forall b, (length l * 5 <= b < length bytes)%nat ->
                  nth_error bytes b = Some 0)).
Proof.
  split.
  { destruct fill_exhausts as (n & s & l & _ & Hf & (_ & _ & _ & _ & Hq & _)).
    exists n, s. split; assumption. }
  intros n s Hf Hq.
  destruct (fill_stage n s Hf) as (l & q & Hb & (Hs & Hok & _) & Hr).
  pose proof Hr as (Hu & Hrep & _ & _ & Hq' & _). cbn [fst] in Hs, Hok.
  rewrite Hq in Hq'. subst q.
  destruct (write_state_table_spec (table s)) as (bytes & Hw & Hlen & Hnth).
  pose proof Hrep as (Hlenl & Hst & Hemp).
  exists bytes, l. split; [exact Hw|]. split; [exact Hlen|].
  split; [reflexivity|]. split; [exact Hs|].
  split; [exact (build_complete n l Hb)|]. split.
  - intros k r Hk.
    assert (k < length l)%nat as Hlt by (apply nth_error_Some; congruence).
    destruct (Hst k r Hk) as (E0 & E1 & E2 & E3 & E4).
    rewrite Forall_forall in Hok.
    destruct (Hok r (nth_error_In _ _ Hk)) as [Hreach Hturn].
    pose proof (valid_positive _ (reachable_valid _ Hreach)) as Hpos.
    exists (to_uchar (Z.shiftr (fst r) 24)), (to_uchar (Z.shiftr (fst r) 16)),
           (to_uchar (Z.shiftr (fst r) 8)), (to_uchar (fst r)).
    unfold SIZE_OF_CUBE in *.
    replace (k * 5)%nat with (Z.to_nat (Z.of_nat k * 5)) by lia.
    replace (Z.to_nat (Z.of_nat k * 5) + 1)%nat
      with (Z.to_nat (Z.of_nat k * 5 + 1)) by lia.
    replace (Z.to_nat (Z.of_nat k * 5) + 2)%nat
      with (Z.to_nat (Z.of_nat k * 5 + 2)) by lia.
    replace (Z.to_nat (Z.of_nat k * 5) + 3)%nat
      with (Z.to_nat (Z.of_nat k * 5 + 3)) by lia.
    replace (Z.to_nat (Z.of_nat k * 5) + 4)%nat
      with (Z.to_nat (Z.of_nat k * 5 + 4)) by lia.
    rewrite !Hnth by lia. rewrite E0, E1, E2, E3, E4.
    repeat (split; [reflexivity|]).
    repeat (split; [apply to_uchar_range|]).
    split; [symmetry; apply cube_bytes; lia|exact Hturn].
  - intros b Hbnd.
    assert (0 <= Z.of_nat b < SIZE_OF_CUBE * NUMBER_OF_CUBES) as Hb' by lia.
    specialize (Hnth (Z.of_nat b) Hb'). rewrite Nat2Z.id in Hnth. rewrite Hnth.
    f_equal. unfold SIZE_OF_CUBE in *.
    assert (Z.of_nat (length l) <= Z.of_nat b / 5 < NUMBER_OF_CUBES) as Hslot
      by (Z.div_mod_to_equations; lia).
    destruct (Hemp _ Hslot) as (Z0 & Z1 & Z2 & Z3 & Z4).
    assert (Z.of_nat b = Z.of_nat b / 5 * 5 \/ Z.of_nat b = Z.of_nat b / 5 * 5 + 1 \/
            Z.of_nat b = Z.of_nat b / 5 * 5 + 2 \/ Z.of_nat b = Z.of_nat b / 5 * 5 + 3 \/
            Z.of_nat b = Z.of_nat b / 5 * 5 + 4) as Hcase
      by (Z.div_mod_to_equations; lia).
    destruct Hcase as [E|[E|[E|[E|E]]]]; rewrite E; assumption.
Qed.

(** ** Lookups in tables that are not filled, and in filled ones *)

Lemma get_turn_ext t t' cube :
  (forall b, t b = t' b) -> get_turn t cube = get_turn t' cube.
Proof.
  intros H. rewrite !get_turn_unfold. apply get_turn_loop_ext. exact H.
Qed.

Lemma get_turn_loop_more fuel : forall fuel' t cube min max r,
  (fuel <= fuel')%nat ->
  get_turn_loop fuel t cube min max = Some r ->
  get_turn_loop fuel' t cube min max = Some r.
Proof.
  induction fuel as [|fuel IH]; intros fuel' t cube min max r Hle H; [discriminate|].
  destruct fuel' as [|fuel']; [lia|].
  cbn [get_turn_loop] in *. cbv zeta in *.
  destruct (_ <? cube).
  - destruct (_ >=? _); [|exact H]. apply IH; [lia|exact H].
  - destruct (_ >? cube); [|exact H].
    destruct (_ >=? _); [|exact H]. apply IH; [lia|exact H].
Qed.

Lemma make_state_table_uchar : uchar_table make_state_table.
Proof. intros b. unfold make_state_table. lia. Qed.

Lemma find_index_make_state_table cube :
  0 <= cube < 4294967296 -> find_index make_state_table cube = Some 0.
Proof.
  intros H.
  rewrite (find_index_represents make_state_table cube make_state_table_uchar H []
             make_state_table_represents (Forall_nil _)).
  reflexivity.
Qed.

Lemma single_record_table_written b :
  write_record make_state_table 0 SOLVED_CUBE 1 b = single_record_table b.
Proof.
  unfold write_record, single_record_table, store.
  rewrite shift_data_up_spec by (unfold NUMBER_OF_CUBES; lia).
  change (to_uchar (Z.shiftr SOLVED_CUBE 24)) with 95.
  change (to_uchar (Z.shiftr SOLVED_CUBE 16)) with 211.
  change (to_uchar (Z.shiftr SOLVED_CUBE 8)) with 9.
  change (to_uchar SOLVED_CUBE) with 126. change (to_uchar 1) with 1.
  change (0 * 5) with 0. change (0 + 1) with 1. change (0 + 2) with 2.
  change (0 + 3) with 3. change (0 + 4) with 4.
  destruct (b =? 4); [reflexivity|]. destruct (b =? 3); [reflexivity|].
  destruct (b =? 2); [reflexivity|]. destruct (b =? 1); [reflexivity|].
  destruct (b =? 0); [reflexivity|].
  destruct (_ && _); reflexivity.
Qed.

(** C6, as stated, fails: after [add_state] has put one record into the
    empty table the records that are filled are in ascending order, the
    record of the solved configuration is present, and [get_turn] answers
    [-1] for it. *)
Lemma get_turn_misses_record :
  exists t,
    add_state make_state_table SOLVED_CUBE 1 = Some (t, 1) /\
    represents t [(SOLVED_CUBE, 1)] /\ ascending [(SOLVED_CUBE, 1)] /\
    cube_at t 0 = SOLVED_CUBE /\ t 4 = 1 /\
    get_turn t SOLVED_CUBE = Some (-1).
Proof.
  exists (write_record make_state_table 0 SOLVED_CUBE 1).
  assert (represents (write_record make_state_table 0 SOLVED_CUBE 1)
                     [(SOLVED_CUBE, 1)]) as Hrep.
  { apply (write_record_represents make_state_table [] SOLVED_CUBE 1
             make_state_table_represents).
    unfold NUMBER_OF_CUBES. cbn. lia. }
  assert (uchar_table (write_record make_state_table 0 SOLVED_CUBE 1)) as Hu.
  { apply write_record_uchar; [unfold NUMBER_OF_CUBES; lia|].
    exact make_state_table_uchar. }
  split.
  { apply add_state_insert; [|lia]. apply find_index_make_state_table.
    unfold SOLVED_CUBE. lia. }
  split; [exact Hrep|]. split; [repeat constructor|]. split.
  { rewrite cube_at_value by exact Hu.
    rewrite (slot_is_value _ 0 (SOLVED_CUBE, 1));
      [reflexivity| |cbn; unfold SOLVED_CUBE; lia].
    apply (proj1 (proj2 Hrep) O). reflexivity. }
  split; [rewrite single_record_table_written; reflexivity|].
  rewrite (get_turn_ext _ single_record_table) by exact single_record_table_written.
  vm_compute. reflexivity.
Qed.

(** C6, amended: on a table whose [NUMBER_OF_CUBES] records are all in
    strictly ascending order of configuration value, [get_turn] returns the
    turn stored with the configuration when a record for it is present and
    [-1] when none is; the search halves an interval of records and ends
    within 22 probes. *)
Theorem get_turn_binary_search (state_table : Z -> Z) (cube : Z) :
  (forall i j, 0 <= i < j -> j < NUMBER_OF_CUBES ->
     cube_at state_table i < cube_at state_table j) ->
  (forall k, 0 <= k < NUMBER_OF_CUBES -> cube_at state_table k = cube ->
     get_turn state_table cube = Some (to_char (state_table (k * 5 + 4)))) /\
  ((forall k, 0 <= k < NUMBER_OF_CUBES -> cube_at state_table k <> cube) ->
     get_turn state_table cube = Some (-1)) /\
  (exists r, get_turn_loop 22 state_table cube 0 (NUMBER_OF_CUBES - 1) = Some r /\
             get_turn state_table cube = Some r).
Proof.
  intros Hsorted. split; [|split].
  - intros k Hk <-. apply get_turn_present; assumption.
  - apply get_turn_absent.
  - destruct (get_turn_loop_total 22 state_table cube 0 (NUMBER_OF_CUBES - 1))
      as (r & Hr); [unfold NUMBER_OF_CUBES; lia|unfold NUMBER_OF_CUBES; cbn; lia|].
    exists r. split; [exact Hr|]. rewrite get_turn_unfold.
    apply (get_turn_loop_more 22 32); [lia|exact Hr].
Qed.

Lemma ascending_table_uchar : uchar_table ascending_table.
Proof.
  intros b. unfold ascending_table. cbv zeta.
  destruct (_ =? 0); [apply to_uchar_range|].
  destruct (_ =? 1); [apply to_uchar_range|].
  destruct (_ =? 2); [apply to_uchar_range|].
  destruct (_ =? 3); [apply to_uchar_range|lia].
Qed.

Lemma ascending_table_byte i j :
  0 <= j < 5 ->
  ascending_table (i * 5 + j) =
  if j =? 0 then to_uchar (Z.shiftr (i + 1) 24)
  else if j =? 1 then to_uchar (Z.shiftr (i + 1) 16)
  else if j =? 2 then to_uchar (Z.shiftr (i + 1) 8)
  else if j =? 3 then to_uchar (i + 1)
  else 1.
Proof.
  intros Hj. unfold ascending_table. cbv zeta.
  replace ((i * 5 + j) / 5) with i by (Z.div_mod_to_equations; lia).
  replace ((i * 5 + j) mod 5) with j by (Z.div_mod_to_equations; lia).
  reflexivity.
Qed.

Lemma ascending_table_cube i :
  0 <= i < NUMBER_OF_CUBES -> cube_at ascending_table i = i + 1.
Proof.
  intros Hi. rewrite cube_at_value by exact ascending_table_uchar.
  unfold slot_value. pose proof (ascending_table_byte i 0 ltac:(lia)) as E0.
  rewrite Z.add_0_r in E0. rewrite E0.
  rewrite !ascending_table_byte by lia. cbn [Z.eqb Pos.eqb].
  unfold NUMBER_OF_CUBES in Hi.
  rewrite cube_bytes by lia. apply to_int_small. lia.
Qed.

Lemma ascending_table_sorted i j :
  0 <= i < j -> j < NUMBER_OF_CUBES ->
  cube_at ascending_table i < cube_at ascending_table j.
Proof. intros Hi Hj. rewrite !ascending_table_cube by lia. lia. Qed.

Lemma get_turn_binary_search_witness :
  (forall i j, 0 <= i < j -> j < NUMBER_OF_CUBES ->
     cube_at ascending_table i < cube_at ascending_table j) /\
  get_turn ascending_table 6 = Some 1 /\
  get_turn ascending_table 0 = Some (-1).
Proof.
  split; [exact ascending_table_sorted|].
  destruct (get_turn_binary_search ascending_table 6 ascending_table_sorted)
    as (Hpresent & _).
  destruct (get_turn_binary_search ascending_table 0 ascending_table_sorted)
    as (_ & Habsent & _).
  split.
  - apply (Hpresent 5); [unfold NUMBER_OF_CUBES; lia|].
    apply ascending_table_cube. unfold NUMBER_OF_CUBES. lia.
  - apply Habsent. intros k Hk. rewrite ascending_table_cube by exact Hk. lia.
Defined.

(** ** Overflow of the queue *)

(** The statement of [fill_state_table] and the statement that tests the
    result of [enqueue] differ on a full queue, and only there: the first
    goes on, the second aborts. *)
Lemma checked_discover_aborts s cube turn state_table' :
  add_state (table s) cube turn = Some (state_table', 1) ->
  cells_used (queue s) >= max_cells (queue s) ->
  checked_discover s cube turn = Some Aborts /\
  exists s', discover s cube turn = Some s'.
Proof.
  intros Ha Hfull. unfold checked_discover, discover. rewrite Ha.
  cbn [obind fst snd Z.eqb negb].
  rewrite (enqueue_overflow _ cube Hfull). cbn [snd Z.eqb].
  split; [reflexivity|]. eexists. reflexivity.
Qed.








(** ** Every configuration of the puzzle is reachable *)

Lemma apply_turns_app a : forall b cube,
  apply_turns (a ++ b) cube = (c <- apply_turns a cube ;; apply_turns b c).
Proof.
  induction a as [|t a IH]; intros b cube; [reflexivity|].
  cbn [app apply_turns]. destruct (rotate cube t); [apply IH|reflexivity].
Qed.

Lemma apply_turns_digits turns : forall cube,
  valid cube -> turns_ok turns ->
  exists cube',
    apply_turns turns cube = Some cube' /\ valid cube' /\
    forall i, 0 <= i < 7 ->
      turn_states turns (digit cube i) = Some (digit cube' i).
Proof.
  induction turns as [|t turns IH]; intros cube Hv Hok.
  - exists cube. split; [reflexivity|]. split; [exact Hv|]. intros i Hi. reflexivity.
  - pose proof (Forall_inv Hok) as Ht. pose proof (Forall_inv_tail Hok) as Hok'.
    destruct (rotate_in_space cube t (proj1 Hv) Ht) as (c1 & E1 & S1 & D1).
    pose proof (rotate_valid cube t c1 Hv Ht E1) as Hv1.
    destruct (IH c1 Hv1 Hok') as (c' & E' & Hv' & D').
    exists c'. cbn [apply_turns turn_states]. rewrite E1. cbn [obind].
    split; [exact E'|]. split; [exact Hv'|].
    intros i Hi. rewrite (D1 i Hi). cbn [obind]. apply D'. exact Hi.
Qed.

Lemma apply_turns_reachable turns : forall cube cube',
  reachable cube -> turns_ok turns -> apply_turns turns cube = Some cube' ->
  reachable cube'.
Proof.
  induction turns as [|t turns IH]; intros cube cube' Hr Hok H.
  - cbn in H. injection H as <-. exact Hr.
  - cbn [apply_turns] in H. destruct (rotate cube t) as [c1|] eqn:E1; [|discriminate].
    cbn [obind] in H.
    apply (IH c1 cube'); [|exact (Forall_inv_tail Hok)|exact H].
    apply (reach_turn cube t c1 Hr (Forall_inv Hok) E1).
Qed.

Lemma apply_turns_reverse turns : forall cube cube',
  in_space cube -> turns_ok turns -> apply_turns turns cube = Some cube' ->
  apply_turns (map inverse_turn (rev turns)) cube' = Some cube.
Proof.
  induction turns as [|t turns IH]; intros cube cube' Hs Hok H.
  - cbn in H. injection H as <-. reflexivity.
  - cbn [apply_turns] in H. destruct (rotate cube t) as [c1|] eqn:E1; [|discriminate].
    cbn [obind] in H.
    destruct (rotate_inverse cube t c1 Hs (Forall_inv Hok) E1) as [S1 I1].
    cbn [rev]. rewrite map_app, apply_turns_app.
    rewrite (IH c1 cube' S1 (Forall_inv_tail Hok) H). cbn [obind map apply_turns].
    rewrite I1. reflexivity.
Qed.

Lemma turns_ok_reverse turns :
  turns_ok turns -> turns_ok (map inverse_turn (rev turns)).
Proof.
  intros H. unfold turns_ok in *. rewrite Forall_forall in *.
  intros t Ht. apply in_map_iff in Ht. destruct Ht as (t0 & <- & Hin).
  apply inverse_turn_range. apply H. apply in_rev. exact Hin.
Qed.

Lemma placing_check_ok : placing_check = true.
Proof. vm_compute. reflexivity. Qed.

Lemma state_is_true o s : state_is o s = true -> o = Some s.
Proof.
  destruct o as [s'|]; cbn; [|discriminate]. intros H. apply Z.eqb_eq in H.
  congruence.
Qed.

Lemma placing_spec k b :
  0 <= k < 6 -> 0 <= b < 21 -> k <= b / 3 ->
  turns_ok (placing k b) /\
  turn_states (placing k b) b = Some (solved_state k) /\
  forall j, 0 <= j < k ->
    turn_states (placing k b) (solved_state j) = Some (solved_state j).
Proof.
  intros Hk Hb Hpos. pose proof placing_check_ok as H. unfold placing_check in H.
  rewrite forallb_forall in H. specialize (H k (In_zrange 6 k Hk)).
  rewrite forallb_forall in H. specialize (H b (In_zrange 21 b Hb)).
  destruct (Z.ltb_spec (b / 3) k); [lia|].
  apply andb_true_iff in H. destruct H as [H H3].
  apply andb_true_iff in H. destruct H as [H1 H2].
  split; [|split].
  - unfold turns_ok. apply Forall_forall. intros t Ht.
    rewrite forallb_forall in H1. specialize (H1 t Ht). lia.
  - apply state_is_true. exact H2.
  - intros j Hj. rewrite forallb_forall in H3.
    specialize (H3 j (In_zrange 6 j ltac:(lia))).
    destruct (Z.ltb_spec j k); [|lia]. apply state_is_true. exact H3.
Qed.

Lemma solved_state_position j : 0 <= j < 7 -> solved_state j / 3 = j.
Proof. revert j. apply index_cases_7; reflexivity. Qed.

Lemma distinctb_NoDup l : distinctb l = true -> NoDup l.
Proof.
  induction l as [|x l IH]; intros H; [constructor|].
  cbn [distinctb] in H. apply andb_true_iff in H. destruct H as [H1 H2].
  constructor; [|apply IH; exact H2].
  intros Hin. apply negb_true_iff in H1.
  assert (existsb (Z.eqb x) l = true) as E; [|congruence].
  apply existsb_exists. exists x. split; [exact Hin|apply Z.eqb_refl].
Qed.

Lemma positions_nth cube i :
  0 <= i < 7 -> nth (Z.to_nat i) (positions cube) 0 = digit cube i / 3.
Proof. revert i. apply index_cases_7; reflexivity. Qed.

Lemma positions_distinct cube i j :
  distinctb (positions cube) = true -> 0 <= i < 7 -> 0 <= j < 7 -> i <> j ->
  digit cube i / 3 <> digit cube j / 3.
Proof.
  intros Hd Hi Hj Hne E. apply distinctb_NoDup in Hd.
  rewrite <- (positions_nth cube i Hi), <- (positions_nth cube j Hj) in E.
  apply (proj1 (NoDup_nth (positions cube) 0) Hd) in E; cbn [positions length]; lia.
Qed.

(** Piece [k] is put in place once the pieces before it are. *)
Lemma place_piece k cube :
  0 <= k < 6 -> valid cube ->
  (forall j, 0 <= j < k -> digit cube j = solved_state j) ->
  exists turns cube',
    turns_ok turns /\ apply_turns turns cube = Some cube' /\ valid cube' /\
    forall j, 0 <= j < k + 1 -> digit cube' j = solved_state j.
Proof.
  intros Hk Hv Hsolved.
  assert (k <= digit cube k / 3) as Hpos.
  { destruct (Z.le_gt_cases k (digit cube k / 3)) as [H|H]; [exact H|].
    exfalso. pose proof (digit_position cube k) as Hp.
    apply (positions_distinct cube k (digit cube k / 3) (proj1 (proj2 Hv)));
      try lia.
    rewrite (Hsolved (digit cube k / 3)) by lia.
    rewrite solved_state_position by lia. reflexivity. }
  destruct (placing_spec k (digit cube k) Hk (digit_range cube k) Hpos)
    as (Hok & Hk' & Hj').
  destruct (apply_turns_digits _ cube Hv Hok) as (c' & E & Hv' & D).
  exists (placing k (digit cube k)), c'. split; [exact Hok|].
  split; [exact E|]. split; [exact Hv'|].
  intros j Hj. assert (Some (digit c' j) = Some (solved_state j)) as Heq;
    [|congruence].
  rewrite <- (D j ltac:(lia)).
  destruct (Z.eq_dec j k) as [->|Hne]; [exact Hk'|].
  rewrite (Hsolved j) by lia. apply Hj'. lia.
Qed.

Lemma place_pieces n cube :
  (n <= 6)%nat -> valid cube ->
  exists turns cube',
    turns_ok turns /\ apply_turns turns cube = Some cube' /\ valid cube' /\
    forall j, 0 <= j < Z.of_nat n -> digit cube' j = solved_state j.
Proof.
  intros Hn Hv. induction n as [|n IH].
  - exists [], cube. split; [constructor|]. split; [reflexivity|].
    split; [exact Hv|]. intros j Hj. lia.
  - destruct (IH ltac:(lia)) as (ts & c1 & Hok & E & Hv1 & D).
    destruct (place_piece (Z.of_nat n) c1 ltac:(lia) Hv1 D)
      as (ts' & c2 & Hok' & E' & Hv2 & D').
    exists (ts ++ ts'), c2. split; [apply Forall_app; split; assumption|].
    split; [rewrite apply_turns_app, E; exact E'|]. split; [exact Hv2|].
    intros j Hj. apply D'. lia.
Qed.

Lemma valid_solvable cube :
  valid cube ->
  exists turns, turns_ok turns /\ apply_turns turns cube = Some SOLVED_CUBE.
Proof.
  intros Hv. destruct (place_pieces 6 cube ltac:(lia) Hv)
    as (ts & c' & Hok & E & Hv' & D).
  exists ts. split; [exact Hok|]. rewrite E. f_equal.
  apply digits_eq; [exact (proj1 Hv')|exact solved_in_space|].
  assert (digit c' 6 = solved_state 6) as D6.
  { destruct Hv' as (_ & Hd & Hw).
    pose proof (positions_distinct c' 6 0 Hd ltac:(lia) ltac:(lia) ltac:(lia)) as N0.
    pose proof (positions_distinct c' 6 1 Hd ltac:(lia) ltac:(lia) ltac:(lia)) as N1.
    pose proof (positions_distinct c' 6 2 Hd ltac:(lia) ltac:(lia) ltac:(lia)) as N2.
    pose proof (positions_distinct c' 6 3 Hd ltac:(lia) ltac:(lia) ltac:(lia)) as N3.
    pose proof (positions_distinct c' 6 4 Hd ltac:(lia) ltac:(lia) ltac:(lia)) as N4.
    pose proof (positions_distinct c' 6 5 Hd ltac:(lia) ltac:(lia) ltac:(lia)) as N5.
    unfold twist in Hw.
    rewrite (D 0), (D 1), (D 2), (D 3), (D 4), (D 5) in * by (cbn; lia).
    change (solved_state 0) with 0 in *. change (solved_state 1) with 5 in *.
    change (solved_state 2) with 6 in *. change (solved_state 3) with 9 in *.
    change (solved_state 4) with 13 in *. change (solved_state 5) with 15 in *.
    change (solved_state 6) with 18.
    pose proof (digit_range c' 6) as R6.
    clear - N0 N1 N2 N3 N4 N5 Hw R6. Z.div_mod_to_equations. lia. }
  intros i Hi. destruct (Z.eq_dec i 6) as [->|Hne]; [exact D6|].
  apply D. cbn. lia.
Qed.

Lemma valid_reachable cube : valid cube -> reachable cube.
Proof.
  intros Hv. destruct (valid_solvable cube Hv) as (ts & Hok & E).
  apply (apply_turns_reachable (map inverse_turn (rev ts)) SOLVED_CUBE cube
           reach_solved (turns_ok_reverse ts Hok)).
  apply (apply_turns_reverse ts cube SOLVED_CUBE (proj1 Hv) Hok E).
Qed.

(** ** There are exactly [NUMBER_OF_CUBES] configurations *)

Lemma tuples_spec n : forall l,
  In l (tuples n) -> length l = n /\ Forall (fun p => 0 <= p < 7) l.
Proof.
  induction n as [|n IH]; intros l H.
  - destruct H as [<-|[]]. split; [reflexivity|constructor].
  - cbn [tuples] in H. apply in_flat_map in H. destruct H as (p & Hp & H).
    apply in_map_iff in H. destruct H as (l' & <- & Hl').
    destruct (IH l' Hl') as [E F]. split; [cbn; congruence|].
    constructor; [|exact F]. apply in_zrange_iff in Hp. lia.
Qed.

Lemma arrangement_spec l :
  In l arrangements ->
  distinctb l = true /\
  exists p0 p1 p2 p3 p4 p5 p6,
    l = [p0; p1; p2; p3; p4; p5; p6] /\
    0 <= p0 < 7 /\ 0 <= p1 < 7 /\ 0 <= p2 < 7 /\ 0 <= p3 < 7 /\
    0 <= p4 < 7 /\ 0 <= p5 < 7 /\ 0 <= p6 < 7.
Proof.
  intros H. unfold arrangements in H. apply filter_In in H.
  destruct H as [H Hd]. split; [exact Hd|].
  destruct (tuples_spec 7 l H) as [E F].
  destruct l as [|p0 [|p1 [|p2 [|p3 [|p4 [|p5 [|p6 [|? ?]]]]]]]];
    try discriminate.
  exists p0, p1, p2, p3, p4, p5, p6. split; [reflexivity|].
  repeat match goal with
         | F : Forall _ (_ :: _) |- _ =>
           let a := fresh "R" in
           pose proof (Forall_inv F) as a; apply Forall_inv_tail in F;
           cbv beta in a
         end.
  repeat split; lia.
Qed.

Lemma place_spec p0 p1 p2 p3 p4 p5 p6 code :
  0 <= p0 < 7 -> 0 <= p1 < 7 -> 0 <= p2 < 7 -> 0 <= p3 < 7 ->
  0 <= p4 < 7 -> 0 <= p5 < 7 -> 0 <= p6 < 7 -> 0 <= code < 729 ->
  let cube := place [p0; p1; p2; p3; p4; p5; p6] code in
  in_space cube /\ positions cube = [p0; p1; p2; p3; p4; p5; p6] /\
  twist cube = 0 /\ orientation_code cube = code.
Proof.
  intros R0 R1 R2 R3 R4 R5 R6 Rc. cbv zeta. unfold place.
  set (o0 := code mod 3). set (o1 := (code / 3) mod 3).
  set (o2 := (code / 3 / 3) mod 3). set (o3 := (code / 3 / 3 / 3) mod 3).
  set (o4 := (code / 3 / 3 / 3 / 3) mod 3).
  set (o5 := (code / 3 / 3 / 3 / 3 / 3) mod 3).
  set (o6 := (- (o0 + o1 + o2 + o3 + o4 + o5)) mod 3).
  assert (0 <= o0 < 3) as B0 by (apply Z.mod_pos_bound; lia).
  assert (0 <= o1 < 3) as B1 by (apply Z.mod_pos_bound; lia).
  assert (0 <= o2 < 3) as B2 by (apply Z.mod_pos_bound; lia).
  assert (0 <= o3 < 3) as B3 by (apply Z.mod_pos_bound; lia).
  assert (0 <= o4 < 3) as B4 by (apply Z.mod_pos_bound; lia).
  assert (0 <= o5 < 3) as B5 by (apply Z.mod_pos_bound; lia).
  assert (0 <= o6 < 3) as B6 by (apply Z.mod_pos_bound; lia).
  assert (o0 + o1 * 3 + o2 * 9 + o3 * 27 + o4 * 81 + o5 * 243 = code) as Ec.
  { subst o0 o1 o2 o3 o4 o5. clear - Rc. Z.div_mod_to_equations. lia. }
  assert ((o0 + o1 + o2 + o3 + o4 + o5 + o6) mod 3 = 0) as Et.
  { subst o6. clearbody o0 o1 o2 o3 o4 o5. clear. Z.div_mod_to_equations. lia. }
  clearbody o0 o1 o2 o3 o4 o5 o6.
  destruct (digits_compose (3 * p0 + o0) (3 * p1 + o1) (3 * p2 + o2)
              (3 * p3 + o3) (3 * p4 + o4) (3 * p5 + o5) (3 * p6 + o6))
    as (Hs & D0 & D1 & D2 & D3 & D4 & D5 & D6); try lia.
  split; [exact Hs|].
  unfold positions, twist, orientation_code.
  rewrite D0, D1, D2, D3, D4, D5, D6.
  assert (forall p o, 0 <= o < 3 -> (3 * p + o) / 3 = p) as Ed.
  { intros p o Ho. Z.div_mod_to_equations. lia. }
  assert (forall p o, 0 <= o < 3 -> (3 * p + o) mod 3 = o) as Em.
  { intros p o Ho. Z.div_mod_to_equations. lia. }
  rewrite !Ed, !Em by assumption.
  split; [reflexivity|]. split; [|exact Ec].
  clear - Et. Z.div_mod_to_equations. lia.
Qed.

Lemma zrange_NoDup n : NoDup (zrange n).
Proof.
  unfold zrange. apply NoDup_map_on; [|apply seq_NoDup].
  intros x y _ _. apply Nat2Z.inj.
Qed.

Lemma NoDup_append {A : Type} (l l' : list A) :
  NoDup l -> NoDup l' -> (forall x, In x l -> ~ In x l') -> NoDup (l ++ l').
Proof.
  intros Hl Hl' Hd. induction Hl as [|x l Hx Hl IH]; [exact Hl'|].
  cbn [app]. constructor.
  - intros Hin. apply in_app_or in Hin. destruct Hin as [Hin|Hin].
    + exact (Hx Hin).
    + exact (Hd x (or_introl eq_refl) Hin).
  - apply IH. intros y Hy. apply Hd. right. exact Hy.
Qed.

Lemma tuples_NoDup n : NoDup (tuples n).
Proof.
  induction n as [|n IH]; [repeat constructor; intros []|].
  cbn [tuples]. pose proof (zrange_NoDup 7) as Hr.
  induction Hr as [|p ps Hp Hps IHps]; [constructor|].
  cbn [flat_map]. apply NoDup_append.
  - apply NoDup_map_on; [|exact IH]. intros x y _ _ E. congruence.
  - exact IHps.
  - intros l Hl Hl'. apply in_map_iff in Hl. destruct Hl as (l0 & <- & _).
    apply in_flat_map in Hl'. destruct Hl' as (p' & Hp' & Hl').
    apply in_map_iff in Hl'. destruct Hl' as (l1 & E & _).
    apply Hp. congruence.
Qed.

Lemma arrangements_NoDup : NoDup arrangements.
Proof. apply NoDup_filter. apply tuples_NoDup. Qed.

Lemma index_of_nth_NoDup l : NoDup l -> forall i,
  (i < length l)%nat -> index_of (nth i l []) l = i.
Proof.
  induction 1 as [|x l Hx Hl IH]; intros i Hi; [cbn in Hi; lia|].
  cbn [length] in Hi. destruct i as [|i]; cbn [nth index_of].
  - destruct (list_eq_dec Z.eq_dec x x) as [_|Hne]; [reflexivity|congruence].
  - destruct (list_eq_dec Z.eq_dec (nth i l []) x) as [E|_].
    + exfalso. apply Hx. rewrite <- E. apply nth_In. lia.
    + rewrite IH by lia. reflexivity.
Qed.

Lemma index_of_nth i :
  (i < length arrangements)%nat ->
  index_of (nth i arrangements []) arrangements = i.
Proof. apply index_of_nth_NoDup. apply arrangements_NoDup. Qed.

Lemma unrank_spec r :
  0 <= r < NUMBER_OF_CUBES -> valid (unrank r) /\ rank (unrank r) = r.
Proof.
  intros Hr. unfold unrank, rank.
  assert (0 <= r / 729 < 5040 /\ 0 <= r mod 729 < 729 /\
          r = r / 729 * 729 + r mod 729) as (Hq & Hm & Er).
  { unfold NUMBER_OF_CUBES in Hr. Z.div_mod_to_equations. lia. }
  set (q := r / 729) in *. set (m := r mod 729) in *. clearbody q m.
  assert (Z.to_nat q < length arrangements)%nat as Hlt.
  { pose proof arrangements_length as Hl.
    set (n := length arrangements) in *. clearbody n. lia. }
  pose proof (index_of_nth _ Hlt) as Hidx.
  destruct (arrangement_spec _ (nth_In arrangements [] Hlt))
    as (Hd & p0 & p1 & p2 & p3 & p4 & p5 & p6 & E & R0 & R1 & R2 & R3 & R4 &
        R5 & R6).
  set (a := nth (Z.to_nat q) arrangements []) in *. clearbody a.
  destruct (place_spec p0 p1 p2 p3 p4 p5 p6 m R0 R1 R2 R3 R4 R5 R6 Hm)
    as (Hs & Hp & Ht & Ho).
  rewrite <- E in Hs, Hp, Ht, Ho.
  split.
  - split; [exact Hs|]. split; [rewrite Hp; exact Hd|exact Ht].
  - rewrite Hp, Hidx, Ho. lia.
Qed.


(** A list that holds every configuration of the puzzle has at least
    [NUMBER_OF_CUBES] elements. *)
Lemma valid_listed (l : list Z) :
  (forall cube, valid cube -> In cube l) ->
  NUMBER_OF_CUBES <= Z.of_nat (length l).
Proof.
  intros Hall.
  set (L := map unrank (zrange (Z.to_nat NUMBER_OF_CUBES))).
  assert (forall r, In r (zrange (Z.to_nat NUMBER_OF_CUBES)) ->
                    0 <= r < NUMBER_OF_CUBES) as Hin.
  { intros r Hr. apply in_zrange_iff in Hr. unfold NUMBER_OF_CUBES in *. lia. }
  assert (NoDup L) as Hnd.
  { apply NoDup_map_on; [|apply zrange_NoDup].
    intros x y Hx Hy E.
    rewrite <- (proj2 (unrank_spec x (Hin x Hx))).
    rewrite <- (proj2 (unrank_spec y (Hin y Hy))). congruence. }
  assert (incl L l) as Hi.
  { intros c Hc. apply in_map_iff in Hc. destruct Hc as (r & <- & Hr).
    apply Hall. apply (proj1 (unrank_spec r (Hin r Hr))). }
  pose proof (NoDup_incl_length Hnd Hi) as Hl.
  unfold L, zrange in Hl. rewrite !length_map, length_seq in Hl.
  unfold NUMBER_OF_CUBES in *. lia.
Qed.

(** ** The queue as a bounded FIFO *)

Lemma call_fifo n q c :
  queue_wf q -> max_cells q = n ->
  snd (call q c) = snd (fifo_call n (contents q) c) /\
  queue_wf (fst (call q c)) /\ max_cells (fst (call q c)) = n /\
  contents (fst (call q c)) = fst (fifo_call n (contents q) c).
Proof.
  intros Hwf Hn. pose proof Hwf as (Hmax & Hhead & Hused & Htail).
  pose proof (contents_length q (proj1 Hused)) as Hlen.
  destruct c as [element| |]; cbn [call fifo_call].
  - rewrite Hlen, <- Hn. destruct (Z.geb_spec (cells_used q) (max_cells q)) as [Hfull|Hroom].
    + rewrite (enqueue_overflow q element) by lia. cbn [fst snd].
      assert (cells_used q = max_cells q) as E by lia.
      split; [reflexivity|]. split.
      { unfold queue_wf. cbn [max_cells head cells_used tail].
        repeat split; try lia. rewrite Htail, E. reflexivity. }
      split; [reflexivity|]. unfold contents. cbn [base head max_cells cells_used].
      rewrite E. reflexivity.
    + destruct (enqueue_spec q element Hwf Hroom) as (R & W & C & M).
      rewrite R, C. cbn [fst snd]. repeat split; try apply W; assumption.
  - destruct (Z.le_gt_cases (cells_used q) 0) as [Hempty|Hsome].
    + assert (cells_used q = 0) as E by lia.
      assert (contents q = []) as Ec.
      { unfold contents. rewrite E. reflexivity. }
      rewrite (dequeue_empty q Hempty), Ec. cbn [fst snd].
      split; [reflexivity|]. split.
      { unfold queue_wf. cbn [max_cells head cells_used tail].
        rewrite E in Htail. repeat split; lia || exact Htail. }
      split; [exact Hn|]. unfold contents. reflexivity.
    + destruct (dequeue_spec q Hwf Hsome) as (W & C & M).
      rewrite C. cbn [fst snd]. repeat split; try apply W; congruence.
  - destruct (Z.le_gt_cases (cells_used q) 0) as [Hempty|Hsome].
    + assert (cells_used q = 0) as E by lia.
      assert (contents q = []) as Ec.
      { unfold contents. rewrite E. reflexivity. }
      rewrite (peek_empty q Hempty), Ec. cbn [fst snd].
      split; [reflexivity|]. split.
      { unfold queue_wf. cbn [max_cells head cells_used tail].
        rewrite E in Htail. repeat split; lia || exact Htail. }
      split; [exact Hn|]. unfold contents. reflexivity.
    + destruct (peek_spec q Hwf Hsome) as (F & C).
      rewrite F. destruct (contents q) as [|x rest] eqn:Ec; [discriminate|].
      cbn [tl] in C. injection C as C. cbn [fst snd]. repeat split; try apply Hwf; congruence.
Qed.

Lemma calls_fifo n cs : forall q,
  queue_wf q -> max_cells q = n ->
  snd (calls q cs) = snd (fifo_calls n (contents q) cs) /\
  queue_wf (fst (calls q cs)) /\
  contents (fst (calls q cs)) = fst (fifo_calls n (contents q) cs).
Proof.
  induction cs as [|c cs IH]; intros q Hwf Hn.
  - cbn. repeat split; try apply Hwf.
  - cbn [calls fifo_calls].
    destruct (call_fifo n q c Hwf Hn) as (R & W & M & C).
    destruct (call q c) as [q' r]. destruct (fifo_call n (contents q) c) as [l' r'].
    cbn [fst snd] in R, W, M, C. subst r' l'.
    destruct (IH q' W M) as (R' & W' & C').
    destruct (calls q' cs) as [q'' rs]. destruct (fifo_calls n (contents q') cs) as [l'' rs'].
    cbn [fst snd] in *. subst. repeat split; try apply W'.
Qed.

(** ** Lookups read the table only *)

Lemma cube_at_agree t t' k :
  (forall b, 0 <= b < SIZE_OF_CUBE * NUMBER_OF_CUBES -> t b = t' b) ->
  0 <= k < NUMBER_OF_CUBES -> cube_at t k = cube_at t' k.
Proof.
  intros H Hk. unfold cube_at, SIZE_OF_CUBE, NUMBER_OF_CUBES in *.
  rewrite !H by lia. reflexivity.
Qed.

Lemma get_turn_loop_agree fuel : forall t t' cube min max,
  (forall b, 0 <= b < SIZE_OF_CUBE * NUMBER_OF_CUBES -> t b = t' b) ->
  0 <= min -> min <= max -> max < NUMBER_OF_CUBES ->
  get_turn_loop fuel t cube min max = get_turn_loop fuel t' cube min max.
Proof.
  induction fuel as [|fuel IH]; intros t t' cube min max H Hmin Hle Hmax;
    [reflexivity|].
  cbn [get_turn_loop].
  assert (min <= min + Z.quot (max - min) 2 <= max) as Hmid.
  { rewrite Z.quot_div_nonneg by lia. Z.div_mod_to_equations. lia. }
  set (middle := min + Z.quot (max - min) 2) in *. clearbody middle.
  rewrite <- (cube_at_agree t t' middle H) by lia.
  rewrite <- (H (middle * 5 + 4))
    by (unfold SIZE_OF_CUBE, NUMBER_OF_CUBES in *; lia).
  destruct (cube_at t middle <? cube).
  - destruct (Z.geb_spec max (middle + 1)); [|reflexivity].
    apply IH; try assumption; lia.
  - destruct (cube_at t middle >? cube); [|reflexivity].
    destruct (Z.geb_spec (middle - 1) min); [|reflexivity].
    apply IH; try assumption; lia.
Qed.

Lemma get_turn_agree t t' cube :
  (forall b, 0 <= b < SIZE_OF_CUBE * NUMBER_OF_CUBES -> t b = t' b) ->
  get_turn t cube = get_turn t' cube.
Proof.
  intros H. rewrite !get_turn_unfold.
  apply get_turn_loop_agree; [exact H|..]; unfold NUMBER_OF_CUBES; lia.
Qed.

Lemma solve_loop_agree free : forall t t' cube turn_sequence count,
  (forall b, 0 <= b < SIZE_OF_CUBE * NUMBER_OF_CUBES -> t b = t' b) ->
  solve_loop free t cube turn_sequence count =
  solve_loop free t' cube turn_sequence count.
Proof.
  induction free as [|free IH]; intros t t' cube turn_sequence count H;
    cbn [solve_loop]; rewrite (get_turn_agree t t' cube H); [reflexivity|].
  destruct (get_turn t' cube) as [r|]; [|reflexivity]. cbn [obind].
  destruct (r =? -1); [reflexivity|].
  destruct (perform_turn r cube) as [c|]; [|reflexivity]. cbn [obind].
  destruct (negb (r =? 0)); [|reflexivity]. apply IH. exact H.
Qed.

Lemma read_written t t0 :
  exists t', read_state_table (write_state_table true t) t0 = Some t' /\
    (forall b, 0 <= b < SIZE_OF_CUBE * NUMBER_OF_CUBES -> t' b = t b) /\
    (forall b, ~ 0 <= b < SIZE_OF_CUBE * NUMBER_OF_CUBES -> t' b = t0 b).
Proof.
  destruct (write_state_table_spec t) as (bytes & E & _ & Hb).
  rewrite E. cbn [read_state_table]. eexists. split; [reflexivity|]. split.
  - intros b Hr. cbv beta.
    destruct (Z.leb_spec 0 b); [|lia].
    destruct (Z.ltb_spec b (SIZE_OF_CUBE * NUMBER_OF_CUBES)); [|lia].
    cbn [andb]. rewrite (Hb b Hr). reflexivity.
  - intros b Hr. cbv beta.
    destruct (Z.leb_spec 0 b); [|reflexivity].
    destruct (Z.ltb_spec b (SIZE_OF_CUBE * NUMBER_OF_CUBES)); [lia|reflexivity].
Qed.

(** ** The scan of [find_index] past the last record *)

Lemma find_index_spec_above l cube : forall i,
  (forall c, In c (cubes l) -> c < cube) ->
  find_index_spec l cube i false = None.
Proof.
  induction l as [|r l IH]; intros i H; [reflexivity|].
  cbn [find_index_spec].
  assert (fst r < cube) as Hr by (apply H; left; reflexivity).
  destruct (Z.ltb_spec (fst r) cube); [|lia].
  apply IH. intros c Hc. apply H. right. exact Hc.
Qed.

Lemma empty_table_cube_at k : cube_at make_state_table k = 0.
Proof. reflexivity. Qed.

Lemma get_turn_empty_table cube :
  get_turn make_state_table cube = Some (if cube =? 0 then 0 else -1).
Proof.
  destruct (Z.eqb_spec cube 0) as [->|Hne].
  - reflexivity.
  - apply get_turn_absent. intros k _. rewrite empty_table_cube_at. congruence.
Qed.

Lemma sorted_nth_error (l : list Z) : StronglySorted Z.lt l ->
  forall i j a b, (i < j)%nat ->
    nth_error l i = Some a -> nth_error l j = Some b -> a < b.
Proof.
  induction 1 as [|x l Hs IH Hall]; intros i j a b Hij Ha Hb.
  - destruct i; discriminate.
  - destruct j as [|j]; [lia|]. cbn [nth_error] in Hb.
    destruct i as [|i]; cbn [nth_error] in Ha.
    + injection Ha as <-. rewrite Forall_forall in Hall. apply Hall.
      apply (nth_error_In l j Hb).
    + apply (IH i j a b); [lia|assumption..].
Qed.

(** ** Where [rotate] is defined *)

Lemma turn_table_get_defined turn s s' :
  turn_table_get turn s = Some s' -> 0 <= turn < 6 /\ 0 <= s < 21.
Proof.
  unfold turn_table_get. intros H.
  destruct (Z.leb_spec 0 turn); [|discriminate].
  destruct (Z.ltb_spec turn 6); [|discriminate].
  destruct (Z.leb_spec 0 s); [|discriminate].
  destruct (Z.ltb_spec s 21); [|discriminate]. lia.
Qed.

Lemma rotate_defined cube turn cube' :
  rotate cube turn = Some cube' -> in_space cube /\ 0 <= turn < 6.
Proof.
  unfold rotate. intros H.
  destruct (turn_table_get turn (Z.quot cube c21_6)) as [s6|] eqn:E6;
    [|discriminate].
  destruct (turn_table_get turn (Z.quot (Z.rem cube c21_6) c21_5))
    as [s5|] eqn:E5; [|discriminate].
  destruct (turn_table_get turn (Z.quot (Z.rem cube c21_5) c21_4))
    as [s4|] eqn:E4; [|discriminate].
  destruct (turn_table_get turn (Z.quot (Z.rem cube c21_4) c21_3))
    as [s3|] eqn:E3; [|discriminate].
  destruct (turn_table_get turn (Z.quot (Z.rem cube c21_3) c21_2))
    as [s2|] eqn:E2; [|discriminate].
  destruct (turn_table_get turn (Z.quot (Z.rem cube c21_2) c21_1))
    as [s1|] eqn:E1; [|discriminate].
  destruct (turn_table_get turn (Z.rem cube c21_1)) as [s0|] eqn:E0;
    [|discriminate].
  clear H.
  apply turn_table_get_defined in E6, E5, E4, E3, E2, E1, E0.
  split; [|lia].
  unfold in_space, c21_6, c21_5, c21_4, c21_3, c21_2, c21_1 in *.
  destruct E6 as [_ E6]. destruct E5 as [_ E5]. destruct E4 as [_ E4].
  destruct E3 as [_ E3]. destruct E2 as [_ E2]. destruct E1 as [_ E1].
  destruct E0 as [_ E0]. clear - E6 E5 E4 E3 E2 E1 E0.
  destruct (Z.le_gt_cases 0 cube) as [Hpos|Hneg].
  - rewrite Z.quot_div_nonneg in E6 by lia. Z.div_mod_to_equations. lia.
  - exfalso.
    replace cube with (- (- cube)) in * by lia.
    set (c := - cube) in *. assert (0 < c) as Hc by lia. clearbody c. clear Hneg.
    rewrite !Z.rem_opp_l in * by lia.
    rewrite !Z.quot_opp_l in * by lia.
    rewrite !Z.rem_mod_nonneg in * by lia.
    rewrite !Z.quot_div_nonneg in *
      by (try lia; apply Z.mod_pos_bound; lia).
    Z.div_mod_to_equations. lia.
Qed.

(** ** Sequences of turns on the whole configuration space *)

Lemma apply_turns_space turns : forall cube,
  in_space cube -> turns_ok turns ->
  exists cube',
    apply_turns turns cube = Some cube' /\ in_space cube' /\
    forall i, 0 <= i < 7 ->
      turn_states turns (digit cube i) = Some (digit cube' i).
Proof.
  induction turns as [|t turns IH]; intros cube Hs Hok.
  - exists cube. split; [reflexivity|]. split; [exact Hs|].
    intros i Hi. reflexivity.
  - pose proof (Forall_inv Hok) as Ht. pose proof (Forall_inv_tail Hok) as Hok'.
    destruct (rotate_in_space cube t Hs Ht) as (c1 & E1 & S1 & D1).
    destruct (IH c1 S1 Hok') as (c' & E' & Hs' & D').
    exists c'. cbn [apply_turns turn_states]. rewrite E1. cbn [obind].
    split; [exact E'|]. split; [exact Hs'|].
    intros i Hi. rewrite (D1 i Hi). cbn [obind]. apply D'. exact Hi.
Qed.

(** Two sequences of turns that do the same to each of the 21 states of a
    piece do the same to every configuration. *)
Lemma apply_turns_same a b cube :
  in_space cube -> turns_ok a -> turns_ok b ->
  (forall s, 0 <= s < 21 -> turn_states a s = turn_states b s) ->
  apply_turns a cube = apply_turns b cube.
Proof.
  intros Hs Ha Hb H.
  destruct (apply_turns_space a cube Hs Ha) as (ca & Ea & Sa & Da).
  destruct (apply_turns_space b cube Hs Hb) as (cb & Eb & Sb & Db).
  rewrite Ea, Eb. f_equal. apply digits_eq; try assumption.
  intros i Hi. specialize (Da i Hi). specialize (Db i Hi).
  rewrite (H _ (digit_range cube i)) in Da. congruence.
Qed.

Lemma four_turns_check :
  forallb (fun turn =>
    forallb (fun s =>
      state_is (turn_states [turn; turn; turn; turn] s) s &&
      match turn_states [turn; turn; turn] s with
      | Some s' => state_is (turn_states [inverse_turn turn] s) s'
      | None => false
      end &&
      match turn_states [turn; turn] s with
      | Some s' =>
        state_is (turn_states [inverse_turn turn; inverse_turn turn] s) s'
      | None => false
      end) (zrange 21)) (zrange 6) = true.
Proof. vm_compute. reflexivity. Qed.

Lemma four_turns_states turn s :
  0 <= turn < 6 -> 0 <= s < 21 ->
  turn_states [turn; turn; turn; turn] s = turn_states [] s /\
  turn_states [turn; turn; turn] s = turn_states [inverse_turn turn] s /\
  turn_states [turn; turn] s =
  turn_states [inverse_turn turn; inverse_turn turn] s.
Proof.
  intros Ht Hs. pose proof four_turns_check as H.
  rewrite forallb_forall in H. specialize (H turn (In_zrange 6 turn Ht)).
  rewrite forallb_forall in H. specialize (H s (In_zrange 21 s Hs)).
  apply andb_true_iff in H. destruct H as [H H2].
  apply andb_true_iff in H. destruct H as [H4 H3].
  split; [apply state_is_true; exact H4|]. split.
  - destruct (turn_states [turn; turn; turn] s) as [s'|]; [|discriminate].
    symmetry. apply state_is_true. exact H3.
  - destruct (turn_states [turn; turn] s) as [s'|]; [|discriminate].
    symmetry. apply state_is_true. exact H2.
Qed.

(** ** The table when the frontier is exhausted *)

Lemma build_exhausted_count n l :
  build n = Some (l, []) -> Z.of_nat (length l) = NUMBER_OF_CUBES.
Proof.
  intros H. pose proof (build_records_bound n _ H) as Hle. cbn [fst] in Hle.
  pose proof (build_complete n l H) as Hall.
  assert (NUMBER_OF_CUBES <= Z.of_nat (length (cubes l))) as Hge.
  { apply valid_listed. intros c Hc. apply Hall. apply valid_reachable.
    exact Hc. }
  unfold cubes in Hge. rewrite length_map in Hge. lia.
Qed.

Lemma build_exhausted_stage n l :
  build n = Some (l, []) -> Z.of_nat n = NUMBER_OF_CUBES + 1.
Proof.
  intros H. pose proof (build_exhausted_count n l H) as Hc.
  destruct (build_refines n _ H) as (_ & Hn & _). cbn [fst snd length] in Hn.
  lia.
Qed.

(** The records of a table that represents ascending records, slot by
    slot. *)
Lemma represents_full_sorted t l :
  uchar_table t -> represents t l -> Forall record_ok l -> ascending l ->
  Z.of_nat (length l) = NUMBER_OF_CUBES ->
  (forall k, 0 <= k < NUMBER_OF_CUBES ->
     exists r, nth_error l (Z.to_nat k) = Some r /\ cube_at t k = fst r /\
               t (k * 5 + 4) = snd r) /\
  (forall i j, 0 <= i < j -> j < NUMBER_OF_CUBES ->
     cube_at t i < cube_at t j).
Proof.
  intros Hu Hr Hok Hasc Hfull.
  assert (forall k, 0 <= k < NUMBER_OF_CUBES ->
            exists r, nth_error l (Z.to_nat k) = Some r /\
                      cube_at t k = fst r /\ t (k * 5 + 4) = snd r) as Hslot.
  { intros k Hk. pose proof (represents_cube_at t l k Hu Hr Hok Hk) as H.
    destruct (nth_error l (Z.to_nat k)) as [r|] eqn:E.
    - exists r. split; [reflexivity|exact H].
    - exfalso. apply nth_error_None in E. lia. }
  split; [exact Hslot|].
  intros i j Hij Hj.
  destruct (Hslot i ltac:(lia)) as (ri & Ei & Ci & _).
  destruct (Hslot j ltac:(lia)) as (rj & Ej & Cj & _).
  rewrite Ci, Cj.
  apply (sorted_nth_error (cubes l) Hasc (Z.to_nat i) (Z.to_nat j));
    [lia|unfold cubes; rewrite nth_error_map, Ei; reflexivity
        |unfold cubes; rewrite nth_error_map, Ej; reflexivity].
Qed.

(** What the loop state holds when the frontier is exhausted. *)
Lemma exhausted_table n s :
  fill_state_table n make_state_table = Some (Running s) ->
  contents (queue s) = [] ->
  exists l,
    build n = Some (l, []) /\ refines s l [] /\ build_inv (l, []) /\
    Z.of_nat (length l) = NUMBER_OF_CUBES /\
    (forall cube, In cube (cubes l) <-> reachable cube).
Proof.
  intros H Hq. destruct (fill_stage n s H) as (l & q & Hb & Hinv & Href).
  assert (q = []) as ->.
  { destruct Href as (_ & _ & _ & _ & Hc & _). congruence. }
  exists l. split; [exact Hb|]. split; [exact Href|]. split; [exact Hinv|].
  split; [exact (build_exhausted_count n l Hb)|exact (build_complete n l Hb)].
Qed.

Lemma exhausted_lookup n s cube :
  fill_state_table n make_state_table = Some (Running s) ->
  contents (queue s) = [] ->
  (reachable cube ->
   exists r, get_turn (table s) cube = Some r /\ 1 <= r <= 6) /\
  (~ reachable cube -> get_turn (table s) cube = Some (-1)).
Proof.
  intros H Hq. destruct (exhausted_table n s H Hq)
    as (l & Hb & Href & Hinv & Hlen & Hall).
  destruct Href as (Hu & Hr & _).
  destruct Hinv as (Hasc & Hent & _).
  pose proof (entries_record_ok l Hent) as Hok.
  destruct (represents_full_sorted (table s) l Hu Hr Hok Hasc Hlen)
    as [Hslot Hsorted].
  split.
  - intros Hreach. apply Hall in Hreach.
    destruct (represents_holds (table s) l cube Hu Hr Hok Hreach)
      as (k & Hk & Ek).
    exists (to_char (table s (k * 5 + 4))).
    split; [rewrite <- Ek; apply (get_turn_present (table s) Hsorted k Hk)|].
    destruct (Hslot k Hk) as (r & En & _ & Et). rewrite Et.
    rewrite Forall_forall in Hent.
    destruct (Hent r (nth_error_In _ _ En)) as [_ Hcode].
    rewrite to_char_small by lia. exact Hcode.
  - intros Hnot. apply get_turn_absent. intros k Hk Ek.
    destruct (Hslot k Hk) as (r & En & Ec & _). apply Hnot. apply Hall.
    rewrite <- Ek, Ec. unfold cubes. apply in_map. apply (nth_error_In _ _ En).
Qed.

Lemma solve_loop_overrun t :
  (forall cube, reachable cube ->
     exists r, get_turn t cube = Some r /\ 1 <= r <= 6) ->
  forall free cube turn_sequence count,
    reachable cube -> solve_loop free t cube turn_sequence count = None.
Proof.
  intros Hget. induction free as [|free IH];
    intros cube turn_sequence count Hreach;
    destruct (Hget cube Hreach) as (r & E & Hr); cbn [solve_loop];
    rewrite E; cbn [obind];
    (destruct (Z.eqb_spec r (-1)); [lia|]); [reflexivity|].
  destruct (perform_turn_reachable r cube Hreach Hr) as (c' & Ep & Hreach').
  rewrite Ep. cbn [obind]. destruct (Z.eqb_spec r 0); [lia|]. cbn [negb].
  apply IH. exact Hreach'.
Qed.

(** ** The build proceeds by distance from the solved cube *)

Lemma stored_path_incl l l' d c :
  incl l l' -> stored_path l d c -> stored_path l' d c.
Proof.
  intros Hi H. induction H as [|d cube turn cube' Hne Hin Hp _ IH].
  - constructor.
  - apply (stored_step l' d cube turn cube'); auto.
Qed.

Lemma depth_incl l l' d c : incl l l' -> depth l d c -> depth l' d c.
Proof.
  intros Hi [Hp Hm]. split; [exact (stored_path_incl l l' d c Hi Hp)|exact Hm].
Qed.

Lemma settled_incl l l' c : incl l l' -> settled l c -> settled l' c.
Proof.
  intros Hi H turn c' Ht E. apply (incl_cubes l l' Hi). exact (H turn c' Ht E).
Qed.

Lemma known_incl l l' c : incl l l' -> known l c -> known l' c.
Proof.
  intros Hi [H|H]; [left; exact H|right; exact (incl_cubes l l' Hi c H)].
Qed.

(** The turn performed for a code undoes the turn that was recorded with
    the code. *)
Lemma neighbours_back x cts :
  in_space x -> neighbours x = Some cts ->
  forall ct, In ct cts -> perform_turn (snd ct) (fst ct) = Some x.
Proof.
  intros Hs H. unfold neighbours, frontC, frontCC, leftC, leftCC, topC, topCC in H.
  destruct (rotate x 1) as [c1|] eqn:E1; [|discriminate].
  destruct (rotate x 0) as [c0|] eqn:E0; [|discriminate].
  destruct (rotate x 3) as [c3|] eqn:E3; [|discriminate].
  destruct (rotate x 2) as [c2|] eqn:E2; [|discriminate].
  destruct (rotate x 5) as [c5|] eqn:E5; [|discriminate].
  destruct (rotate x 4) as [c4|] eqn:E4; [|discriminate].
  cbn [obind] in H. injection H as <-.
  pose proof (proj2 (rotate_inverse x 1 c1 Hs ltac:(lia) E1)) as I1.
  pose proof (proj2 (rotate_inverse x 0 c0 Hs ltac:(lia) E0)) as I0.
  pose proof (proj2 (rotate_inverse x 3 c3 Hs ltac:(lia) E3)) as I3.
  pose proof (proj2 (rotate_inverse x 2 c2 Hs ltac:(lia) E2)) as I2.
  pose proof (proj2 (rotate_inverse x 5 c5 Hs ltac:(lia) E5)) as I5.
  pose proof (proj2 (rotate_inverse x 4 c4 Hs ltac:(lia) E4)) as I4.
  intros ct Hin. cbn [In] in Hin.
  destruct Hin as [<-|[<-|[<-|[<-|[<-|[<-|[]]]]]]]; cbn [fst snd];
    assumption.
Qed.

(** A stored path is a sequence of turns from the solved cube, read
    backwards. *)
Lemma perform_turn_back turn cube cube' :
  1 <= turn <= 6 -> perform_turn turn cube = Some cube' ->
  exists t, 0 <= t < 6 /\ rotate cube' t = Some cube.
Proof.
  intros Ht H. unfold perform_turn, frontC, frontCC, leftC, leftCC, topC, topCC in H.
  assert (exists u, 0 <= u < 6 /\ rotate cube u = Some cube') as (u & Hu & E).
  { destruct (Z.eqb_spec turn 0); [lia|].
    destruct (Z.eqb_spec turn 1); [exists 0; split; [lia|exact H]|].
    destruct (Z.eqb_spec turn 2); [exists 1; split; [lia|exact H]|].
    destruct (Z.eqb_spec turn 3); [exists 2; split; [lia|exact H]|].
    destruct (Z.eqb_spec turn 4); [exists 3; split; [lia|exact H]|].
    destruct (Z.eqb_spec turn 5); [exists 4; split; [lia|exact H]|].
    destruct (Z.eqb_spec turn 6); [exists 5; split; [lia|exact H]|]. lia. }
  exists (inverse_turn u). split; [apply inverse_turn_range; exact Hu|].
  destruct (rotate_defined cube u cube' E) as [Hs _].
  apply (rotate_inverse cube u cube' Hs Hu E).
Qed.

Lemma stored_path_turns_away l d c :
  Forall entry_ok l -> stored_path l d c -> turns_away d c.
Proof.
  intros Hent H. induction H as [|d cube turn cube' Hne Hin Hp _ IH].
  - constructor.
  - rewrite Forall_forall in Hent. destruct (Hent _ Hin) as [_ Hcode].
    cbn [snd] in Hcode.
    destruct (perform_turn_back turn cube cube' Hcode Hp) as (t & Ht & E).
    apply (away_turn d cube' t cube IH Ht E).
Qed.

Lemma turns_away_reachable k c : turns_away k c -> reachable c.
Proof.
  induction 1 as [|n cube turn cube' _ IH Ht E]; [constructor|].
  apply (reach_turn cube turn cube' IH Ht E).
Qed.

Lemma reachable_turns_away c : reachable c -> exists k, turns_away k c.
Proof.
  induction 1 as [|cube turn cube' _ [k IH] Ht E].
  - exists O. constructor.
  - exists (S k). apply (away_turn k cube turn cube' IH Ht E).
Qed.

(** *** Inside an iteration *)

Lemma record_cube_present st ct :
  In (fst ct) (cubes (fst st)) -> record_cube st ct = st.
Proof.
  intros H. unfold record_cube.
  rewrite (proj2 (existsb_cubes (fst ct) (fst st)) H). reflexivity.
Qed.

Lemma record_cube_new st ct :
  ~ In (fst ct) (cubes (fst st)) ->
  record_cube st ct = (insert_record ct (fst st), snd st ++ [fst ct]).
Proof.
  intros H. unfold record_cube.
  destruct (existsb (Z.eqb (fst ct)) (cubes (fst st))) eqn:E; [|reflexivity].
  exfalso. apply H. apply existsb_cubes. exact E.
Qed.

Lemma fold_record_cube_settled cts : forall st,
  (forall ct, In ct cts -> In (fst ct) (cubes (fst st))) ->
  fold_left record_cube cts st = st.
Proof.
  induction cts as [|ct cts IH]; intros st H; [reflexivity|].
  cbn [fold_left]. rewrite record_cube_present by (apply H; left; reflexivity).
  apply IH. intros ct' Hin. apply H. right. exact Hin.
Qed.

Section Iteration.

Variables (x : Z) (d0 : nat) (l0 : list (Z * Z)) (q0 : list Z).
Hypothesis Hx : stored_path l0 d0 x.
Hypothesis Hknown : forall c k, turns_away k c -> (k <= d0)%nat -> known l0 c.

Lemma record_cube_iteration st ct :
  iteration_inv d0 l0 q0 st ->
  perform_turn (snd ct) (fst ct) = Some x ->
  (fst ct = SOLVED_CUBE -> settled l0 SOLVED_CUBE) ->
  iteration_inv d0 l0 q0 (record_cube st ct).
Proof.
  intros (Hincl & Hall & q1 & Hq & Hq1) Hback Hsolved.
  destruct (in_dec Z.eq_dec (fst ct) (cubes (fst st))) as [Hin|Hnew].
  - rewrite record_cube_present by exact Hin.
    split; [exact Hincl|]. split; [exact Hall|]. exists q1. split; assumption.
  - rewrite record_cube_new by exact Hnew. cbn [fst snd].
    assert (incl (fst st) (insert_record ct (fst st))) as Hgrow.
    { intros r Hr. apply insert_record_in. right. exact Hr. }
    assert (fst ct <> SOLVED_CUBE ->
            depth (insert_record ct (fst st)) (S d0) (fst ct)) as Hnewd.
    { intros Hne. split.
      - apply (stored_step _ d0 (fst ct) (snd ct) x Hne).
        + apply insert_record_in. left. destruct ct; reflexivity.
        + exact Hback.
        + apply (stored_path_incl l0); [|exact Hx].
          intros r Hr. apply Hgrow. apply Hincl. exact Hr.
      - intros k Hk. destruct (Nat.le_gt_cases (S d0) k) as [Hle|Hlt];
          [exact Hle|].
        exfalso. destruct (Hknown (fst ct) k Hk ltac:(lia)) as [E|Hin].
        + exact (Hne E).
        + apply Hnew. apply (incl_cubes l0 (fst st) Hincl). exact Hin. }
    split; [intros r Hr; apply Hgrow; apply Hincl; exact Hr|]. split.
    + intros c Hc. apply insert_record_cubes in Hc. destruct Hc as [->|Hc].
      * destruct (Z.eq_dec (fst ct) SOLVED_CUBE) as [E|Hne].
        -- exists O. rewrite E. split; [constructor|intros k _; lia].
        -- exists (S d0). exact (Hnewd Hne).
      * destruct (Hall c Hc) as [d Hd]. exists d.
        apply (depth_incl (fst st)); assumption.
    + exists (q1 ++ [fst ct]). split; [rewrite Hq, app_assoc; reflexivity|].
      intros c Hc. apply in_app_or in Hc. destruct Hc as [Hc|[<-|[]]].
      * destruct (Hq1 c Hc) as [Hd|Hs].
        -- left. apply (depth_incl (fst st)); assumption.
        -- right. apply (settled_incl (fst st)); assumption.
      * destruct (Z.eq_dec (fst ct) SOLVED_CUBE) as [E|Hne].
        -- right. rewrite E. apply (settled_incl l0); [|exact (Hsolved E)].
           intros r Hr. apply Hgrow. apply Hincl. exact Hr.
        -- left. exact (Hnewd Hne).
Qed.

Lemma fold_record_cube_iteration cts : forall st,
  iteration_inv d0 l0 q0 st ->
  (forall ct, In ct cts -> perform_turn (snd ct) (fst ct) = Some x) ->
  (forall ct, In ct cts -> fst ct = SOLVED_CUBE -> settled l0 SOLVED_CUBE) ->
  iteration_inv d0 l0 q0 (fold_left record_cube cts st).
Proof.
  induction cts as [|ct cts IH]; intros st Hinv Hback Hsolved; [exact Hinv|].
  cbn [fold_left]. apply IH.
  - apply record_cube_iteration; [exact Hinv|apply Hback; left; reflexivity|].
    apply Hsolved. left. reflexivity.
  - intros ct' Hin. apply Hback. right. exact Hin.
  - intros ct' Hin. apply Hsolved. right. exact Hin.
Qed.

End Iteration.

(** *** Between iterations *)

Lemma neighbours_forward x cts :
  neighbours x = Some cts ->
  forall ct, In ct cts ->
    exists turn, 0 <= turn < 6 /\ rotate x turn = Some (fst ct).
Proof.
  intros H. unfold neighbours, frontC, frontCC, leftC, leftCC, topC, topCC in H.
  destruct (rotate x 1) as [c1|] eqn:E1; [|discriminate].
  destruct (rotate x 0) as [c0|] eqn:E0; [|discriminate].
  destruct (rotate x 3) as [c3|] eqn:E3; [|discriminate].
  destruct (rotate x 2) as [c2|] eqn:E2; [|discriminate].
  destruct (rotate x 5) as [c5|] eqn:E5; [|discriminate].
  destruct (rotate x 4) as [c4|] eqn:E4; [|discriminate].
  cbn [obind] in H. injection H as <-.
  intros ct Hin. cbn [In] in Hin.
  destruct Hin as [<-|[<-|[<-|[<-|[<-|[<-|[]]]]]]]; cbn [fst snd].
  - exists 1. split; [lia|assumption].
  - exists 0. split; [lia|assumption].
  - exists 3. split; [lia|assumption].
  - exists 2. split; [lia|assumption].
  - exists 5. split; [lia|assumption].
  - exists 4. split; [lia|assumption].
Qed.

Lemma solved_not_next_to_itself turn :
  0 <= turn < 6 -> rotate SOLVED_CUBE turn <> Some SOLVED_CUBE.
Proof.
  intros Ht.
  assert (turn = 0 \/ turn = 1 \/ turn = 2 \/ turn = 3 \/ turn = 4 \/ turn = 5)
    as H by lia.
  destruct H as [->|[->|[->|[->|[->| ->]]]]]; vm_compute; discriminate.
Qed.

Lemma layered_shift l q d0 q1 :
  layered l q d0 [] q1 ->
  (forall c, In c (cubes l) -> ~ In c q -> settled l c) ->
  layered l q (S d0) q1 [].
Proof.
  intros (Hq & _ & H1 & Hknown & Hsettled) Hclosed. cbn [app] in Hq.
  assert (forall c k, turns_away k c -> (k <= d0)%nat -> settled l c) as Hset.
  { intros c k Hk Hle. destruct (Hsettled c k Hk Hle) as [H|[]]. exact H. }
  assert (forall c k, turns_away k c -> (k <= S d0)%nat -> known l c) as Hknown'.
  { intros c k Hk Hle. destruct (Nat.eq_dec k (S d0)) as [->|Hne].
    - inversion Hk as [|n p turn c' Hp Ht E]; subst.
      right. apply (Hset p d0 Hp (Nat.le_refl _) turn c Ht E).
    - apply (Hknown c k Hk). lia. }
  split; [rewrite app_nil_r; exact Hq|]. split; [exact H1|].
  split; [intros c []|]. split; [exact Hknown'|].
  intros c k Hk Hle. destruct (Hknown' c k Hk Hle) as [->|Hin].
  - left. apply (Hset SOLVED_CUBE O away_solved). lia.
  - destruct (in_dec Z.eq_dec c q) as [Hq'|Hq'].
    + right. rewrite <- Hq. exact Hq'.
    + left. exact (Hclosed c Hin Hq').
Qed.

Lemma bfs_step l x rest st' :
  build_inv (l, x :: rest) -> bfs_inv (l, x :: rest) ->
  build_step (l, x :: rest) = Some st' -> bfs_inv st'.
Proof.
  intros Hinv [Hall Hlay] Hstep. cbn [fst snd] in Hall, Hlay.
  pose proof (build_inv_head l x rest Hinv) as Hreach.
  pose proof (build_inv_frontier l x rest Hinv) as Hfr.
  destruct Hinv as (_ & _ & _ & Hseed & Hclosed). cbn [fst snd] in Hseed, Hclosed.
  (* the head belongs to the first part of the frontier *)
  assert (exists d0 q0 q1, layered l (x :: rest) d0 (x :: q0) q1 /\
                           rest = q0 ++ q1) as (d0 & q0 & q1 & Hl & Hrest).
  { destruct Hlay as (d0 & q0 & q1 & Hl). destruct q0 as [|y q0].
    - pose proof (layered_shift l (x :: rest) d0 q1 Hl Hclosed) as Hl'.
      pose proof (proj1 Hl') as Hq. rewrite app_nil_r in Hq. subst q1.
      exists (S d0), rest, []. split; [exact Hl'|rewrite app_nil_r; reflexivity].
    - pose proof (proj1 Hl) as Hq. cbn [app] in Hq. injection Hq as <- Hq.
      exists d0, q0, q1. split; [exact Hl|exact Hq]. }
  destruct Hl as (_ & H0 & H1 & Hknown & Hsettled).
  cbn [build_step snd fst] in Hstep.
  destruct (neighbours_spec x Hreach) as (cts & Ects & Hents & Hnext).
  rewrite Ects in Hstep. cbn [obind] in Hstep. injection Hstep as <-.
  destruct (H0 x (or_introl eq_refl)) as [Hdepth|Hset].
  - (* the configurations next to the head are looked at *)
    assert (iteration_inv d0 l q0 (l, rest)) as Hit.
    { split; [apply incl_refl|]. split; [exact Hall|].
      exists q1. split; [exact Hrest|exact H1]. }
    assert (forall ct, In ct cts -> fst ct = SOLVED_CUBE ->
                       settled l SOLVED_CUBE) as Hsolved.
    { intros ct Hin E. destruct Hseed as [[-> Hq]|[_ Hs]].
      - exfalso. injection Hq as -> _.
        destruct (neighbours_forward SOLVED_CUBE cts Ects ct Hin)
          as (turn & Ht & Er).
        rewrite E in Er. exact (solved_not_next_to_itself turn Ht Er).
      - intros turn c Ht Er. exact (Hs turn c Ht Er). }
    pose proof (fold_record_cube_iteration x d0 l q0 (proj1 Hdepth) Hknown cts
                  (l, rest) Hit
                  (neighbours_back x cts (reachable_in_space x Hreach) Ects)
                  Hsolved) as (Hincl & Hall' & q1' & Hq' & Hq1').
    destruct (fold_record_cube cts (l, rest) Hfr Hents)
      as (_ & _ & Hrec & _).
    set (st' := fold_left record_cube cts (l, rest)) in *.
    cbn [fst] in Hincl.
    split; [exact Hall'|]. exists d0, q0, q1'. split; [exact Hq'|].
    split.
    { intros c Hc. destruct (H0 c (or_intror Hc)) as [Hd|Hs].
      - left. apply (depth_incl l); assumption.
      - right. apply (settled_incl l); assumption. }
    split; [exact Hq1'|]. split.
    { intros c k Hk Hle. apply (known_incl l); [exact Hincl|].
      exact (Hknown c k Hk Hle). }
    intros c k Hk Hle. destruct (Hsettled c k Hk Hle) as [Hs|[<-|Hin]].
    + left. apply (settled_incl l); assumption.
    + left. intros turn c' Ht Er.
      pose proof (Hnext turn c' Ht Er) as Hin. apply in_map_iff in Hin.
      destruct Hin as (ct & <- & Hct). exact (Hrec ct Hct).
    + right. exact Hin.
  - (* nothing next to the head is new *)
    rewrite fold_record_cube_settled.
    2:{ intros ct Hin. cbn [fst].
        destruct (neighbours_forward x cts Ects ct Hin) as (turn & Ht & Er).
        exact (Hset turn (fst ct) Ht Er). }
    split; [exact Hall|]. exists d0, q0, q1. cbn [fst snd].
    split; [exact Hrest|]. split; [intros c Hc; apply H0; right; exact Hc|].
    split; [exact H1|]. split; [exact Hknown|].
    intros c k Hk Hle. destruct (Hsettled c k Hk Hle) as [Hs|[<-|Hin]].
    + left. exact Hs.
    + left. exact Hset.
    + right. exact Hin.
Qed.

Lemma bfs_inv_init : bfs_inv ([], [SOLVED_CUBE]).
Proof.
  split; [intros c []|]. exists O, [SOLVED_CUBE], []. cbn [fst snd].
  split; [reflexivity|]. split.
  { intros c [<-|[]]. left. split; [constructor|intros k _; lia]. }
  split; [intros c []|].
  assert (forall c k, turns_away k c -> (k <= 0)%nat -> c = SOLVED_CUBE) as H.
  { intros c k Hk Hle. inversion Hk; subst; [reflexivity|lia]. }
  split.
  - intros c k Hk Hle. left. exact (H c k Hk Hle).
  - intros c k Hk Hle. right. left. symmetry. exact (H c k Hk Hle).
Qed.

Lemma build_bfs n : forall st, build n = Some st -> bfs_inv st.
Proof.
  induction n as [|n IH]; intros st H.
  - cbn in H. injection H as <-. exact bfs_inv_init.
  - cbn [build] in H. destruct (build n) as [[l q]|] eqn:E; [|discriminate].
    cbn [obind] in H. destruct q as [|x rest]; [discriminate|].
    destruct (build_refines n _ E) as (Hinv & _).
    exact (bfs_step l x rest st Hinv (IH _ eq_refl) H).
Qed.

(** *** Reading the stored path off the table *)

Lemma get_turn_record t l c turn :
  uchar_table t -> represents t l -> Forall entry_ok l -> ascending l ->
  Z.of_nat (length l) = NUMBER_OF_CUBES -> In (c, turn) l ->
  get_turn t c = Some turn.
Proof.
  intros Hu Hr Hent Hasc Hlen Hin.
  pose proof (entries_record_ok l Hent) as Hok.
  destruct (represents_full_sorted t l Hu Hr Hok Hasc Hlen) as [Hslot Hsorted].
  apply In_nth_error in Hin. destruct Hin as [k Hk].
  assert (k < length l)%nat as Hklt by (apply nth_error_Some; congruence).
  destruct (Hslot (Z.of_nat k) ltac:(lia)) as (r & En & Ec & Et).
  rewrite Nat2Z.id, Hk in En. injection En as <-. cbn [fst snd] in Ec, Et.
  rewrite <- Ec.
  rewrite (get_turn_present t Hsorted (Z.of_nat k)) by lia.
  rewrite Et. f_equal. apply to_char_small.
  rewrite Forall_forall in Hent.
  destruct (Hent _ (nth_error_In _ _ Hk)) as [_ Hcode]. cbn [snd] in Hcode. lia.
Qed.

Lemma follow_stored t l :
  uchar_table t -> represents t l -> Forall entry_ok l -> ascending l ->
  Z.of_nat (length l) = NUMBER_OF_CUBES ->
  forall d c, stored_path l d c -> follow d t c = Some SOLVED_CUBE.
Proof.
  intros Hu Hr Hent Hasc Hlen d c H.
  induction H as [|d cube turn cube' Hne Hin Hp _ IH]; [reflexivity|].
  cbn [follow]. rewrite (get_turn_record t l cube turn Hu Hr Hent Hasc Hlen Hin).
  cbn [obind]. rewrite Hp. cbn [obind]. exact IH.
Qed.

Lemma exhausted_route n s cube :
  fill_state_table n make_state_table = Some (Running s) ->
  contents (queue s) = [] -> reachable cube ->
  exists d, turns_away d cube /\ (forall k, turns_away k cube -> (d <= k)%nat) /\
            follow d (table s) cube = Some SOLVED_CUBE.
Proof.
  intros H Hq Hreach.
  destruct (exhausted_table n s H Hq) as (l & Hb & Href & Hinv & Hlen & Hall).
  destruct Href as (Hu & Hr & _). destruct Hinv as (Hasc & Hent & _).
  destruct (build_bfs n _ Hb) as [Hdepth _]. cbn [fst] in Hdepth.
  destruct (Hdepth cube (proj2 (Hall cube) Hreach)) as (d & Hp & Hmin).
  exists d. split; [exact (stored_path_turns_away l d cube Hent Hp)|].
  split; [exact Hmin|].
  exact (follow_stored (table s) l Hu Hr Hent Hasc Hlen d cube Hp).
Qed.

(** ** The loop of [test_state_table] *)

Lemma test_loop_zero t :
  (forall b, t b = 0) -> forall n i, test_loop n t i = Some [].
Proof.
  intros H. induction n as [|n IH]; intros i; [reflexivity|].
  cbn [test_loop].
  assert (cube_at t i = 0) as E.
  { unfold cube_at. rewrite !H. reflexivity. }
  rewrite E.
  assert (solve_cube 0 t = solve_cube 0 make_state_table) as Es.
  { apply solve_loop_agree. intros b _. rewrite H. reflexivity. }
  rewrite Es. cbn [obind]. rewrite IH. reflexivity.
Qed.

Lemma test_loop_first n t :
  solve_cube (cube_at t 0) t = None -> test_loop (S n) t 0 = None.
Proof. intros H. cbn [test_loop]. rewrite H. reflexivity. Qed.

(** ** The cube struct of a configuration *)

Lemma stickers_check_ok : stickers_check = true.
Proof. vm_compute. reflexivity. Qed.

Lemma length_3 {A : Type} (l : list A) :
  length l = 3%nat -> exists a b c, l = [a; b; c].
Proof.
  destruct l as [|a [|b [|c [|d l]]]]; try discriminate.
  intros _. exists a, b, c. reflexivity.
Qed.

Lemma stickers_spec piece state :
  0 <= piece < 7 -> 0 <= state < 21 ->
  exists a b c,
    sticker_colors piece state = Some [a; b; c] /\
    stickers piece state = [a; b; c] /\
    forallb is_color [a; b; c] = true /\
    which_piece [a; b; c] = piece /\
    get_piece_state piece (state / 3) [a; b; c] = Some state /\
    forall x, In x [chr "o"; chr "r"; chr "w"; chr "y"; chr "g"; chr "b"] ->
      count_in x [a; b; c] = count_in x (piece_colors_of piece).
Proof.
  intros Hp Hs. pose proof stickers_check_ok as H. unfold stickers_check in H.
  rewrite forallb_forall in H. specialize (H piece (In_zrange 7 piece Hp)).
  rewrite forallb_forall in H. specialize (H state (In_zrange 21 state Hs)).
  unfold stickers.
  destruct (sticker_colors piece state) as [l|]; [|discriminate].
  apply andb_true_iff in H. destruct H as [H H5].
  apply andb_true_iff in H. destruct H as [H H4].
  apply andb_true_iff in H. destruct H as [H H3].
  apply andb_true_iff in H. destruct H as [H1 H2].
  apply Nat.eqb_eq in H1. destruct (length_3 l H1) as (a & b & c & ->).
  exists a, b, c. split; [reflexivity|]. split; [reflexivity|].
  split; [exact H2|]. split; [apply Z.eqb_eq; exact H3|]. split.
  - destruct (get_piece_state piece (state / 3) [a; b; c]) as [s|];
      [|discriminate]. apply Z.eqb_eq in H4. congruence.
  - intros x Hx. rewrite forallb_forall in H5. apply Nat.eqb_eq.
    exact (H5 x Hx).
Qed.

Lemma cells_three pos :
  0 <= pos < 7 ->
  exists tb fb rl,
    piece_cells pos = [tb; fb; rl] /\ tb <> fb /\ tb <> rl /\ fb <> rl.
Proof.
  revert pos. apply index_cases_7; cbn; eexists _, _, _;
    (split; [reflexivity|]); lia.
Qed.

Lemma cells_disjoint pos pos' c :
  0 <= pos < 7 -> 0 <= pos' < 7 -> pos <> pos' ->
  In c (piece_cells pos) -> ~ In c (piece_cells pos').
Proof.
  intros Hp Hp'. revert pos' Hp'. revert pos Hp.
  apply (index_cases_7
           (fun pos => forall pos', 0 <= pos' < 7 -> pos <> pos' ->
              In c (piece_cells pos) -> ~ In c (piece_cells pos')));
    apply (index_cases_7
             (fun pos' => _ <> pos' -> In c (piece_cells _) ->
                          ~ In c (piece_cells pos')));
    cbn; intros Hne Hin Hin'; lia.
Qed.

Lemma cells_not_fixed pos c :
  0 <= pos < 7 -> In c (piece_cells pos) -> ~ In c fixed_cells.
Proof.
  revert pos.
  apply (index_cases_7
           (fun pos => In c (piece_cells pos) -> ~ In c fixed_cells));
    cbn; intros Hin Hin'; lia.
Qed.

Lemma cells_entries pos :
  0 <= pos < 7 ->
  exists ns,
    nth_error position_entries (Z.to_nat pos) = Some ns /\
    map (fun n => nth (Z.to_nat n) entry_cells 0) ns = piece_cells pos.
Proof.
  revert pos. apply index_cases_7; eexists; (split; [reflexivity|]);
    reflexivity.
Qed.

(** What [insert] writes. *)
Lemma insert_defined cube_S piece state l :
  sticker_colors piece state = Some l ->
  insert cube_S (piece_colors_of piece) piece state =
  Some (write3 cube_S (piece_cells (Z.quot state 3)) l).
Proof.
  unfold sticker_colors, insert. intros H.
  destruct (state_table_row _ state) as [row|]; [|discriminate].
  cbn [obind] in *.
  destruct (nth_error row 0) as [i0|]; [|discriminate]. cbn [obind] in *.
  destruct (nth_error row 1) as [i1|]; [|discriminate]. cbn [obind] in *.
  destruct (nth_error row 2) as [i2|]; [|discriminate]. cbn [obind] in *.
  destruct (nth_error (piece_colors_of piece) (Z.to_nat i0)) as [a|];
    [|discriminate]. cbn [obind] in *.
  destruct (nth_error (piece_colors_of piece) (Z.to_nat i1)) as [b|];
    [|discriminate]. cbn [obind] in *.
  destruct (nth_error (piece_colors_of piece) (Z.to_nat i2)) as [c|];
    [|discriminate]. cbn [obind] in *.
  injection H as <-. f_equal. unfold piece_cells.
  destruct (Z.quot state 3 =? 6); [reflexivity|].
  destruct (Z.quot state 3 =? 5); [reflexivity|].
  destruct (Z.quot state 3 =? 4); [reflexivity|].
  destruct (Z.quot state 3 =? 3); [reflexivity|].
  destruct (Z.quot state 3 =? 2); [reflexivity|].
  destruct (Z.quot state 3 =? 1); [reflexivity|].
  destruct (Z.quot state 3 =? 0); reflexivity.
Qed.

Lemma decompress_states cube :
  in_space cube ->
  let state6 := Z.quot cube c21_6 in
  let cube6 := Z.rem cube c21_6 in
  let state5 := Z.quot cube6 c21_5 in
  let cube5 := Z.rem cube6 c21_5 in
  let state4 := Z.quot cube5 c21_4 in
  let cube4 := Z.rem cube5 c21_4 in
  let state3 := Z.quot cube4 c21_3 in
  let cube3 := Z.rem cube4 c21_3 in
  let state2 := Z.quot cube3 c21_2 in
  let cube2 := Z.rem cube3 c21_2 in
  let state1 := Z.quot cube2 c21_1 in
  let state0 := Z.rem cube2 c21_1 in
  state6 = digit cube 6 /\ state5 = digit cube 5 /\ state4 = digit cube 4 /\
  state3 = digit cube 3 /\ state2 = digit cube 2 /\ state1 = digit cube 1 /\
  state0 = digit cube 0.
Proof.
  intros H. cbv zeta. unfold digit.
  change (21 ^ 6) with 85766121. change (21 ^ 5) with 4084101.
  change (21 ^ 4) with 194481. change (21 ^ 3) with 9261.
  change (21 ^ 2) with 441. change (21 ^ 1) with 21. change (21 ^ 0) with 1.
  unfold in_space, c21_6, c21_5, c21_4, c21_3, c21_2, c21_1 in *.
  rewrite (Z.rem_mod_nonneg cube 85766121) by lia.
  pose proof (Z.mod_pos_bound cube 85766121 ltac:(lia)) as B6.
  set (r6 := cube mod 85766121) in *.
  rewrite (Z.rem_mod_nonneg r6 4084101) by lia.
  pose proof (Z.mod_pos_bound r6 4084101 ltac:(lia)) as B5.
  set (r5 := r6 mod 4084101) in *.
  rewrite (Z.rem_mod_nonneg r5 194481) by lia.
  pose proof (Z.mod_pos_bound r5 194481 ltac:(lia)) as B4.
  set (r4 := r5 mod 194481) in *.
  rewrite (Z.rem_mod_nonneg r4 9261) by lia.
  pose proof (Z.mod_pos_bound r4 9261 ltac:(lia)) as B3.
  set (r3 := r4 mod 9261) in *.
  rewrite (Z.rem_mod_nonneg r3 441) by lia.
  pose proof (Z.mod_pos_bound r3 441 ltac:(lia)) as B2.
  set (r2 := r3 mod 441) in *.
  rewrite (Z.rem_mod_nonneg r2 21) by lia.
  rewrite !Z.quot_div_nonneg by lia.
  subst r2 r3 r4 r5 r6.
  repeat split; Z.div_mod_to_equations; lia.
Qed.

Lemma decompress_spec cube :
  in_space cube ->
  decompress cube = Some (write_pieces make_cube (pieces_of cube)).
Proof.
  intros Hs. unfold decompress.
  destruct (decompress_states cube Hs)
    as (E6 & E5 & E4 & E3 & E2 & E1 & E0). cbv zeta in *.
  rewrite E6, E5, E4, E3, E2, E1, E0. clear E6 E5 E4 E3 E2 E1 E0.
  destruct (stickers_spec 6 (digit cube 6) ltac:(lia) (digit_range cube 6))
    as (a6 & b6 & c6 & S6 & T6 & _).
  destruct (stickers_spec 5 (digit cube 5) ltac:(lia) (digit_range cube 5))
    as (a5 & b5 & c5 & S5 & T5 & _).
  destruct (stickers_spec 4 (digit cube 4) ltac:(lia) (digit_range cube 4))
    as (a4 & b4 & c4 & S4 & T4 & _).
  destruct (stickers_spec 3 (digit cube 3) ltac:(lia) (digit_range cube 3))
    as (a3 & b3 & c3 & S3 & T3 & _).
  destruct (stickers_spec 2 (digit cube 2) ltac:(lia) (digit_range cube 2))
    as (a2 & b2 & c2 & S2 & T2 & _).
  destruct (stickers_spec 1 (digit cube 1) ltac:(lia) (digit_range cube 1))
    as (a1 & b1 & c1 & S1 & T1 & _).
  destruct (stickers_spec 0 (digit cube 0) ltac:(lia) (digit_range cube 0))
    as (a0 & b0 & c0 & S0 & T0 & _).
  change six with (piece_colors_of 6). change five with (piece_colors_of 5).
  change four with (piece_colors_of 4). change three with (piece_colors_of 3).
  change two with (piece_colors_of 2). change one with (piece_colors_of 1).
  change zero with (piece_colors_of 0).
  rewrite (insert_defined _ 6 _ _ S6). cbn [obind].
  rewrite (insert_defined _ 5 _ _ S5). cbn [obind].
  rewrite (insert_defined _ 4 _ _ S4). cbn [obind].
  rewrite (insert_defined _ 3 _ _ S3). cbn [obind].
  rewrite (insert_defined _ 2 _ _ S2). cbn [obind].
  rewrite (insert_defined _ 1 _ _ S1). cbn [obind].
  rewrite (insert_defined _ 0 _ _ S0). cbn [obind].
  unfold pieces_of. cbn [write_pieces fst snd].
  rewrite T6, T5, T4, T3, T2, T1, T0. reflexivity.
Qed.

(** ** Reading the cube struct *)

Lemma write3_other cube_S cells colors x :
  ~ In x cells -> write3 cube_S cells colors x = cube_S x.
Proof.
  intros H. unfold write3.
  destruct cells as [|tb [|fb [|rl [|? ?]]]]; try reflexivity.
  destruct colors as [|a [|b [|c [|? ?]]]]; try reflexivity.
  cbn [In] in H. rewrite !store_other by intuition congruence. reflexivity.
Qed.

Lemma write3_cells cube_S tb fb rl a b c :
  tb <> fb -> tb <> rl -> fb <> rl ->
  map (write3 cube_S [tb; fb; rl] [a; b; c]) [tb; fb; rl] = [a; b; c].
Proof.
  intros H1 H2 H3. unfold write3. cbn [map].
  rewrite (store_other _ rl c tb) by exact H2.
  rewrite (store_other _ fb b tb) by exact H1.
  rewrite store_same.
  rewrite (store_other _ rl c fb) by exact H3.
  rewrite !store_same. reflexivity.
Qed.

Lemma write_pieces_other pieces : forall cube_S x,
  (forall ps, In ps pieces -> ~ In x (piece_cells (Z.quot (snd ps) 3))) ->
  write_pieces cube_S pieces x = cube_S x.
Proof.
  induction pieces as [|ps pieces IH]; intros cube_S x H; [reflexivity|].
  cbn [write_pieces]. rewrite IH by (intros ps' Hin; apply H; right; exact Hin).
  apply write3_other. apply H. left. reflexivity.
Qed.

Lemma write_pieces_cells pieces : forall cube_S,
  NoDup (map (fun ps => Z.quot (snd ps) 3) pieces) ->
  (forall ps, In ps pieces -> 0 <= fst ps < 7 /\ 0 <= snd ps < 21) ->
  forall ps, In ps pieces ->
    map (write_pieces cube_S pieces) (piece_cells (Z.quot (snd ps) 3)) =
    stickers (fst ps) (snd ps).
Proof.
  induction pieces as [|ps0 pieces IH]; intros cube_S Hnd Hr ps Hin;
    [destruct Hin|].
  cbn [map] in Hnd. apply NoDup_cons_iff in Hnd. destruct Hnd as [Hfresh Hnd].
  assert (forall q, In q (ps0 :: pieces) -> 0 <= Z.quot (snd q) 3 < 7) as Hpos.
  { intros q Hq. destruct (Hr q Hq) as [_ Hs].
    rewrite Z.quot_div_nonneg by lia. Z.div_mod_to_equations. lia. }
  cbn [write_pieces]. destruct Hin as [->|Hin].
  - destruct (Hr ps (or_introl eq_refl)) as [Hp Hs].
    destruct (stickers_spec (fst ps) (snd ps) Hp Hs)
      as (a & b & c & _ & -> & _).
    destruct (cells_three (Z.quot (snd ps) 3) (Hpos ps (or_introl eq_refl)))
      as (tb & fb & rl & Ec & H1 & H2 & H3).
    rewrite Ec.
    transitivity (map (write3 cube_S [tb; fb; rl] [a; b; c]) [tb; fb; rl]);
      [|exact (write3_cells cube_S tb fb rl a b c H1 H2 H3)].
    apply map_ext_in. intros x Hx. apply write_pieces_other.
    intros q Hq Hxq. rewrite <- Ec in Hx.
    apply (cells_disjoint (Z.quot (snd ps) 3) (Z.quot (snd q) 3) x
             (Hpos ps (or_introl eq_refl)) (Hpos q (or_intror Hq)));
      [|exact Hx|exact Hxq].
    intros E. apply Hfresh. rewrite E.
    apply (in_map (fun ps => Z.quot (snd ps) 3) pieces q Hq).
  - apply IH; [exact Hnd| |exact Hin].
    intros q Hq. apply Hr. right. exact Hq.
Qed.

(** The pieces of a configuration of the puzzle sit in seven different
    positions, and every position holds one of them. *)
Lemma pieces_of_positions cube :
  map (fun ps => Z.quot (snd ps) 3) (pieces_of cube) = rev (positions cube).
Proof.
  unfold pieces_of, positions. cbn [map rev app snd].
  rewrite !Z.quot_div_nonneg by (try lia; apply digit_range). reflexivity.
Qed.

Lemma pieces_of_range cube ps :
  In ps (pieces_of cube) -> 0 <= fst ps < 7 /\ 0 <= snd ps < 21.
Proof.
  unfold pieces_of. cbn [In].
  intros [<-|[<-|[<-|[<-|[<-|[<-|[<-|[]]]]]]]]; cbn [fst snd];
    (split; [lia|apply digit_range]).
Qed.

Lemma pieces_of_in cube k :
  0 <= k < 7 -> In (k, digit cube k) (pieces_of cube).
Proof.
  revert k. apply index_cases_7; unfold pieces_of; cbn [In]; tauto.
Qed.

Lemma position_taken cube i :
  distinctb (positions cube) = true -> 0 <= i < 7 ->
  exists k, 0 <= k < 7 /\ digit cube k / 3 = i.
Proof.
  intros Hd Hi. apply distinctb_NoDup in Hd.
  assert (incl (zrange 7) (positions cube)) as Hincl.
  { apply (NoDup_length_incl Hd); [reflexivity|].
    intros p Hp. apply In_zrange. unfold positions in Hp. cbn [In] in Hp.
    destruct Hp as [<-|[<-|[<-|[<-|[<-|[<-|[<-|[]]]]]]]];
      apply digit_position. }
  specialize (Hincl i (In_zrange 7 i Hi)). unfold positions in Hincl.
  cbn [In] in Hincl.
  destruct Hincl as [H|[H|[H|[H|[H|[H|[H|[]]]]]]]];
    [exists 0|exists 1|exists 2|exists 3|exists 4|exists 5|exists 6];
    (split; [lia|exact H]).
Qed.

(** The cube struct that [decompress] makes of a configuration of the
    puzzle. *)
Lemma decompress_cells cube :
  in_space cube -> distinctb (positions cube) = true ->
  exists cube_S,
    decompress cube = Some cube_S /\
    (forall k, 0 <= k < 7 ->
       map cube_S (piece_cells (digit cube k / 3)) =
       stickers k (digit cube k)) /\
    (forall x, (forall pos, 0 <= pos < 7 -> ~ In x (piece_cells pos)) ->
       cube_S x = make_cube x).
Proof.
  intros Hs Hd. exists (write_pieces make_cube (pieces_of cube)).
  split; [exact (decompress_spec cube Hs)|]. split.
  - intros k Hk.
    pose proof (write_pieces_cells (pieces_of cube) make_cube) as H.
    rewrite pieces_of_positions in H.
    specialize (H (NoDup_rev (distinctb_NoDup _ Hd))
                  (pieces_of_range cube) (k, digit cube k)
                  (pieces_of_in cube k Hk)).
    cbn [fst snd] in H.
    rewrite Z.quot_div_nonneg in H by (try lia; apply digit_range). exact H.
  - intros x Hx. apply write_pieces_other. intros ps Hin.
    destruct (pieces_of_range cube ps Hin) as [_ Hr].
    apply Hx. rewrite Z.quot_div_nonneg by lia. Z.div_mod_to_equations. lia.
Qed.

(** ** [compress] on the cube struct of a configuration *)

Lemma piece_at_spec cube i :
  distinctb (positions cube) = true -> 0 <= i < 7 ->
  0 <= piece_at cube i < 7 /\ digit cube (piece_at cube i) / 3 = i.
Proof.
  intros Hd Hi. unfold piece_at.
  destruct (find (fun k => digit cube k / 3 =? i) (zrange 7)) as [k|] eqn:E.
  - apply find_some in E. destruct E as [Hin E]. apply in_zrange_iff in Hin.
    apply Z.eqb_eq in E. split; [lia|exact E].
  - exfalso. destruct (position_taken cube i Hd Hi) as (k & Hk & Ek).
    pose proof (find_none _ _ E k (In_zrange 7 k Hk)) as Hf. cbv beta in Hf.
    apply Z.eqb_neq in Hf. exact (Hf Ek).
Qed.

Lemma piece_at_position cube k :
  distinctb (positions cube) = true -> 0 <= k < 7 ->
  piece_at cube (digit cube k / 3) = k.
Proof.
  intros Hd Hk.
  destruct (piece_at_spec cube (digit cube k / 3) Hd (digit_position cube k))
    as [Hr E].
  destruct (Z.eq_dec (piece_at cube (digit cube k / 3)) k) as [H|H];
    [exact H|].
  exfalso. exact (positions_distinct cube _ k Hd Hr Hk H E).
Qed.

Lemma scan_pieces_spec rows : forall i m,
  (forall row, In row rows -> which_piece row <> -1) ->
  NoDup (map which_piece rows) ->
  exists m',
    scan_pieces rows i m = Mapped m' /\
    (forall j row, nth_error rows j = Some row ->
                   m' (which_piece row) = Some (i + Z.of_nat j)) /\
    (forall p, ~ In p (map which_piece rows) -> m' p = m p).
Proof.
  induction rows as [|row rows IH]; intros i m Hok Hnd.
  - exists m. split; [reflexivity|]. split; [|reflexivity].
    intros j row Hj. destruct j; discriminate.
  - cbn [scan_pieces]. cbn [map] in Hnd. apply NoDup_cons_iff in Hnd.
    destruct Hnd as [Hfresh Hnd].
    destruct (Z.eqb_spec (which_piece row) (-1)) as [E|_];
      [exfalso; exact (Hok row (or_introl eq_refl) E)|].
    destruct (IH (i + 1)
                 (fun p => if p =? which_piece row then Some i else m p)
                 (fun r Hr => Hok r (or_intror Hr)) Hnd)
      as (m' & Es & Hin & Hout).
    exists m'. split; [exact Es|]. split.
    + intros j r Hj. destruct j as [|j].
      * cbn in Hj. injection Hj as <-. rewrite (Hout _ Hfresh).
        rewrite Z.eqb_refl. f_equal. lia.
      * cbn [nth_error] in Hj. rewrite (Hin j r Hj). f_equal. lia.
    + intros p Hp. cbn [map In] in Hp. rewrite Hout by tauto.
      destruct (Z.eqb_spec p (which_piece row)) as [->|_]; [tauto|reflexivity].
Qed.

Lemma compress_unfold state_table buffer :
  compress state_table buffer =
  let positions := map (map buffer) position_entries in
  match scan_pieces positions 0 (fun _ => None) with
  | Returned r => Some r
  | Mapped piece_to_pos_map =>
    let state (piece : Z) : option Z :=
      pos <- piece_to_pos_map piece ;;
      position <- nth_error positions (Z.to_nat pos) ;;
      get_piece_state piece pos position in
    state0 <- state 0 ;;
    state1 <- state 1 ;;
    state2 <- state 2 ;;
    state3 <- state 3 ;;
    state4 <- state 4 ;;
    state5 <- state 5 ;;
    state6 <- state 6 ;;
    if existsb (Z.eqb (-1))
         [state0; state1; state2; state3; state4; state5; state6]
    then Some (-1)
    else
      let cube := state0 + (c21_1 * state1) + (c21_2 * state2) +
                  (c21_3 * state3) + (c21_4 * state4) + (c21_5 * state5) +
                  (c21_6 * state6) in
      this_turn <- get_turn state_table cube ;;
      if this_turn =? -1 then Some (-2) else Some cube
  end.
Proof. reflexivity. Qed.

Lemma entered_rows cube_S :
  map (map (entered cube_S)) position_entries =
  map (fun i => map cube_S (piece_cells i)) (zrange 7).
Proof. reflexivity. Qed.

Section Entered.

Variables (cube : Z) (cube_S : Cube).
Hypothesis Hspace : in_space cube.
Hypothesis Hdistinct : distinctb (positions cube) = true.
Hypothesis Hcells : forall k, 0 <= k < 7 ->
  map cube_S (piece_cells (digit cube k / 3)) = stickers k (digit cube k).

Lemma entered_row i :
  0 <= i < 7 ->
  nth_error (map (map (entered cube_S)) position_entries) (Z.to_nat i) =
  Some (stickers (piece_at cube i) (digit cube (piece_at cube i))).
Proof.
  intros Hi. rewrite entered_rows.
  destruct (piece_at_spec cube i Hdistinct Hi) as [Hr E].
  rewrite <- (Hcells _ Hr), E.
  rewrite nth_error_map. unfold zrange. rewrite nth_error_map.
  rewrite nth_error_seq_0 by lia. cbn [option_map]. rewrite Z2Nat.id by lia.
  reflexivity.
Qed.

Lemma entered_row_piece row :
  In row (map (map (entered cube_S)) position_entries) ->
  exists i, 0 <= i < 7 /\
            row = stickers (piece_at cube i) (digit cube (piece_at cube i)) /\
            which_piece row = piece_at cube i.
Proof.
  intros Hin. apply In_nth_error in Hin. destruct Hin as [j Hj].
  assert (j < 7)%nat as Hlt.
  { assert (j < length (map (map (entered cube_S)) position_entries))%nat
      as H by (apply nth_error_Some; congruence).
    exact H. }
  pose proof (entered_row (Z.of_nat j) ltac:(lia)) as E.
  rewrite Nat2Z.id, Hj in E. injection E as E.
  exists (Z.of_nat j). split; [lia|]. split; [exact E|].
  destruct (piece_at_spec cube (Z.of_nat j) Hdistinct ltac:(lia)) as [Hr _].
  destruct (stickers_spec _ _ Hr (digit_range cube (piece_at cube (Z.of_nat j))))
    as (a & b & c & _ & Es & _ & Hw & _).
  rewrite E, Es. exact Hw.
Qed.

Lemma entered_pieces :
  map which_piece (map (map (entered cube_S)) position_entries) =
  map (piece_at cube) (zrange 7).
Proof.
  apply nth_error_ext. intros j.
  destruct (Nat.lt_ge_cases j 7) as [Hlt|Hge].
  - rewrite nth_error_map.
    pose proof (entered_row (Z.of_nat j) ltac:(lia)) as E.
    rewrite Nat2Z.id in E. rewrite E. cbn [option_map].
    unfold zrange. rewrite !nth_error_map, nth_error_seq_0 by lia.
    cbn [option_map]. f_equal.
    destruct (piece_at_spec cube (Z.of_nat j) Hdistinct ltac:(lia)) as [Hr _].
    destruct (stickers_spec _ _ Hr
                (digit_range cube (piece_at cube (Z.of_nat j))))
      as (a & b & c & _ & Es & _ & Hw & _).
    rewrite Es. exact Hw.
  - rewrite (proj2 (nth_error_None _ _)) by (cbn; lia).
    rewrite (proj2 (nth_error_None _ _)) by (cbn; lia). reflexivity.
Qed.

Lemma compress_entered state_table :
  compress state_table (entered cube_S) =
  (this_turn <- get_turn state_table cube ;;
   if this_turn =? -1 then Some (-2) else Some cube).
Proof.
  rewrite compress_unfold. cbv zeta.
  set (rows := map (map (entered cube_S)) position_entries).
  destruct (scan_pieces_spec rows 0 (fun _ => None)) as (m & Es & Hm & _).
  { intros row Hin. destruct (entered_row_piece row Hin) as (i & Hi & _ & ->).
    destruct (piece_at_spec cube i Hdistinct Hi) as [Hr _]. lia. }
  { unfold rows. rewrite entered_pieces.
    apply NoDup_map_on; [|apply zrange_NoDup].
    intros i j Hi Hj E. apply in_zrange_iff in Hi, Hj.
    rewrite <- (proj2 (piece_at_spec cube i Hdistinct ltac:(lia))).
    rewrite <- (proj2 (piece_at_spec cube j Hdistinct ltac:(lia))).
    rewrite E. reflexivity. }
  rewrite Es.
  assert (forall k, 0 <= k < 7 ->
            (pos <- m k ;;
             position <- nth_error rows (Z.to_nat pos) ;;
             get_piece_state k pos position) = Some (digit cube k)) as Hstate.
  { intros k Hk.
    pose proof (entered_row (digit cube k / 3) (digit_position cube k)) as Er.
    rewrite (piece_at_position cube k Hdistinct Hk) in Er.
    pose proof (Hm _ _ Er) as Em.
    destruct (stickers_spec k (digit cube k) Hk (digit_range cube k))
      as (a & b & c & _ & Est & _ & Hw & Hg & _).
    rewrite Est in Er, Em. rewrite Hw in Em. rewrite Em. cbn [obind].
    rewrite Z.add_0_l, Z2Nat.id by apply digit_position.
    fold rows in Er. rewrite Er. cbn [obind]. exact Hg. }
  rewrite !Hstate by lia. cbn [obind].
  assert (existsb (Z.eqb (-1))
            [digit cube 0; digit cube 1; digit cube 2; digit cube 3;
             digit cube 4; digit cube 5; digit cube 6] = false) as Hno.
  { cbn [existsb].
    pose proof (digit_range cube 0). pose proof (digit_range cube 1).
    pose proof (digit_range cube 2). pose proof (digit_range cube 3).
    pose proof (digit_range cube 4). pose proof (digit_range cube 5).
    pose proof (digit_range cube 6).
    repeat match goal with
           | |- context [-1 =? ?d] =>
             destruct (Z.eqb_spec (-1) d); [lia|]
           end.
    reflexivity. }
  rewrite Hno.
  assert (digit cube 0 + c21_1 * digit cube 1 + c21_2 * digit cube 2 +
          c21_3 * digit cube 3 + c21_4 * digit cube 4 +
          c21_5 * digit cube 5 + c21_6 * digit cube 6 = cube) as Ec.
  { rewrite (digits_decompose cube Hspace) at 8. ring. }
  rewrite Ec. reflexivity.
Qed.

End Entered.

(** ** Counting the colours of a cube struct *)

Lemma count_in_cons x a l :
  count_in x (a :: l) = ((if (x =? a)%Z then 1 else 0) + count_in x l)%nat.
Proof. unfold count_in. cbn [filter]. destruct (x =? a); reflexivity. Qed.

Lemma count_in_app x l l' :
  count_in x (l ++ l') = (count_in x l + count_in x l')%nat.
Proof. unfold count_in. rewrite filter_app, length_app. reflexivity. Qed.

Lemma count_in_concat x (F : Z -> list Z) l :
  count_in x (concat (map F l)) = total (fun i => count_in x (F i)) l.
Proof.
  induction l as [|i l IH]; [reflexivity|].
  cbn [map concat total fold_right]. rewrite count_in_app, IH. reflexivity.
Qed.

Lemma total_ext f g l :
  (forall i, In i l -> f i = g i) -> total f l = total g l.
Proof.
  induction l as [|i l IH]; intros H; [reflexivity|].
  cbn [total fold_right]. rewrite (H i (or_introl eq_refl)).
  fold (total f l). fold (total g l).
  rewrite IH by (intros j Hj; apply H; right; exact Hj). reflexivity.
Qed.

Lemma total_map f (h : Z -> Z) l :
  total f (map h l) = total (fun i => f (h i)) l.
Proof.
  induction l as [|i l IH]; [reflexivity|].
  cbn [map total fold_right]. fold (total f (map h l)).
  fold (total (fun i => f (h i)) l). rewrite IH. reflexivity.
Qed.

Lemma total_permutation f l l' :
  Permutation l l' -> total f l = total f l'.
Proof.
  induction 1 as [|x l l' _ IH|x y l|l l' l'' _ IH1 _ IH2].
  - reflexivity.
  - cbn [total fold_right]. fold (total f l). fold (total f l').
    rewrite IH. reflexivity.
  - cbn [total fold_right]. lia.
  - congruence.
Qed.

Lemma entry_cells_check_ok : entry_cells_check = true.
Proof. vm_compute. reflexivity. Qed.

Lemma entry_cell_cases c :
  In c entry_cells ->
  (exists pos, 0 <= pos < 7 /\ In c (piece_cells pos)) \/ In c fixed_cells.
Proof.
  intros Hin. pose proof entry_cells_check_ok as H.
  unfold entry_cells_check in H. rewrite forallb_forall in H.
  specialize (H c Hin). apply orb_true_iff in H. destruct H as [H|H].
  - left. apply existsb_exists in H. destruct H as (pos & Hp & H).
    apply in_zrange_iff in Hp. apply existsb_exists in H.
    destruct H as (c' & Hc' & E). apply Z.eqb_eq in E. subst c'.
    exists pos. split; [lia|exact Hc'].
  - right. apply existsb_exists in H. destruct H as (c' & Hc' & E).
    apply Z.eqb_eq in E. subst c'. exact Hc'.
Qed.

Lemma pieces_permutation cube :
  distinctb (positions cube) = true ->
  Permutation (map (piece_at cube) (zrange 7)) (zrange 7).
Proof.
  intros Hd. apply Permutation_sym. apply NoDup_Permutation_bis.
  - apply zrange_NoDup.
  - rewrite length_map. apply Nat.le_refl.
  - intros k Hk. apply in_zrange_iff in Hk. apply in_map_iff.
    exists (digit cube k / 3). split.
    + apply piece_at_position; [exact Hd|lia].
    + apply In_zrange. apply digit_position.
Qed.

Section Census.

Variables (cube : Z) (cube_S : Cube).
Hypothesis Hdistinct : distinctb (positions cube) = true.
Hypothesis Hcells : forall k, 0 <= k < 7 ->
  map cube_S (piece_cells (digit cube k / 3)) = stickers k (digit cube k).
Hypothesis Hfixed : forall x,
  (forall pos, 0 <= pos < 7 -> ~ In x (piece_cells pos)) ->
  cube_S x = make_cube x.

Lemma position_stickers i :
  0 <= i < 7 ->
  map cube_S (piece_cells i) =
  stickers (piece_at cube i) (digit cube (piece_at cube i)).
Proof.
  intros Hi. destruct (piece_at_spec cube i Hdistinct Hi) as [Hr E].
  rewrite <- (Hcells _ Hr), E. reflexivity.
Qed.

Lemma fixed_cell x : In x fixed_cells -> cube_S x = make_cube x.
Proof.
  intros Hx. apply Hfixed. intros pos Hp Hin.
  exact (cells_not_fixed pos x Hp Hin Hx).
Qed.

Lemma entered_census x :
  In x [chr "o"; chr "r"; chr "w"; chr "y"; chr "g"; chr "b"] ->
  count_in x (map cube_S entry_cells) = 4%nat.
Proof.
  intros Hx.
  (* the cells of the entry order, position by position *)
  assert (count_in x (map cube_S entry_cells) =
          (count_in x (map cube_S (concat (map piece_cells (zrange 7)))) +
           count_in x (map cube_S fixed_cells))%nat) as E.
  { rewrite <- count_in_app. unfold entry_cells, fixed_cells, zrange.
    cbn [seq map concat app piece_cells Z.of_nat Z.eqb Pos.eqb
         Pos.of_succ_nat Pos.succ].
    rewrite !count_in_cons.
    repeat match goal with
           | |- context [if x =? ?a then 1%nat else 0%nat] =>
             let n := fresh "n" in
             set (n := if x =? a then 1%nat else 0%nat) in *; clearbody n
           end.
    change (count_in x []) with 0%nat. lia. }
  rewrite E. rewrite concat_map, map_map.
  rewrite (count_in_concat x (fun i => map cube_S (piece_cells i))).
  rewrite (total_ext _ (fun i => count_in x (piece_colors_of (piece_at cube i)))).
  2:{ intros i Hi. apply in_zrange_iff in Hi.
      rewrite (position_stickers i ltac:(lia)).
      destruct (piece_at_spec cube i Hdistinct ltac:(lia)) as [Hr _].
      destruct (stickers_spec _ _ Hr
                  (digit_range cube (piece_at cube i)))
        as (a & b & c & _ & Es & _ & _ & _ & Hc).
      rewrite Es. apply Hc. exact Hx. }
  rewrite <- (total_map (fun k => count_in x (piece_colors_of k))
                        (piece_at cube) (zrange 7)).
  rewrite (total_permutation _ _ _ (pieces_permutation cube Hdistinct)).
  assert (map cube_S fixed_cells = map make_cube fixed_cells) as Ef.
  { apply map_ext_in. intros c Hc. apply fixed_cell. exact Hc. }
  rewrite Ef. clear - Hx. cbn [In] in Hx.
  destruct Hx as [<-|[<-|[<-|[<-|[<-|[<-|[]]]]]]]; vm_compute; reflexivity.
Qed.

Lemma entered_colors c :
  In c entry_cells -> is_color (cube_S c) = true.
Proof.
  intros Hin. destruct (entry_cell_cases c Hin) as [(pos & Hp & Hc)|Hc].
  - apply (in_map cube_S) in Hc. rewrite (position_stickers pos Hp) in Hc.
    destruct (piece_at_spec cube pos Hdistinct Hp) as [Hr _].
    destruct (stickers_spec _ _ Hr (digit_range cube (piece_at cube pos)))
      as (a & b & c' & _ & Es & Hcol & _).
    rewrite Es in Hc. rewrite forallb_forall in Hcol. exact (Hcol _ Hc).
  - rewrite (fixed_cell c Hc). cbn [In fixed_cells] in Hc.
    destruct Hc as [<-|[<-|[<-|[]]]]; vm_compute; reflexivity.
Qed.

End Census.

(** ** Reading a line into the buffer *)

Lemma is_color_cases c :
  is_color c = true ->
  c = chr "o" \/ c = chr "r" \/ c = chr "w" \/ c = chr "y" \/ c = chr "g" \/
  c = chr "b".
Proof.
  unfold is_color. intros H.
  repeat (apply orb_true_iff in H; destruct H as [H|H]);
    apply Z.eqb_eq in H; tauto.
Qed.

Lemma is_color_char c :
  is_color c = true ->
  to_char c = c /\ c <> chr " " /\ c <> chr "010" /\ 0 <= c < 128.
Proof.
  intros H. apply is_color_cases in H.
  destruct H as [->|[->|[->|[->|[->| ->]]]]]; vm_compute;
    repeat split; congruence.
Qed.


Lemma fill_from_below l : forall buffer count n,
  n < count -> fill_from buffer count l n = buffer n.
Proof.
  induction l as [|c l IH]; intros buffer count n H; [reflexivity|].
  cbn [fill_from]. rewrite IH by lia. apply store_other. lia.
Qed.

Lemma fill_from_get l : forall buffer count k,
  (k < length l)%nat ->
  fill_from buffer count l (count + Z.of_nat k) = nth k l 0.
Proof.
  induction l as [|c l IH]; intros buffer count k H; [cbn in H; lia|].
  cbn [fill_from]. destruct k as [|k].
  - rewrite Z.add_0_r, fill_from_below by lia. apply store_same.
  - cbn [nth length] in *.
    replace (count + Z.of_nat (S k)) with (count + 1 + Z.of_nat k) by lia.
    apply IH. lia.
Qed.

Lemma fill_from_snoc l : forall buffer count c,
  fill_from buffer count (l ++ [c]) =
  store (fill_from buffer count l) (count + Z.of_nat (length l)) c.
Proof.
  induction l as [|a l IH]; intros buffer count c.
  - cbn. rewrite Z.add_0_r. reflexivity.
  - cbn [app fill_from length]. rewrite IH. f_equal. lia.
Qed.

Lemma buffer_cells_fill buffer l :
  length l = 24%nat -> buffer_cells (fill_from buffer 0 l) = l.
Proof.
  intros H. unfold buffer_cells, BUFF_SIZE. apply nth_ext with (d := 0) (d' := 0).
  - rewrite length_map, length_seq. rewrite H. reflexivity.
  - intros k Hk. rewrite length_map, length_seq in Hk.
    rewrite (nth_indep _ 0 (fill_from buffer 0 l (Z.of_nat 0)))
      by (rewrite length_map, length_seq; exact Hk).
    rewrite (map_nth (fun i => fill_from buffer 0 l (Z.of_nat i))).
    rewrite seq_nth by exact Hk. cbn [Nat.add].
    rewrite <- (Z.add_0_l (Z.of_nat k)). apply fill_from_get.
    rewrite H. exact Hk.
Qed.

Lemma fill_loop_eq state_table input buffer next_char count :
  fill_loop state_table input buffer next_char count =
  let this_char := next_char in
  let go_on (buffer : Z -> Z) (count : Z) : fill_outcome :=
    match input with
    | [] => Reads_forever
    | c :: rest =>
      let next_char := to_char c in
      if (next_char =? chr "010") && (count <? BUFF_SIZE)
      then Returns 1 buffer rest
      else if negb (next_char =? chr "010")
      then fill_loop state_table rest buffer next_char count
      else check_buffer state_table buffer rest
    end in
  let reject : fill_outcome :=
    match empty_input input with
    | Some rest => Returns 1 buffer rest
    | None => Reads_forever
    end in
  if count <? BUFF_SIZE then
    if this_char =? chr " " then go_on buffer count
    else if (this_char =? chr "o") || (this_char =? chr "r") ||
            (this_char =? chr "w") || (this_char =? chr "y") ||
            (this_char =? chr "g") || (this_char =? chr "b")
    then go_on (store buffer count this_char) (count + 1)
    else reject
  else reject.
Proof. destruct input; reflexivity. Qed.

(** A line of colours that ends when the buffer is full. *)
Lemma fill_loop_line state_table rest l : forall c buffer count,
  is_color c = true -> Forall (fun x => is_color x = true) l ->
  0 <= count -> count + 1 + Z.of_nat (length l) = BUFF_SIZE ->
  fill_loop state_table (l ++ chr "010" :: rest) buffer c count =
  check_buffer state_table (fill_from buffer count (c :: l)) rest.
Proof.
  induction l as [|c' l IH]; intros c buffer count Hc Hl Hcount Hlen;
    rewrite fill_loop_eq; cbv zeta;
    destruct (is_color_char c Hc) as (_ & Hsp & _);
    (destruct (Z.ltb_spec count BUFF_SIZE); [|cbn [length] in Hlen; lia]);
    (destruct (Z.eqb_spec c (chr " ")); [contradiction|]);
    fold (is_color c); rewrite Hc; cbn [app].
  - change (to_char (chr "010")) with (chr "010"). rewrite Z.eqb_refl.
    cbn [length] in Hlen.
    destruct (Z.ltb_spec (count + 1) BUFF_SIZE); [lia|]. reflexivity.
  - pose proof (Forall_inv Hl) as Hc'. cbv beta in Hc'.
    destruct (is_color_char c' Hc') as (Ec' & _ & Hnl & _). rewrite Ec'.
    destruct (Z.eqb_spec c' (chr "010")); [contradiction|]. cbn [andb negb].
    rewrite IH; [reflexivity|exact Hc'|exact (Forall_inv_tail Hl)|lia|].
    cbn [length] in Hlen. lia.
Qed.


Lemma check_buffer_accepts state_table buffer input cube :
  count_color "o" buffer = 4 -> count_color "r" buffer = 4 ->
  count_color "y" buffer = 4 -> count_color "w" buffer = 4 ->
  count_color "g" buffer = 4 -> count_color "b" buffer = 4 ->
  buffer 15 = chr "b" -> buffer 18 = chr "y" -> buffer 23 = chr "r" ->
  compress state_table buffer = Some cube -> cube <> -1 ->
  check_buffer state_table buffer input = Returns 0 buffer input.
Proof.
  intros Ho Hr Hy Hw Hg Hb H15 H18 H23 Ec Hc. unfold check_buffer.
  rewrite Ho, Hr, Hy, Hw, Hg, Hb, H15, H18, H23, Ec.
  cbn [existsb]. rewrite !Z.eqb_refl. cbn [negb orb].
  destruct (Z.eqb_spec cube (-1)); [contradiction|reflexivity].
Qed.

Lemma compress_ext state_table b b' :
  (forall n, 0 <= n < BUFF_SIZE -> b n = b' n) ->
  compress state_table b = compress state_table b'.
Proof.
  intros H. rewrite !compress_unfold.
  assert (map (map b) position_entries = map (map b') position_entries) as E.
  { unfold position_entries. cbn [map]. unfold BUFF_SIZE in H.
    rewrite !H by lia. reflexivity. }
  rewrite E. reflexivity.
Qed.

(** ** What [fill_buffer] accepts *)



Lemma fill_buffer_line state_table line rest buffer :
  Forall (fun x => is_color x = true) line -> length line = 24%nat ->
  fill_buffer state_table ((line ++ [chr "010"]) ++ rest) buffer =
  check_buffer state_table (fill_from buffer 0 line) rest.
Proof.
  intros Hcol Hlen. rewrite <- app_assoc. cbn [app].
  destruct line as [|c0 l]; [discriminate|]. cbn [app fill_buffer].
  pose proof (Forall_inv Hcol) as H0. cbv beta in H0.
  rewrite (proj1 (is_color_char _ H0)).
  apply fill_loop_line;
    [exact H0|exact (Forall_inv_tail Hcol)|lia
    |cbn [length] in Hlen; unfold BUFF_SIZE; lia].
Qed.

Lemma count_color_count_in color buffer :
  count_color color buffer = Z.of_nat (count_in (chr color) (buffer_cells buffer)).
Proof. reflexivity. Qed.

Lemma length_entered (cube_S : Cube) : length (map cube_S entry_cells) = 24%nat.
Proof. rewrite length_map. reflexivity. Qed.

Section EnteredLine.

Variables (state_table : Z -> Z) (cube : Z) (cube_S : Cube).
Hypothesis Hspace : in_space cube.
Hypothesis Hdistinct : distinctb (positions cube) = true.
Hypothesis Hcells : forall k, 0 <= k < 7 ->
  map cube_S (piece_cells (digit cube k / 3)) = stickers k (digit cube k).
Hypothesis Hfixed : forall x,
  (forall pos, 0 <= pos < 7 -> ~ In x (piece_cells pos)) ->
  cube_S x = make_cube x.

Lemma entered_filled buffer n :
  0 <= n < BUFF_SIZE ->
  fill_from buffer 0 (map cube_S entry_cells) n = entered cube_S n.
Proof.
  intros Hn. unfold BUFF_SIZE in Hn.
  rewrite <- (Z2Nat.id n) at 1 by lia. rewrite <- (Z.add_0_l (Z.of_nat _)).
  rewrite fill_from_get by (rewrite length_map; cbn; lia).
  unfold entered. rewrite (nth_indep _ 0 (cube_S 0))
    by (rewrite length_map; cbn; lia).
  apply map_nth.
Qed.

Lemma entered_count buffer (color : ascii) :
  In (chr color) [chr "o"; chr "r"; chr "w"; chr "y"; chr "g"; chr "b"] ->
  count_color color (fill_from buffer 0 (map cube_S entry_cells)) = 4.
Proof.
  intros Hin. rewrite count_color_count_in.
  rewrite buffer_cells_fill by apply length_entered.
  rewrite (entered_census cube cube_S Hdistinct Hcells Hfixed _ Hin).
  reflexivity.
Qed.

Lemma fill_buffer_entered buffer rest :
  let b := fill_from buffer 0 (map cube_S entry_cells) in
  fill_buffer state_table (entered_line cube_S ++ rest) buffer = Returns 0 b rest /\
  (forall n, 0 <= n < BUFF_SIZE -> b n = entered cube_S n) /\
  buffer_cells b = map cube_S entry_cells /\
  exists r,
    get_turn state_table cube = Some r /\
    compress state_table b = Some (if r =? -1 then -2 else cube).
Proof.
  intros b.
  assert (forall n, 0 <= n < BUFF_SIZE -> b n = entered cube_S n) as Hb.
  { intros n Hn. apply entered_filled. exact Hn. }
  destruct (get_turn_total state_table cube) as [r Er].
  assert (compress state_table b = Some (if r =? -1 then -2 else cube)) as Ec.
  { rewrite (compress_ext state_table b (entered cube_S) Hb).
    rewrite (compress_entered cube cube_S Hspace Hdistinct Hcells).
    rewrite Er. cbn [obind]. destruct (r =? -1); reflexivity. }
  split; [|split; [exact Hb|split;
    [apply buffer_cells_fill; rewrite length_map; reflexivity
    |exists r; split; [exact Er|exact Ec]]]].
  assert (Forall (fun x => is_color x = true) (map cube_S entry_cells)) as Hcol.
  { apply Forall_forall. intros x Hx. apply in_map_iff in Hx.
    destruct Hx as (c & <- & Hc).
    exact (entered_colors cube cube_S Hdistinct Hcells Hfixed c Hc). }
  unfold entered_line.
  rewrite (fill_buffer_line state_table (map cube_S entry_cells) rest buffer
             Hcol) by (rewrite length_map; reflexivity).
  fold b.
  apply (check_buffer_accepts state_table b rest (if r =? -1 then -2 else cube));
    try (apply entered_count; cbn [In]; tauto).
  - rewrite (Hb 15) by (unfold BUFF_SIZE; lia).
    apply (fixed_cell cube_S Hfixed). cbn; tauto.
  - rewrite (Hb 18) by (unfold BUFF_SIZE; lia).
    apply (fixed_cell cube_S Hfixed). cbn; tauto.
  - rewrite (Hb 23) by (unfold BUFF_SIZE; lia).
    apply (fixed_cell cube_S Hfixed). cbn; tauto.
  - exact Ec.
  - destruct (r =? -1); [lia|]. unfold in_space in Hspace. lia.
Qed.

End EnteredLine.

(** ** [which_piece] and the colours of the pieces *)

Lemma contains_in x a b c :
  negb (contains x [a; b; c] =? 0) = existsb (Z.eqb x) [a; b; c].
Proof.
  unfold contains. cbn [nth existsb].
  rewrite (Z.eqb_sym x a), (Z.eqb_sym x b), (Z.eqb_sym x c).
  destruct (a =? x); [reflexivity|]. destruct (b =? x); [reflexivity|].
  destruct (c =? x); reflexivity.
Qed.

Lemma existsb_permutation x l l' :
  Permutation l l' -> existsb (Z.eqb x) l = existsb (Z.eqb x) l'.
Proof.
  intros H. destruct (existsb (Z.eqb x) l') eqn:E.
  - apply existsb_exists in E. destruct E as (y & Hy & E).
    apply existsb_exists. exists y. split; [|exact E].
    apply (Permutation_in y (Permutation_sym H) Hy).
  - destruct (existsb (Z.eqb x) l) eqn:E'; [|reflexivity].
    apply existsb_exists in E'. destruct E' as (y & Hy & E').
    assert (existsb (Z.eqb x) l' = true) as E''; [|congruence].
    apply existsb_exists. exists y. split; [|exact E'].
    apply (Permutation_in y H Hy).
Qed.

Lemma which_piece_unfold a b c :
  which_piece [a; b; c] =
  let has x := existsb (Z.eqb x) [a; b; c] in
  if has (chr "o") && has (chr "w") && has (chr "g") then 0
  else if has (chr "r") && has (chr "w") && has (chr "g") then 1
  else if has (chr "o") && has (chr "w") && has (chr "b") then 2
  else if has (chr "r") && has (chr "w") && has (chr "b") then 3
  else if has (chr "o") && has (chr "y") && has (chr "g") then 4
  else if has (chr "r") && has (chr "y") && has (chr "g") then 5
  else if has (chr "o") && has (chr "y") && has (chr "b") then 6
  else -1.
Proof. unfold which_piece. cbv zeta. rewrite !contains_in. reflexivity. Qed.

Lemma which_piece_range row :
  which_piece row = -1 \/ 0 <= which_piece row < 7.
Proof.
  unfold which_piece. cbv zeta.
  repeat match goal with
         | |- context [if ?b then _ else _] => destruct b; [right; lia|]
         end.
  left. reflexivity.
Qed.

Lemma which_piece_permutation a b c k :
  0 <= k < 7 -> Permutation [a; b; c] (piece_colors_of k) ->
  which_piece [a; b; c] = k.
Proof.
  intros Hk Hp. rewrite which_piece_unfold. cbv beta zeta.
  pose proof (fun x => existsb_permutation x [a; b; c] (piece_colors_of k) Hp)
    as E.
  rewrite !E. clear E Hp.
  revert k Hk. apply index_cases_7; reflexivity.
Qed.

Lemma which_piece_colors a b c k :
  0 <= k < 7 -> which_piece [a; b; c] = k ->
  Permutation [a; b; c] (piece_colors_of k).
Proof.
  intros Hk H. rewrite which_piece_unfold in H. cbv beta zeta in H.
  assert (forall x y z,
            existsb (Z.eqb x) [a; b; c] && existsb (Z.eqb y) [a; b; c] &&
            existsb (Z.eqb z) [a; b; c] = true ->
            NoDup [x; y; z] -> Permutation [a; b; c] [x; y; z]) as Hperm.
  { intros x y z Hxyz Hnd.
    apply andb_true_iff in Hxyz. destruct Hxyz as [Hxy Hz].
    apply andb_true_iff in Hxy. destruct Hxy as [Hx Hy].
    apply Permutation_sym. apply NoDup_Permutation_bis;
      [exact Hnd|cbn; lia|].
    intros u Hu. cbn [In] in Hu.
    assert (forall v, existsb (Z.eqb v) [a; b; c] = true -> In v [a; b; c])
      as Hin.
    { intros v Hv. apply existsb_exists in Hv. destruct Hv as (w & Hw & E).
      apply Z.eqb_eq in E. subst w. exact Hw. }
    destruct Hu as [<-|[<-|[<-|[]]]]; apply Hin; assumption. }
  assert (forall x y z : Z, x <> y -> x <> z -> y <> z -> NoDup [x; y; z])
    as Hnd.
  { intros x y z H1 H2 H3. repeat constructor; cbn [In]; intuition congruence. }
  repeat match type of H with
         | @eq Z (if ?cond then ?v else _) _ =>
           let E := fresh "E" in
           destruct cond eqn:E;
           [assert (k = v) as -> by lia;
            apply (Hperm _ _ _ E); apply Hnd; vm_compute; congruence
           |clear E]
         end.
  lia.
Qed.

(** ** What [compress] returns *)





(** ** Every call of [fill_buffer] that returns has read something *)








Lemma decompress_minus_two : decompress (-2) = None.
Proof. vm_compute. reflexivity. Qed.

(** ** [main] on the table that is built *)


(** ** The cells that [decompress] leaves alone *)

Lemma incl_check (l l' : list Z) :
  forallb (fun c => existsb (Z.eqb c) l') l = true -> incl l l'.
Proof.
  intros H c Hc. rewrite forallb_forall in H. specialize (H c Hc).
  apply existsb_exists in H. destruct H as (c' & Hc' & E).
  apply Z.eqb_eq in E. subst c'. exact Hc'.
Qed.

Lemma piece_cells_entered pos :
  0 <= pos < 7 -> incl (piece_cells pos) entry_cells.
Proof.
  revert pos. apply index_cases_7; apply incl_check; reflexivity.
Qed.

Lemma fixed_cells_entered : incl fixed_cells entry_cells.
Proof. apply incl_check. reflexivity. Qed.

Lemma make_cube_blank x : ~ In x fixed_cells -> make_cube x = chr "-".
Proof.
  intros H. unfold make_cube, fixed_cells in *. cbn [In] in H. cbv zeta.
  rewrite !store_other by intuition congruence. reflexivity.
Qed.

(** ** Turns and the cube struct *)

Lemma rotate_distinct cube turn cube' :
  in_space cube -> distinctb (positions cube) = true ->
  rotate cube turn = Some cube' ->
  0 <= turn < 6 /\ in_space cube' /\ distinctb (positions cube') = true /\
  forall i, 0 <= i < 7 ->
    turn_table_get turn (digit cube i) = Some (digit cube' i).
Proof.
  intros Hs Hd Hr.
  destruct (rotate_defined cube turn cube' Hr) as [_ Ht].
  destruct (rotate_in_space cube turn Hs Ht) as (c1 & E1 & S1 & D1).
  rewrite Hr in E1. injection E1 as <-.
  split; [exact Ht|]. split; [exact S1|]. split; [|exact D1].
  assert (forall i, 0 <= i < 7 ->
            digit cube' i / 3 = turn_position turn (digit cube i / 3)) as Hsh.
  { intros i Hi.
    apply (turn_shape turn (digit cube i) (digit cube' i) Ht
             (digit_range cube i) (D1 i Hi)). }
  destruct (turn_tuple turn _ _ _ _ _ _ _ Ht
              (digit_position cube 0) (digit_position cube 1)
              (digit_position cube 2) (digit_position cube 3)
              (digit_position cube 4) (digit_position cube 5)
              (digit_position cube 6) Hd) as [Hd' _].
  unfold positions.
  rewrite (Hsh 0), (Hsh 1), (Hsh 2), (Hsh 3), (Hsh 4), (Hsh 5), (Hsh 6) by lia.
  exact Hd'.
Qed.

Lemma front_turn_check_ok : front_turn_check = true.
Proof. vm_compute. reflexivity. Qed.

Lemma same_list_true a b : same_list a b = true -> a = b.
Proof.
  unfold same_list. destruct (list_eq_dec Z.eq_dec a b); [trivial|discriminate].
Qed.

Lemma front_turn_state turn piece state state' :
  turn = 0 \/ turn = 1 -> 0 <= piece < 7 -> 0 <= state < 21 ->
  turn_table_get turn state = Some state' ->
  (state < 12 -> state' < 12 /\
                 stickers piece state' = rev (stickers piece state)) /\
  (12 <= state -> state' = state).
Proof.
  intros Ht Hp Hs E. pose proof front_turn_check_ok as H.
  unfold front_turn_check in H. rewrite forallb_forall in H.
  assert (In turn [0; 1]) as Hin by (cbn [In]; lia).
  specialize (H turn Hin). rewrite forallb_forall in H.
  specialize (H piece (In_zrange 7 piece Hp)). rewrite forallb_forall in H.
  specialize (H state (In_zrange 21 state Hs)). rewrite E in H.
  destruct (Z.ltb_spec state 12) as [Hlt|Hge].
  - apply andb_true_iff in H. destruct H as [H1 H2].
    apply Z.ltb_lt in H1. apply same_list_true in H2.
    split; [intros _; split; assumption|lia].
  - apply Z.eqb_eq in H. split; [lia|intros _; exact H].
Qed.

Lemma map_eq_in (f g : Z -> Z) l x :
  map f l = map g l -> In x l -> f x = g x.
Proof.
  induction l as [|a l IH]; intros E Hin; [destruct Hin|].
  cbn [map] in E. injection E as E1 E2.
  destruct Hin as [<-|Hin]; [exact E1|exact (IH E2 Hin)].
Qed.

(** A front turn and the picture that [decompress] makes. *)
Lemma front_turn_cells cube turn cube_S :
  in_space cube -> distinctb (positions cube) = true ->
  turn = 0 \/ turn = 1 -> decompress cube = Some cube_S ->
  exists cube' cube_S',
    rotate cube turn = Some cube' /\ decompress cube' = Some cube_S' /\
    (forall pos, 0 <= pos < 4 ->
       map cube_S' (piece_cells (turn_position turn pos)) =
       rev (map cube_S (piece_cells pos))) /\
    (forall x, (forall pos, 0 <= pos < 4 -> ~ In x (piece_cells pos)) ->
       cube_S' x = cube_S x).
Proof.
  intros Hs Hd Ht E.
  assert (0 <= turn < 6) as Ht6 by lia.
  destruct (rotate_in_space cube turn Hs Ht6) as (cube' & Er & _).
  destruct (rotate_distinct cube turn cube' Hs Hd Er) as (_ & Hs' & Hd' & Hdig).
  destruct (decompress_cells cube Hs Hd) as (S0 & E0 & Hcells & Hfixed).
  assert (S0 = cube_S) as -> by congruence.
  destruct (decompress_cells cube' Hs' Hd') as (cube_S' & E' & Hcells' & Hfixed').
  exists cube', cube_S'. split; [exact Er|]. split; [exact E'|].
  assert (forall k, 0 <= k < 7 ->
            digit cube' k / 3 = turn_position turn (digit cube k / 3)) as Hpos.
  { intros k Hk.
    apply (turn_shape turn (digit cube k) (digit cube' k) Ht6
             (digit_range cube k) (Hdig k Hk)). }
  split.
  - intros pos Hpos4.
    destruct (position_taken cube pos Hd ltac:(lia)) as (k & Hk & Ek).
    pose proof (digit_range cube k) as Hr.
    destruct (front_turn_state turn k _ _ Ht Hk Hr (Hdig k Hk)) as [Hlow _].
    destruct Hlow as [_ Est]; [Z.div_mod_to_equations; lia|].
    rewrite <- Ek, <- (Hpos k Hk), (Hcells' k Hk), Est, <- (Hcells k Hk).
    reflexivity.
  - intros x Hx.
    assert (forall p, 4 <= p < 7 -> In x (piece_cells p) ->
                      cube_S' x = cube_S x) as Hback.
    { intros p Hp Hin.
      destruct (position_taken cube p Hd ltac:(lia)) as (k & Hk & Ek).
      pose proof (digit_range cube k) as Hr.
      destruct (front_turn_state turn k _ _ Ht Hk Hr (Hdig k Hk)) as [_ Hhigh].
      assert (digit cube' k = digit cube k) as Esame
        by (apply Hhigh; Z.div_mod_to_equations; lia).
      apply (map_eq_in cube_S' cube_S (piece_cells p)); [|exact Hin].
      rewrite <- Ek at 2. rewrite (Hcells k Hk), <- Esame, <- (Hcells' k Hk).
      rewrite Esame, Ek. reflexivity. }
    destruct (in_dec Z.eq_dec x (piece_cells 4)) as [H4|H4];
      [exact (Hback 4 ltac:(lia) H4)|].
    destruct (in_dec Z.eq_dec x (piece_cells 5)) as [H5|H5];
      [exact (Hback 5 ltac:(lia) H5)|].
    destruct (in_dec Z.eq_dec x (piece_cells 6)) as [H6|H6];
      [exact (Hback 6 ltac:(lia) H6)|].
    assert (forall pos, 0 <= pos < 7 -> ~ In x (piece_cells pos)) as Hnone.
    { intros pos Hp.
      assert (pos = 4 \/ pos = 5 \/ pos = 6 \/ 0 <= pos < 4) as Hc by lia.
      destruct Hc as [->|[->|[->|Hc]]]; [assumption..|exact (Hx pos Hc)]. }
    rewrite (Hfixed x Hnone), (Hfixed' x Hnone). reflexivity.
Qed.

(** A cell outside the picture holds ['-']. *)
Lemma decompress_blank cube cube_S y :
  in_space cube -> distinctb (positions cube) = true ->
  decompress cube = Some cube_S -> ~ In y entry_cells ->
  cube_S y = chr "-".
Proof.
  intros Hs Hd E Hy.
  destruct (decompress_cells cube Hs Hd) as (S0 & E0 & _ & Hfixed).
  assert (S0 = cube_S) as -> by congruence.
  rewrite Hfixed.
  - apply make_cube_blank. intros Hin. apply Hy.
    exact (fixed_cells_entered y Hin).
  - intros pos Hp Hin. apply Hy. exact (piece_cells_entered pos Hp y Hin).
Qed.

Lemma differs_spec turn x y turns :
  differs turn x y turns = true ->
  exists cube cube' cube_S cube_S',
    reachable cube /\ rotate cube turn = Some cube' /\
    decompress cube = Some cube_S /\ decompress cube' = Some cube_S' /\
    cube_S' x <> cube_S y.
Proof.
  unfold differs. intros H. apply andb_true_iff in H. destruct H as [Hok H].
  destruct (apply_turns turns SOLVED_CUBE) as [cube|] eqn:Ea; [|discriminate].
  destruct (rotate cube turn) as [cube'|] eqn:Er; [|discriminate].
  destruct (decompress cube) as [cube_S|] eqn:Ed; [|discriminate].
  destruct (decompress cube') as [cube_S'|] eqn:Ed'; [|discriminate].
  exists cube, cube', cube_S, cube_S'.
  split; [|split; [exact Er|split; [exact Ed|split; [exact Ed'|]]]].
  - apply (apply_turns_reachable turns SOLVED_CUBE cube reach_solved); [|exact Ea].
    unfold turns_ok. apply Forall_forall. intros t Hin.
    rewrite forallb_forall in Hok. specialize (Hok t Hin).
    apply andb_true_iff in Hok. destruct Hok as [H1 H2].
    apply Z.leb_le in H1. apply Z.ltb_lt in H2. lia.
  - apply negb_true_iff in H. apply Z.eqb_neq in H. exact H.
Qed.

(** No cell can be the one from which [x] takes its colour. *)
Lemma no_source turn x :
  no_source_check turn x = true ->
  ~ exists source : Z -> Z,
      forall cube cube' cube_S cube_S',
        reachable cube -> rotate cube turn = Some cube' ->
        decompress cube = Some cube_S -> decompress cube' = Some cube_S' ->
        forall c, In c entry_cells -> cube_S' c = cube_S (source c).
Proof.
  intros Hcheck (source & H). unfold no_source_check in Hcheck.
  rewrite forallb_forall in Hcheck.
  assert (In x entry_cells) as Hx.
  { destruct (in_dec Z.eq_dec x entry_cells) as [Hin|Hout]; [exact Hin|].
    exfalso.
    specialize (Hcheck (-1) (or_introl eq_refl)).
    apply existsb_exists in Hcheck. destruct Hcheck as (turns & _ & Hdiff).
    destruct (differs_spec _ _ _ _ Hdiff)
      as (cube & cube' & cube_S & cube_S' & Hr & Er & Ed & Ed' & Hne).
    pose proof (reachable_valid cube Hr) as (Hs & Hd & _).
    destruct (rotate_distinct cube turn cube' Hs Hd Er) as (_ & Hs' & Hd' & _).
    apply Hne.
    rewrite (decompress_blank cube' cube_S' x Hs' Hd' Ed' Hout).
    rewrite (decompress_blank cube cube_S (-1) Hs Hd Ed); [reflexivity|].
    cbn. lia. }
  destruct (in_dec Z.eq_dec (source x) entry_cells) as [Hin|Hout].
  - specialize (Hcheck (source x) (or_intror Hin)).
    apply existsb_exists in Hcheck. destruct Hcheck as (turns & _ & Hdiff).
    destruct (differs_spec _ _ _ _ Hdiff)
      as (cube & cube' & cube_S & cube_S' & Hr & Er & Ed & Ed' & Hne).
    apply Hne. exact (H cube cube' cube_S cube_S' Hr Er Ed Ed' x Hx).
  - specialize (Hcheck (-1) (or_introl eq_refl)).
    apply existsb_exists in Hcheck. destruct Hcheck as (turns & _ & Hdiff).
    destruct (differs_spec _ _ _ _ Hdiff)
      as (cube & cube' & cube_S & cube_S' & Hr & Er & Ed & Ed' & Hne).
    pose proof (reachable_valid cube Hr) as (Hs & Hd & _).
    apply Hne. rewrite (H cube cube' cube_S cube_S' Hr Er Ed Ed' x Hx).
    rewrite (decompress_blank cube cube_S (source x) Hs Hd Ed Hout).
    rewrite (decompress_blank cube cube_S (-1) Hs Hd Ed); [reflexivity|].
    cbn. lia.
Qed.

Lemma no_source_checks :
  no_source_check 2 16 = true /\ no_source_check 3 10 = true /\
  no_source_check 4 3 = true /\ no_source_check 5 3 = true.
Proof. repeat split; vm_compute; reflexivity. Qed.

(** ** Overflow of the queue during the build *)


(** ** What [main] arrives at on the table that is built *)





(* ===================================================================== *)
(** * Further properties of the queue and of the state table *)
(* ===================================================================== *)

(** X1: a queue made by [createQueue] with room for [n > 0] entries is a
    FIFO bounded by [n].  Whatever calls of [enqueue], [dequeue] and [peek]
    are made on it, every call returns what it returns on a list kept oldest
    first ([enqueue]: 0 and the element is appended, or -1 and nothing
    changes when [n] entries are held; [dequeue]: the oldest entry, which is
    removed, or -1 on the empty queue; [peek]: the oldest entry, which stays,
    or -1), and the cells from [head] on hold that list. *)
Theorem queue_bounded_fifo (n : Z) (cs : list queue_call) :
  0 < n ->
  snd (calls (createQueue n) cs) = snd (fifo_calls n [] cs) /\
  contents (fst (calls (createQueue n) cs)) = fst (fifo_calls n [] cs).
Proof.
  intros Hn. destruct (createQueue_spec n Hn) as [Hwf Hc].
  destruct (calls_fifo n cs (createQueue n) Hwf eq_refl) as (R & _ & C).
  rewrite Hc in R, C. split; assumption.
Qed.

Lemma queue_bounded_fifo_witness :
  0 < 2 /\
  snd (calls (createQueue 2)
             [Enqueue 7; Enqueue 8; Enqueue 9; Dequeue; Enqueue 9; Peek;
              Dequeue; Dequeue; Dequeue]) =
  [0; 0; -1; 7; 0; 8; 8; 9; -1].
Proof.
  split; [lia|].
  rewrite (proj1 (queue_bounded_fifo 2 _ ltac:(lia))). reflexivity.
Defined.

(** X2: [shift_data_up(state_table, index)], for an index inside the table,
    moves the records from [index] to the last but one up by one record.
    The records below [index] and the record at [index] keep their bytes,
    the last record of the table is overwritten, and no byte outside the
    [NUMBER_OF_CUBES] records is changed. *)
Theorem shift_data_up_moves_records (state_table : Z -> Z) (index : Z) :
  0 <= index < NUMBER_OF_CUBES ->
  (forall i j, 0 <= j < 5 -> i <= index ->
     shift_data_up state_table index (i * 5 + j) = state_table (i * 5 + j)) /\
  (forall i j, 0 <= j < 5 -> index < i < NUMBER_OF_CUBES ->
     shift_data_up state_table index (i * 5 + j) =
     state_table ((i - 1) * 5 + j)) /\
  (forall b, ~ 0 <= b < SIZE_OF_CUBE * NUMBER_OF_CUBES ->
     shift_data_up state_table index b = state_table b).
Proof.
  intros Hi. split; [|split].
  - intros i j Hj Hle. rewrite shift_data_up_spec by exact Hi.
    destruct (Z.leb_spec (index * 5 + 5) (i * 5 + j)); [lia|reflexivity].
  - intros i j Hj Hlt. rewrite shift_data_up_spec by exact Hi.
    destruct (Z.leb_spec (index * 5 + 5) (i * 5 + j)); [|lia].
    destruct (Z.ltb_spec (i * 5 + j) (NUMBER_OF_CUBES * 5)); [|lia].
    cbn [andb]. f_equal. lia.
  - intros b Hb. rewrite shift_data_up_spec by exact Hi.
    unfold SIZE_OF_CUBE in Hb.
    destruct (Z.leb_spec (index * 5 + 5) b); [|reflexivity].
    destruct (Z.ltb_spec b (NUMBER_OF_CUBES * 5)); [lia|reflexivity].
Qed.

Lemma shift_data_up_moves_records_witness :
  0 <= 0 < NUMBER_OF_CUBES /\
  shift_data_up single_record_table 0 (1 * 5 + 3) = 126.
Proof.
  split; [unfold NUMBER_OF_CUBES; lia|].
  rewrite (proj1 (proj2 (shift_data_up_moves_records single_record_table 0
                           ltac:(unfold NUMBER_OF_CUBES; lia))) 1 3)
    by (unfold NUMBER_OF_CUBES; lia).
  reflexivity.
Defined.

(** X3: on a table that holds records in ascending order, [find_index]
    returns -1 for a configuration that is recorded; for one that is not
    recorded it returns the number of records below it, the place where it
    is to be inserted, as long as a record of the table is free; on a table
    filled to the last record, for a configuration above all the recorded
    ones, the scan leaves the loop and the function ends without a
    [return]. *)
Theorem find_index_on_sorted_records
    (state_table : Z -> Z) (l : list (Z * Z)) (cube : Z) :
  uchar_table state_table -> represents state_table l ->
  Forall record_ok l -> ascending l -> 0 <= cube < 4294967296 ->
  (In cube (cubes l) -> find_index state_table cube = Some (-1)) /\
  (~ In cube (cubes l) -> Z.of_nat (length l) < NUMBER_OF_CUBES ->
   find_index state_table cube = Some (Z.of_nat (insert_position cube l))) /\
  (Z.of_nat (length l) = NUMBER_OF_CUBES ->
   (forall c, In c (cubes l) -> c < cube) ->
   find_index state_table cube = None).
Proof.
  intros Hu Hr Hok Hasc Hc.
  rewrite (find_index_represents state_table cube Hu Hc l Hr Hok).
  split; [|split].
  - intros Hin. apply find_index_spec_present; assumption.
  - intros Hnin Hroom.
    destruct (Z.ltb_spec (Z.of_nat (length l)) NUMBER_OF_CUBES); [|lia].
    rewrite find_index_spec_absent by exact Hnin. reflexivity.
  - intros Hfull Habove.
    destruct (Z.ltb_spec (Z.of_nat (length l)) NUMBER_OF_CUBES); [lia|].
    apply find_index_spec_above. exact Habove.
Qed.

Lemma find_index_on_sorted_records_witness :
  uchar_table make_state_table /\ represents make_state_table [] /\
  find_index make_state_table SOLVED_CUBE = Some 0.
Proof.
  split; [exact make_state_table_uchar|].
  split; [exact make_state_table_represents|].
  refine (proj1 (proj2 (find_index_on_sorted_records make_state_table []
                          SOLVED_CUBE make_state_table_uchar
                          make_state_table_represents (Forall_nil _)
                          (SSorted_nil _) _)) _ _).
  - unfold SOLVED_CUBE. lia.
  - intros [].
  - unfold NUMBER_OF_CUBES. cbn. lia.
Defined.

(** X4: [add_state] on a table of ascending records with a free record: a
    configuration that is not recorded is inserted with its turn at its
    place in the order and 1 is returned; the table then holds the old
    records and the new one, still in ascending order; and adding the same
    configuration once more, with any turn, returns 0 and leaves the table
    as it is, so the turn stored first is kept. *)
Theorem add_state_keeps_first_turn
    (state_table : Z -> Z) (l : list (Z * Z)) (cube turn turn' : Z) :
  uchar_table state_table -> represents state_table l ->
  Forall record_ok l -> ascending l ->
  0 < cube < 2147483648 -> 0 <= turn < 256 ->
  ~ In cube (cubes l) -> Z.of_nat (length l) < NUMBER_OF_CUBES ->
  exists state_table',
    add_state state_table cube turn = Some (state_table', 1) /\
    uchar_table state_table' /\
    represents state_table' (insert_record (cube, turn) l) /\
    ascending (insert_record (cube, turn) l) /\
    (forall r, In r (insert_record (cube, turn) l) <->
               r = (cube, turn) \/ In r l) /\
    add_state state_table' cube turn' = Some (state_table', 0).
Proof.
  intros Hu Hr Hok Hasc Hc Ht Hnin Hroom.
  destruct (add_state_absent state_table l cube turn Hu Hr Hok Hc Hnin Hroom)
    as (t' & E & Hu' & Hr').
  rewrite (to_uchar_small turn Ht) in Hr'.
  exists t'. split; [exact E|]. split; [exact Hu'|]. split; [exact Hr'|].
  assert (ascending (insert_record (cube, turn) l)) as Hasc'.
  { apply insert_record_ascending; assumption. }
  split; [exact Hasc'|]. split; [intros r; apply insert_record_in|].
  apply (add_state_present t' (insert_record (cube, turn) l)); try assumption.
  - apply Forall_forall. intros r Hin. apply insert_record_in in Hin.
    destruct Hin as [->|Hin].
    + split; cbn [fst snd]; lia.
    + rewrite Forall_forall in Hok. apply Hok. exact Hin.
  - apply insert_record_cubes. left. reflexivity.
Qed.

Lemma add_state_keeps_first_turn_witness :
  0 < SOLVED_CUBE < 2147483648 /\
  exists state_table',
    add_state make_state_table SOLVED_CUBE 1 = Some (state_table', 1) /\
    add_state state_table' SOLVED_CUBE 2 = Some (state_table', 0).
Proof.
  split; [unfold SOLVED_CUBE; lia|].
  destruct (add_state_keeps_first_turn make_state_table [] SOLVED_CUBE 1 2
              make_state_table_uchar make_state_table_represents
              (Forall_nil _) (SSorted_nil _)
              ltac:(unfold SOLVED_CUBE; lia) ltac:(lia)
              (fun H : In SOLVED_CUBE (cubes []) => H)
              ltac:(unfold NUMBER_OF_CUBES; cbn; lia))
    as (t' & E & _ & _ & _ & _ & E').
  exists t'. split; assumption.
Defined.

(** X5: [get_turn] on any table, sorted or not, ends within 32 probes; what
    it returns is -1 or the fifth byte of a record of the table whose four
    configuration bytes are the configuration asked for; and it returns -1
    whenever no record of the table holds that configuration. *)
Theorem get_turn_sound (state_table : Z -> Z) (cube : Z) :
  exists r,
    get_turn state_table cube = Some r /\
    (r = -1 \/
     exists k, 0 <= k < NUMBER_OF_CUBES /\ cube_at state_table k = cube /\
               r = to_char (state_table (k * 5 + 4))) /\
    ((forall k, 0 <= k < NUMBER_OF_CUBES -> cube_at state_table k <> cube) ->
     r = -1).
Proof.
  destruct (get_turn_total state_table cube) as [r E]. exists r.
  split; [exact E|]. split.
  - apply (get_turn_found state_table cube r E).
  - intros H. pose proof (get_turn_absent state_table cube H) as E'. congruence.
Qed.

(** X6: in the table as [make_state_table] leaves it, all zero, [get_turn]
    finds no configuration but 0, for which it returns the code 0; so
    [solve_cube] returns NULL for every configuration but 0, and for 0 it
    returns the empty sequence. *)
Theorem empty_table_lookup (cube : Z) :
  get_turn make_state_table cube = Some (if cube =? 0 then 0 else -1) /\
  solve_cube cube make_state_table =
  Some (if cube =? 0 then Sequence (repeat 0 15) else Null) /\
  turns_of (repeat 0 15) = [].
Proof.
  split; [apply get_turn_empty_table|]. split; [|reflexivity].
  destruct (Z.eqb_spec cube 0) as [->|Hne].
  - reflexivity.
  - apply solve_loop_not_found. rewrite get_turn_empty_table.
    destruct (Z.eqb_spec cube 0); [contradiction|reflexivity].
Qed.

(** X7: a table written by [write_state_table] and read back by
    [read_state_table] into any table has, record for record, the bytes it
    had; [get_turn] and [solve_cube] answer on it as on the table
    written. *)
Theorem read_state_table_restores (state_table other : Z -> Z) :
  exists state_table',
    read_state_table (write_state_table true state_table) other =
    Some state_table' /\
    (forall b, 0 <= b < SIZE_OF_CUBE * NUMBER_OF_CUBES ->
       state_table' b = state_table b) /\
    (forall cube, get_turn state_table' cube = get_turn state_table cube) /\
    (forall cube,
       solve_cube cube state_table' = solve_cube cube state_table).
Proof.
  destruct (read_written state_table other) as (t' & E & Hin & _).
  exists t'. split; [exact E|]. split; [exact Hin|]. split.
  - intros cube. apply get_turn_agree. exact Hin.
  - intros cube. apply solve_loop_agree. exact Hin.
Qed.

(** X8: [get_last_element] is 0 as long as a record of the table is free,
    and on a table filled to the last record it is the configuration of the
    last record, the largest one. *)
Theorem get_last_element_is_last_record
    (state_table : Z -> Z) (l : list (Z * Z)) :
  uchar_table state_table -> represents state_table l ->
  Forall record_ok l ->
  (Z.of_nat (length l) < NUMBER_OF_CUBES -> get_last_element state_table = 0) /\
  (Z.of_nat (length l) = NUMBER_OF_CUBES ->
   exists r, nth_error l (Z.to_nat (NUMBER_OF_CUBES - 1)) = Some r /\
             get_last_element state_table = fst r /\
             (ascending l -> forall c, In c (cubes l) -> c <= fst r)).
Proof.
  intros Hu Hr Hok.
  assert (get_last_element state_table =
          cube_at state_table (NUMBER_OF_CUBES - 1)) as E by reflexivity.
  pose proof (represents_cube_at state_table l (NUMBER_OF_CUBES - 1) Hu Hr Hok
                ltac:(unfold NUMBER_OF_CUBES; lia)) as H.
  split.
  - intros Hroom.
    destruct (nth_error l (Z.to_nat (NUMBER_OF_CUBES - 1))) as [r|] eqn:En.
    + exfalso. assert (Z.to_nat (NUMBER_OF_CUBES - 1) < length l)%nat as Hlt.
      { apply nth_error_Some. congruence. }
      unfold NUMBER_OF_CUBES in *. lia.
    + congruence.
  - intros Hfull.
    destruct (nth_error l (Z.to_nat (NUMBER_OF_CUBES - 1))) as [r|] eqn:En.
    + exists r. split; [reflexivity|]. split; [rewrite E; apply H|].
      intros Hasc c Hc. unfold cubes in Hc.
      apply In_nth_error in Hc. destruct Hc as [k Hk].
      assert (k < length (map fst l))%nat as Hklt.
      { apply nth_error_Some. congruence. }
      rewrite length_map in Hklt.
      assert (nth_error (cubes l) (Z.to_nat (NUMBER_OF_CUBES - 1)) =
              Some (fst r)) as Er.
      { unfold cubes. rewrite nth_error_map, En. reflexivity. }
      destruct (Nat.eq_dec k (Z.to_nat (NUMBER_OF_CUBES - 1))) as [->|Hne].
      * unfold cubes in Er. assert (Some c = Some (fst r)) by congruence.
        injection H0 as ->. lia.
      * apply Z.lt_le_incl.
        apply (sorted_nth_error (cubes l) Hasc k
                 (Z.to_nat (NUMBER_OF_CUBES - 1)) c (fst r)).
        -- unfold NUMBER_OF_CUBES in *. lia.
        -- exact Hk.
        -- exact Er.
    + exfalso. apply nth_error_None in En. unfold NUMBER_OF_CUBES in *. lia.
Qed.

Lemma get_last_element_is_last_record_witness :
  uchar_table make_state_table /\ get_last_element make_state_table = 0.
Proof.
  split; [exact make_state_table_uchar|].
  apply (proj1 (get_last_element_is_last_record make_state_table []
                  make_state_table_uchar make_state_table_represents
                  (Forall_nil _))).
  unfold NUMBER_OF_CUBES. cbn. lia.
Defined.

(* ===================================================================== *)
(** * Further properties of the cube engine *)
(* ===================================================================== *)

Ltac turns_ok_list :=
  unfold turns_ok; repeat (apply Forall_cons; [assumption|]); apply Forall_nil.

(** X9: [rotate(cube, turn)] stays inside [turn_table] exactly when [turn]
    is one of the six turns and [cube] lies in the configuration space, from
    0 to 21^7 - 1: for any other argument, a negative [cube] included, one
    of the seven lookups is out of bounds. *)
Theorem rotate_defined_iff (cube turn : Z) :
  (exists cube', rotate cube turn = Some cube') <->
  (0 <= cube < 21 * c21_6 /\ 0 <= turn < 6).
Proof.
  split.
  - intros [cube' H]. apply (rotate_defined cube turn cube' H).
  - intros [Hs Ht]. destruct (rotate_in_space cube turn Hs Ht) as (c' & E & _).
    exists c'. exact E.
Qed.

(** X10: every turn has order four.  On every configuration of the space,
    the same turn made four times gives the configuration back, made three
    times it is the partner turn, and made twice it is the partner turn made
    twice. *)
Theorem four_turns_restore (cube turn : Z) :
  in_space cube -> 0 <= turn < 6 ->
  apply_turns [turn; turn; turn; turn] cube = Some cube /\
  apply_turns [turn; turn; turn] cube = rotate cube (inverse_turn turn) /\
  apply_turns [turn; turn] cube =
  apply_turns [inverse_turn turn; inverse_turn turn] cube.
Proof.
  intros Hs Ht. pose proof (inverse_turn_range turn Ht) as Hi.
  assert (apply_turns [turn; turn; turn; turn] cube = apply_turns [] cube)
    as E4.
  { apply apply_turns_same; [exact Hs|turns_ok_list|turns_ok_list|].
    intros s Hr. apply (four_turns_states turn s Ht Hr). }
  assert (apply_turns [turn; turn; turn] cube =
          apply_turns [inverse_turn turn] cube) as E3.
  { apply apply_turns_same; [exact Hs|turns_ok_list|turns_ok_list|].
    intros s Hr. apply (four_turns_states turn s Ht Hr). }
  split; [exact E4|]. split.
  - rewrite E3. cbn [apply_turns].
    destruct (rotate cube (inverse_turn turn)); reflexivity.
  - apply apply_turns_same; [exact Hs|turns_ok_list|turns_ok_list|].
    intros s Hr. apply (four_turns_states turn s Ht Hr).
Qed.

Lemma four_turns_restore_witness :
  in_space SOLVED_CUBE /\ 0 <= 4 < 6 /\
  apply_turns [4; 4; 4; 4] SOLVED_CUBE = Some SOLVED_CUBE.
Proof.
  split; [exact solved_in_space|]. split; [lia|].
  apply (proj1 (four_turns_restore SOLVED_CUBE 4 solved_in_space ltac:(lia))).
Defined.

(** X11: the configurations reached from the solved cube by turns are
    exactly the integers of the configuration space in which the seven
    pieces sit in seven different positions and the seven orientations add
    up to a multiple of three. *)
Theorem reachable_configurations (cube : Z) :
  reachable cube <->
  (in_space cube /\ distinctb (positions cube) = true /\ twist cube = 0).
Proof.
  split.
  - apply reachable_valid.
  - apply valid_reachable.
Qed.

(** X12: there are exactly [NUMBER_OF_CUBES] = 3,674,160 configurations
    that can be reached from the solved cube by turns. *)
Theorem number_of_configurations :
  NUMBER_OF_CUBES = 3674160 /\
  exists l : list Z,
    NoDup l /\ (forall cube, In cube l <-> reachable cube) /\
    Z.of_nat (length l) = NUMBER_OF_CUBES.
Proof.
  split; [reflexivity|].
  destruct build_exhausts as (n & l & H).
  exists (cubes l). split.
  - apply ascending_NoDup. destruct (build_refines n _ H) as (Hinv & _).
    apply Hinv.
  - split; [exact (build_complete n l H)|].
    unfold cubes. rewrite length_map. exact (build_exhausted_count n l H).
Qed.

(* ===================================================================== *)
(** * Further properties of the table that is built *)
(* ===================================================================== *)

(** X13: the frontier of [fill_state_table], started on the empty table, is
    exhausted after exactly NUMBER_OF_CUBES + 1 iterations of the loop, and
    not before.  At that point the counter [count] is NUMBER_OF_CUBES, no
    record of the table is free, every record holds a reachable
    configuration with a code from 1 to 6, and the configurations ascend
    from record to record. *)
Theorem fill_state_table_fills_every_record :
  (exists n s,
     fill_state_table n make_state_table = Some (Running s) /\
     contents (queue s) = []) /\
  (forall n s,
     fill_state_table n make_state_table = Some (Running s) ->
     contents (queue s) = [] ->
     Z.of_nat n = NUMBER_OF_CUBES + 1 /\
     count s = NUMBER_OF_CUBES /\
     (forall k, 0 <= k < NUMBER_OF_CUBES ->
        reachable (cube_at (table s) k) /\
        1 <= table s (k * 5 + 4) <= 6) /\
     (forall i j, 0 <= i < j -> j < NUMBER_OF_CUBES ->
        cube_at (table s) i < cube_at (table s) j)).
Proof.
  split.
  - destruct fill_exhausts as (n & s & l & _ & H & Href).
    exists n, s. split; [exact H|apply Href].
  - intros n s H Hq.
    destruct (exhausted_table n s H Hq) as (l & Hb & Href & Hinv & Hlen & Hall).
    destruct Href as (Hu & Hr & _ & _ & _ & Hcount).
    destruct Hinv as (Hasc & Hent & _).
    pose proof (entries_record_ok l Hent) as Hok.
    destruct (represents_full_sorted (table s) l Hu Hr Hok Hasc Hlen)
      as [Hslot Hsorted].
    split; [exact (build_exhausted_stage n l Hb)|].
    split; [lia|]. split; [|exact Hsorted].
    intros k Hk. destruct (Hslot k Hk) as (r & En & Ec & Et).
    rewrite Forall_forall in Hent.
    destruct (Hent r (nth_error_In _ _ En)) as [Hreach Hcode].
    rewrite Ec, Et. split; assumption.
Qed.

(** X14: on the table that [fill_state_table] has built when its frontier is
    exhausted, [get_turn] answers for every integer: a code from 1 to 6 for
    a configuration that can be reached from the solved cube, the solved
    cube included, and -1 for anything else. *)
Theorem get_turn_on_built_table :
  (exists n s,
     fill_state_table n make_state_table = Some (Running s) /\
     contents (queue s) = []) /\
  (forall n s cube,
     fill_state_table n make_state_table = Some (Running s) ->
     contents (queue s) = [] ->
     (reachable cube ->
      exists r, get_turn (table s) cube = Some r /\ 1 <= r <= 6) /\
     (~ reachable cube -> get_turn (table s) cube = Some (-1)) /\
     exists r, get_turn (table s) SOLVED_CUBE = Some r /\ 1 <= r <= 6).
Proof.
  split.
  - destruct fill_exhausts as (n & s & l & _ & H & Href).
    exists n, s. split; [exact H|apply Href].
  - intros n s cube H Hq.
    destruct (exhausted_lookup n s cube H Hq) as [Hin Hout].
    split; [exact Hin|]. split; [exact Hout|].
    apply (proj1 (exhausted_lookup n s SOLVED_CUBE H Hq)). exact reach_solved.
Qed.

(** X15: on the table that [fill_state_table] has built when its frontier is
    exhausted, [solve_cube] returns NULL for every integer that is not a
    reachable configuration, and for every reachable configuration it keeps
    turning, since no lookup yields -1 or 0, until it stores a sixteenth
    turn past the end of its 15-byte buffer. *)
Theorem solve_cube_on_built_table :
  (exists n s,
     fill_state_table n make_state_table = Some (Running s) /\
     contents (queue s) = []) /\
  (forall n s cube,
     fill_state_table n make_state_table = Some (Running s) ->
     contents (queue s) = [] ->
     (reachable cube -> solve_cube cube (table s) = None) /\
     (~ reachable cube -> solve_cube cube (table s) = Some Null)).
Proof.
  split.
  - destruct fill_exhausts as (n & s & l & _ & H & Href).
    exists n, s. split; [exact H|apply Href].
  - intros n s cube H Hq. split.
    + intros Hreach. apply solve_loop_overrun; [|exact Hreach].
      intros c Hc. apply (proj1 (exhausted_lookup n s c H Hq) Hc).
    + intros Hnot. apply solve_loop_not_found.
      apply (proj2 (exhausted_lookup n s cube H Hq) Hnot).
Qed.

(** X16: the table that [fill_state_table] has built when its frontier is
    exhausted holds shortest routes.  From every reachable configuration,
    looking the configuration up with [get_turn] and performing the turn as
    [solve_cube] performs it, again and again, arrives at the solved cube
    after exactly as many turns as the configuration is turns away from the
    solved cube, and no sequence of turns does it in fewer. *)
Theorem stored_turns_are_shortest_routes :
  (exists n s,
     fill_state_table n make_state_table = Some (Running s) /\
     contents (queue s) = []) /\
  (forall n s cube,
     fill_state_table n make_state_table = Some (Running s) ->
     contents (queue s) = [] -> reachable cube ->
     exists d,
       turns_away d cube /\
       (forall k, turns_away k cube -> (d <= k)%nat) /\
       follow d (table s) cube = Some SOLVED_CUBE).
Proof.
  split.
  - destruct fill_exhausts as (n & s & l & _ & H & Href).
    exists n, s. split; [exact H|apply Href].
  - intros n s cube H Hq Hreach. exact (exhausted_route n s cube H Hq Hreach).
Qed.

(** X17: [test_state_table] cannot complete on the file written from the
    table that [fill_state_table] has built: the first record already holds
    a reachable configuration, on which [solve_cube] runs past its buffer.
    On an empty file, which leaves the table all zero, it completes and
    reports nothing. *)
Theorem test_state_table_on_built_table :
  (exists n s,
     fill_state_table n make_state_table = Some (Running s) /\
     contents (queue s) = []) /\
  (forall n s,
     fill_state_table n make_state_table = Some (Running s) ->
     contents (queue s) = [] ->
     test_state_table (write_state_table true (table s)) = None) /\
  test_state_table (Some []) = Some [].
Proof.
  split; [|split].
  - destruct fill_exhausts as (n & s & l & _ & H & Href).
    exists n, s. split; [exact H|apply Href].
  - intros n s H Hq. unfold test_state_table.
    destruct (read_written (table s) make_state_table) as (t' & E & Hin & _).
    rewrite E. cbn [obind]. rewrite number_of_cubes_succ.
    apply test_loop_first.
    assert (solve_cube (cube_at t' 0) t' =
            solve_cube (cube_at t' 0) (table s)) as Es.
    { apply solve_loop_agree. exact Hin. }
    rewrite Es.
    rewrite (cube_at_agree t' (table s) 0 Hin)
      by (unfold NUMBER_OF_CUBES; lia).
    apply solve_loop_overrun.
    + intros c Hc. apply (proj1 (exhausted_lookup n s c H Hq) Hc).
    + destruct (exhausted_table n s H Hq)
        as (l & Hb & Href & Hinv & Hlen & Hall).
      destruct Href as (Hu & Hr & _). destruct Hinv as (Hasc & Hent & _).
      destruct (represents_full_sorted (table s) l Hu Hr
                  (entries_record_ok l Hent) Hasc Hlen) as [Hslot _].
      destruct (Hslot 0 ltac:(unfold NUMBER_OF_CUBES; lia)) as (r & En & Ec & _).
      rewrite Ec. rewrite Forall_forall in Hent.
      apply (Hent r (nth_error_In _ _ En)).
  - unfold test_state_table. cbn [read_state_table obind].
    apply test_loop_zero. intros b.
    destruct ((0 <=? b) && (b <? SIZE_OF_CUBE * NUMBER_OF_CUBES));
      [destruct (Z.to_nat b)|]; reflexivity.
Qed.

(* ===================================================================== *)
(** * Properties of the cube struct and of the entry of a cube *)
(* ===================================================================== *)

(** X18: [which_piece] tells a piece by its colours as [cube.c] lists
    them: it returns [k], from 0 to 6, exactly when the three characters are
    the three colours of piece [k] in some order, and -1 for anything else,
    the colours of the stationary piece included. *)
Theorem which_piece_identifies_pieces (a b c : Z) :
  (forall k, 0 <= k < 7 ->
     (which_piece [a; b; c] = k <->
      Permutation [a; b; c]
                  (nth (Z.to_nat k) [zero; one; two; three; four; five; six]
                       []))) /\
  (which_piece [a; b; c] = -1 \/ 0 <= which_piece [a; b; c] < 7) /\
  which_piece [chr "r"; chr "y"; chr "b"] = -1.
Proof.
  split; [|split; [apply which_piece_range|reflexivity]].
  intros k Hk. split.
  - apply (which_piece_colors a b c k Hk).
  - apply (which_piece_permutation a b c k Hk).
Qed.

(** X19: what [insert] writes, [which_piece] and [get_piece_state] read
    back.  [insert] of a piece in one of its 21 states changes the three
    cells of the position of the state and no other cell; from the three
    characters it has written there [which_piece] returns the piece and
    [get_piece_state], asked for the piece at that position, returns the
    state. *)
Theorem get_piece_state_reads_insert (cube_S : Cube) (piece state : Z) :
  0 <= piece < 7 -> 0 <= state < 21 ->
  exists cube_S',
    insert cube_S (nth (Z.to_nat piece) [zero; one; two; three; four; five; six] [])
           piece state = Some cube_S' /\
    (forall x, ~ In x (piece_cells (state / 3)) -> cube_S' x = cube_S x) /\
    which_piece (map cube_S' (piece_cells (state / 3))) = piece /\
    get_piece_state piece (state / 3) (map cube_S' (piece_cells (state / 3))) =
    Some state.
Proof.
  intros Hp Hs.
  destruct (stickers_spec piece state Hp Hs)
    as (a & b & c & Es & _ & _ & Hw & Hg & _).
  assert (0 <= state / 3 < 7) as Hpos by (Z.div_mod_to_equations; lia).
  destruct (cells_three (state / 3) Hpos) as (tb & fb & rl & Ec & H1 & H2 & H3).
  exists (write3 cube_S (piece_cells (state / 3)) [a; b; c]).
  split.
  - fold (piece_colors_of piece). rewrite (insert_defined cube_S piece state _ Es).
    rewrite Z.quot_div_nonneg by lia. reflexivity.
  - split; [intros x Hx; apply write3_other; exact Hx|].
    rewrite Ec, (write3_cells cube_S tb fb rl a b c H1 H2 H3).
    split; [exact Hw|exact Hg].
Qed.

Lemma get_piece_state_reads_insert_witness :
  0 <= 2 < 7 /\ 0 <= 7 < 21 /\
  exists cube_S',
    insert make_cube two 2 7 = Some cube_S' /\
    get_piece_state 2 (7 / 3) (map cube_S' (piece_cells (7 / 3))) = Some 7.
Proof.
  split; [lia|]. split; [lia|].
  destruct (get_piece_state_reads_insert make_cube 2 7 ltac:(lia) ltac:(lia))
    as (cube_S' & E & _ & _ & Hg).
  exists cube_S'. split; [exact E|exact Hg].
Defined.

(** X20: the cube struct that [decompress] makes of a configuration whose
    seven pieces sit in seven different positions, in particular of every
    configuration that can be reached from the solved cube.  The 24 cells
    that are displayed hold each of the six colours four times; the cells of
    the stationary piece hold 'r', 'b' and 'y'; the cells of the position of
    each piece hold the stickers of the piece in its state; and the 24 other
    cells of the array hold '-'. *)
Theorem decompress_cube_struct (cube : Z) :
  in_space cube -> distinctb (positions cube) = true ->
  exists cube_S,
    decompress cube = Some cube_S /\
    (forall x, In x [chr "o"; chr "r"; chr "w"; chr "y"; chr "g"; chr "b"] ->
       count_in x (map cube_S entry_cells) = 4%nat) /\
    cube_S (cell 5 3) = chr "r" /\ cube_S (cell 3 5) = chr "b" /\
    cube_S (cell 3 6) = chr "y" /\
    (forall k, 0 <= k < 7 ->
       map cube_S (piece_cells (digit cube k / 3)) =
       stickers k (digit cube k)) /\
    (forall x, ~ In x entry_cells -> cube_S x = chr "-").
Proof.
  intros Hs Hd.
  destruct (decompress_cells cube Hs Hd) as (cube_S & E & Hcells & Hfixed).
  exists cube_S. split; [exact E|]. split.
  { intros x Hx. exact (entered_census cube cube_S Hd Hcells Hfixed x Hx). }
  split; [apply (fixed_cell cube_S Hfixed); cbn; tauto|].
  split; [apply (fixed_cell cube_S Hfixed); cbn; tauto|].
  split; [apply (fixed_cell cube_S Hfixed); cbn; tauto|].
  split; [exact Hcells|].
  intros x Hx. rewrite Hfixed.
  - apply make_cube_blank. intros Hin. apply Hx.
    exact (fixed_cells_entered x Hin).
  - intros pos Hp Hin. apply Hx. exact (piece_cells_entered pos Hp x Hin).
Qed.

Lemma decompress_cube_struct_witness :
  in_space SOLVED_CUBE /\ distinctb (positions SOLVED_CUBE) = true /\
  exists cube_S,
    decompress SOLVED_CUBE = Some cube_S /\
    count_in (chr "o") (map cube_S entry_cells) = 4%nat.
Proof.
  split; [exact solved_in_space|]. split; [reflexivity|].
  destruct (decompress_cube_struct SOLVED_CUBE solved_in_space eq_refl)
    as (cube_S & E & Hc & _).
  exists cube_S. split; [exact E|]. apply Hc. left. reflexivity.
Defined.

(** X21: [compress] undoes [decompress].  For a configuration whose seven
    pieces sit in seven different positions, entered as [decompress] shows
    it, place by place in the order of [print_intro], [compress] finds the
    states of the seven pieces again: it returns the configuration when
    [get_turn] finds it in the table, and -2 when [get_turn] returns -1. *)
Theorem compress_inverts_decompress (state_table : Z -> Z) (cube : Z) :
  in_space cube -> distinctb (positions cube) = true ->
  exists cube_S r,
    decompress cube = Some cube_S /\
    get_turn state_table cube = Some r /\
    compress state_table (entered cube_S) =
    Some (if r =? -1 then -2 else cube).
Proof.
  intros Hs Hd.
  destruct (decompress_cells cube Hs Hd) as (cube_S & E & Hcells & _).
  destruct (get_turn_total state_table cube) as [r Er].
  exists cube_S, r. split; [exact E|]. split; [exact Er|].
  rewrite (compress_entered cube cube_S Hs Hd Hcells), Er. cbn [obind].
  destruct (r =? -1); reflexivity.
Qed.

Lemma compress_inverts_decompress_witness :
  in_space SOLVED_CUBE /\ distinctb (positions SOLVED_CUBE) = true /\
  exists cube_S,
    decompress SOLVED_CUBE = Some cube_S /\
    compress single_record_table (entered cube_S) = Some (-2).
Proof.
  split; [exact solved_in_space|]. split; [reflexivity|].
  destruct (compress_inverts_decompress single_record_table SOLVED_CUBE
              solved_in_space eq_refl) as (cube_S & r & E & Er & Ec).
  exists cube_S. split; [exact E|].
  assert (r = -1) as ->; [|exact Ec].
  assert (get_turn single_record_table SOLVED_CUBE = Some (-1)) as E'
    by (vm_compute; reflexivity).
  congruence.
Defined.

(** X22: [fill_buffer] accepts every configuration whose seven pieces sit
    in seven different positions when it is typed as [decompress] shows
    it: it reads the 24 colours and the end of the line, returns 0 and
    leaves them in the buffer, whatever the table holds; [compress] of the
    buffer is the configuration if [get_turn] finds it, and -2 if not. *)
Theorem fill_buffer_accepts_entered_cube
    (state_table : Z -> Z) (cube : Z) (cube_S : Cube)
    (rest : list Z) (buffer : Z -> Z) :
  in_space cube -> distinctb (positions cube) = true ->
  decompress cube = Some cube_S ->
  exists b r,
    fill_buffer state_table (entered_line cube_S ++ rest) buffer =
    Returns 0 b rest /\
    buffer_cells b = map cube_S entry_cells /\
    get_turn state_table cube = Some r /\
    compress state_table b = Some (if r =? -1 then -2 else cube).
Proof.
  intros Hs Hd E.
  destruct (decompress_cells cube Hs Hd) as (cube_S' & E' & Hcells & Hfixed).
  assert (cube_S' = cube_S) as -> by congruence.
  destruct (fill_buffer_entered state_table cube cube_S Hs Hd Hcells Hfixed
              buffer rest) as (Hf & _ & Hb & r & Er & Ec).
  exists (fill_from buffer 0 (map cube_S entry_cells)), r.
  split; [exact Hf|]. split; [exact Hb|]. split; [exact Er|exact Ec].
Qed.

Lemma fill_buffer_accepts_entered_cube_witness :
  in_space SOLVED_CUBE /\ distinctb (positions SOLVED_CUBE) = true /\
  exists cube_S b,
    decompress SOLVED_CUBE = Some cube_S /\
    fill_buffer make_state_table (entered_line cube_S) (fun _ => 0) =
    Returns 0 b [].
Proof.
  split; [exact solved_in_space|]. split; [reflexivity|].
  destruct (decompress_cells SOLVED_CUBE solved_in_space eq_refl)
    as (cube_S & E & _).
  destruct (fill_buffer_accepts_entered_cube make_state_table SOLVED_CUBE
              cube_S [] (fun _ => 0) solved_in_space eq_refl E)
    as (b & r & Hf & _).
  exists cube_S, b. split; [exact E|].
  rewrite app_nil_r in Hf. exact Hf.
Defined.




(** X24: entering a cube when the table is the one [fill_state_table] has
    built.  [fill_buffer] returns 0 for every configuration whose seven
    pieces sit in seven different positions, typed as [decompress] shows
    it, whether its orientations add up to a multiple of three or not.  In
    the first case [compress] returns the configuration; in the second
    case, that of a cube with a twisted corner such as the solved cube with
    piece 0 turned in place, [compress] returns -2, which [fill_buffer] only
    reports, and [decompress] of -2 reads outside its tables. *)
Theorem entering_on_built_table :
  (exists n s,
     fill_state_table n make_state_table = Some (Running s) /\
     contents (queue s) = []) /\
  (forall n s cube cube_S rest buffer,
     fill_state_table n make_state_table = Some (Running s) ->
     contents (queue s) = [] ->
     in_space cube -> distinctb (positions cube) = true ->
     decompress cube = Some cube_S ->
     exists b,
       fill_buffer (table s) (entered_line cube_S ++ rest) buffer =
       Returns 0 b rest /\
       compress (table s) b = Some (if twist cube =? 0 then cube else -2)) /\
  (in_space (SOLVED_CUBE + 1) /\
   distinctb (positions (SOLVED_CUBE + 1)) = true /\
   twist (SOLVED_CUBE + 1) = 1 /\ digit (SOLVED_CUBE + 1) 0 = 1 /\
   forall i, 1 <= i < 7 -> digit (SOLVED_CUBE + 1) i = digit SOLVED_CUBE i) /\
  decompress (-2) = None.
Proof.
  split; [|split; [|split; [|exact decompress_minus_two]]].
  - destruct fill_exhausts as (n & s & l & _ & H & Href).
    exists n, s. split; [exact H|apply Href].
  - intros n s cube cube_S rest buffer H Hq Hs Hd E.
    destruct (decompress_cells cube Hs Hd) as (cube_S' & E' & Hcells & Hfixed).
    assert (cube_S' = cube_S) as -> by congruence.
    destruct (fill_buffer_entered (table s) cube cube_S Hs Hd Hcells Hfixed
                buffer rest) as (Hf & _ & _ & r & Er & Ec).
    exists (fill_from buffer 0 (map cube_S entry_cells)).
    split; [exact Hf|]. rewrite Ec. f_equal.
    destruct (exhausted_lookup n s cube H Hq) as [Hin Hout].
    destruct (Z.eqb_spec (twist cube) 0) as [Ht|Ht].
    + destruct (Hin (valid_reachable cube (conj Hs (conj Hd Ht))))
        as (r' & Er' & Hr').
      assert (r = r') as -> by congruence.
      destruct (Z.eqb_spec r' (-1)); [lia|reflexivity].
    + assert (~ reachable cube) as Hnot.
      { intros Hreach. apply Ht. apply (reachable_valid cube Hreach). }
      rewrite (Hout Hnot) in Er. injection Er as <-. reflexivity.
  - split; [unfold in_space, SOLVED_CUBE, c21_6; lia|].
    split; [reflexivity|]. split; [reflexivity|]. split; [reflexivity|].
    intros i Hi.
    assert (i = 1 \/ i = 2 \/ i = 3 \/ i = 4 \/ i = 5 \/ i = 6) as Hc by lia.
    destruct Hc as [->|[->|[->|[->|[->| ->]]]]]; reflexivity.
Qed.




(** X27: a front turn moves the colours of the picture that [decompress]
    makes.  For a configuration whose seven pieces sit in seven different
    positions, [rotate] by [frontCC] (turn 0) or [frontC] (turn 1) is
    defined, and the picture of the result shows at the three cells of the
    position to which a front position goes what the picture showed at the
    cells of that position, top-or-bottom and left-or-right exchanged and
    the front colour kept at the front; every other cell is unchanged.
    [frontCC] takes the positions 0, 1, 2, 3 to 1, 3, 0, 2 and [frontC] takes
    them to 2, 0, 3, 1. *)
Theorem front_turn_moves_colours (cube turn : Z) (cube_S : Cube) :
  in_space cube -> distinctb (positions cube) = true ->
  turn = 0 \/ turn = 1 -> decompress cube = Some cube_S ->
  exists cube' cube_S',
    rotate cube turn = Some cube' /\ decompress cube' = Some cube_S' /\
    (forall pos, 0 <= pos < 4 ->
       map cube_S' (piece_cells (turn_position turn pos)) =
       rev (map cube_S (piece_cells pos))) /\
    (forall x, (forall pos, 0 <= pos < 4 -> ~ In x (piece_cells pos)) ->
       cube_S' x = cube_S x) /\
    map (turn_position 0) [0; 1; 2; 3] = [1; 3; 0; 2] /\
    map (turn_position 1) [0; 1; 2; 3] = [2; 0; 3; 1].
Proof.
  intros Hs Hd Ht E.
  destruct (front_turn_cells cube turn cube_S Hs Hd Ht E)
    as (cube' & cube_S' & Er & E' & Hfront & Hrest).
  exists cube', cube_S'.
  split; [exact Er|]. split; [exact E'|]. split; [exact Hfront|].
  split; [exact Hrest|]. split; reflexivity.
Qed.

Lemma front_turn_moves_colours_witness :
  in_space SOLVED_CUBE /\ distinctb (positions SOLVED_CUBE) = true /\
  exists cube_S cube' cube_S',
    decompress SOLVED_CUBE = Some cube_S /\
    frontCC SOLVED_CUBE = Some cube' /\ decompress cube' = Some cube_S' /\
    map cube_S' (piece_cells 1) = rev (map cube_S (piece_cells 0)).
Proof.
  split; [exact solved_in_space|]. split; [reflexivity|].
  destruct (decompress_cells SOLVED_CUBE solved_in_space eq_refl)
    as (cube_S & E & _).
  destruct (front_turn_moves_colours SOLVED_CUBE 0 cube_S solved_in_space
              eq_refl (or_introl eq_refl) E)
    as (cube' & cube_S' & Er & E' & Hfront & _).
  exists cube_S, cube', cube_S'.
  split; [exact E|]. split; [exact Er|]. split; [exact E'|].
  exact (Hfront 0 ltac:(lia)).
Defined.

(** X28: the left and the top turns do not move the colours of the
    picture.  For none of [leftCC], [leftC], [topCC] and [topC] (turns 2 to
    5) is there a map of cells such that, on every reachable
    configuration, each of the 24 cells of the picture that [decompress]
    makes of the turned configuration shows what the picture of the
    configuration showed at the cell it is mapped to. *)
Theorem side_turns_move_no_colours :
  Forall (fun turn =>
    ~ exists source : Z -> Z,
        forall cube cube' cube_S cube_S',
          reachable cube -> rotate cube turn = Some cube' ->
          decompress cube = Some cube_S -> decompress cube' = Some cube_S' ->
          forall c, In c entry_cells -> cube_S' c = cube_S (source c))
    [2; 3; 4; 5].
Proof.
  destruct no_source_checks as (H2 & H3 & H4 & H5).
  repeat apply Forall_cons; [| | | |apply Forall_nil].
  - exact (no_source 2 16 H2).
  - exact (no_source 3 10 H3).
  - exact (no_source 4 3 H4).
  - exact (no_source 5 3 H5).
Qed.
